(** * Walmart search-result extraction: a shallow embedding

    Model of [src/content/matchFinder/walmartSearch.ts]:
    - [findWalmartSearchResultElements]  (element locator),
    - [extractWalmartSearchResult]       (result extractor),
    - [calculateWalmartTitleSimilarity]  (title similarity scorer).

    JavaScript strings are sequences of UTF-16 code units, JavaScript numbers
    are modelled by [number] below, the DOM and the URL parser are host
    capabilities reached through the [Host] interface, and [try]/[catch] is an
    error monad.  The [console.*] calls only write to the log and are left out. *)

From Stdlib Require Import Ascii String.
From Stdlib Require Import List Bool Arith NArith ZArith QArith Qreduction Lia Lqa.
Import ListNotations.

Abbreviation length := List.length.

Set Implicit Arguments.

(* ===================================================================== *)
(** ** Strings: UTF-16 code units *)
(* ===================================================================== *)

Module JsString.

Abbreviation char := N.
Abbreviation jsstring := (list N).

(** Literals of the source are ASCII; [js "abc"] is the string "abc". *)
Definition js (s : string) : jsstring :=
  map N_of_ascii (list_ascii_of_string s).

Definition ch (s : string) : char :=
  match js s with c :: _ => c | [] => 0%N end.

Local Open Scope N_scope.

Definition between (lo hi c : char) : bool := (lo <=? c) && (c <=? hi).

(** [\d] : the ten ASCII digits. *)
Definition isDigit (c : char) : bool := between 48 57 c.

Definition isUpper (c : char) : bool := between 65 90 c.
Definition isLower (c : char) : bool := between 97 122 c.

(** [\w] : ASCII letters, digits and the underscore. *)
Definition isWord (c : char) : bool :=
  isDigit c || isUpper c || isLower c || (c =? 95).

(** [\s] : ECMAScript WhiteSpace and LineTerminator code units. *)
Definition isSpace (c : char) : bool :=
  between 9 13 c || (c =? 32) || (c =? 160) || (c =? 5760)
  || between 8192 8202 c || (c =? 8232) || (c =? 8233) || (c =? 8239)
  || (c =? 8287) || (c =? 12288) || (c =? 65279).

(** [.] without the [s] flag: anything but a line terminator. *)
Definition isLineTerminator (c : char) : bool :=
  (c =? 10) || (c =? 13) || (c =? 8232) || (c =? 8233).

(** [String.prototype.toLowerCase], code unit by code unit.  ASCII capitals
    are shifted by 32.  Outside ASCII only two code units lower-case to
    something that contains an ASCII letter: U+0130 (to "i" followed by
    U+0307) and U+212A, the Kelvin sign (to "k").  Every other non-ASCII code
    unit is mapped to itself here: its real image is again outside [\w] and
    is a white space only if the code unit itself is one, which is all
    [normalize] below can observe. *)
Definition lowerChar (c : char) : jsstring :=
  if isUpper c then [c + 32]
  else if c =? 304 then [105; 775]
  else if c =? 8490 then [107]
  else [c].

Definition toLowerCase (s : jsstring) : jsstring := flat_map lowerChar s.

Definition eqb (a b : jsstring) : bool :=
  if list_eq_dec N.eq_dec a b then true else false.

(** Whether the first code unit of a string is in a class. *)
Definition startsIn (cls : char -> bool) (s : jsstring) : bool :=
  match s with c :: _ => cls c | [] => false end.

(** A string is truthy when it is not empty. *)
Definition truthy (s : jsstring) : bool :=
  match s with [] => false | _ :: _ => true end.

Fixpoint startsWith (p s : jsstring) : bool :=
  match p, s with
  | [], _ => true
  | _ :: _, [] => false
  | a :: p', b :: s' => (a =? b) && startsWith p' s'
  end.

(** [s.includes(p)] *)
Fixpoint includes (s p : jsstring) : bool :=
  startsWith p s ||
  match s with
  | [] => false
  | _ :: s' => includes s' p
  end.

Fixpoint dropWhile (f : char -> bool) (s : jsstring) : jsstring :=
  match s with
  | [] => []
  | c :: s' => if f c then dropWhile f s' else s
  end.

Fixpoint takeWhile (f : char -> bool) (s : jsstring) : jsstring :=
  match s with
  | [] => []
  | c :: s' => if f c then c :: takeWhile f s' else []
  end.

(** [s.trim()] *)
Definition trim (s : jsstring) : jsstring :=
  rev (dropWhile isSpace (rev (dropWhile isSpace s))).

(** [s.padEnd(n, "0")] *)
Definition padEnd (s : jsstring) (n : nat) (fill : char) : jsstring :=
  s ++ repeat fill (n - length s).

(** [s.replace(/[^C]/g, '')] for a character class C: keep the code units
    of the class. *)
Definition keep (cls : char -> bool) (s : jsstring) : jsstring := filter cls s.

(** Cutting a string at every maximal run of separators.  A run at the start
    or at the end of the string leaves an empty first or last piece, and the
    empty string is cut into one empty piece. *)
Fixpoint splitRuns (sep : char -> bool) (inrun : bool) (cur : jsstring)
         (s : jsstring) : list jsstring :=
  match s with
  | [] => [rev cur]
  | c :: s' =>
      if sep c
      then (if inrun then splitRuns sep true [] s'
            else rev cur :: splitRuns sep true [] s')
      else splitRuns sep false (c :: cur) s'
  end.

(** [s.split(/\s+/)] *)
Definition split_ws (s : jsstring) : list jsstring :=
  splitRuns isSpace false [] s.

End JsString.


(* ===================================================================== *)
(** ** Numbers *)
(* ===================================================================== *)

Module JsNumber.
Import JsString.

(** A JavaScript number is an IEEE 754 double (binary64).  The program only
    parses digit strings and adds, multiplies and divides the results, so no
    number is ever negative and no zero is negative.  A finite double is
    represented by its value, a rational in lowest terms, so that equal
    values are equal terms.  Every operation gives the double nearest to the
    exact result, ties to the even significand ([round64]); an exact result
    at or above the overflow threshold gives [Infinity]. *)
Inductive number :=
| NaN
| Infinity
| Finite (q : Q).

(** *** Rounding to the nearest double *)

(** The integer nearest to a / b, for b > 0; of two nearest integers the even
    one. *)
Definition nearestEven (a b : Z) : Z :=
  let k := (a / b)%Z in
  match (2 * (a mod b) ?= b)%Z with
  | Lt => k
  | Gt => (k + 1)%Z
  | Eq => if Z.even k then k else (k + 1)%Z
  end.

(** Doubles are spaced by 2^-1074 below 2^-1021 (the subnormal numbers and
    the first binade of the normal ones), and by 2^(e-52) in the binade
    from 2^e to 2^(e+1): a significand of 53 bits.  For a value n / d counted
    in units of 2^-1074, the spacing in these units is 2^u with this u. *)
Definition lastPlace (n d : Z) : Z := Z.max (Z.log2 (n / d) - 52) 0.

(** n / d rounded to a multiple of that spacing. *)
Definition roundZ (n d : Z) : Z :=
  let u := lastPlace n d in (nearestEven n (d * 2 ^ u) * 2 ^ u)%Z.

(** The value of the double nearest to q, without regard to overflow. *)
Definition round64 (q : Q) : Q :=
  let r := Qred q in
  Qred (Qmake (Z.sgn (Qnum r) * roundZ (Z.abs (Qnum r) * 2 ^ 1074) (Zpos (Qden r)))
              (2 ^ 1074)%positive).

(** The least real that rounds to +Infinity: 2^1024 - 2^970. *)
Definition overflow : Z := (2 ^ 1024 - 2 ^ 970)%Z.

(** The number for the exact result q of an operation. *)
Definition mk (q : Q) : number :=
  if Qle_bool (inject_Z overflow) q then Infinity else Finite (round64 q).

Definition of_N (n : N) : number := mk (inject_Z (Z.of_N n)).

(** The length of an array, or a count of its elements.  An array has at most
    2^32 - 1 elements, integers that a double holds exactly; the lists of this
    model are not bounded, and a list longer than any array stands for an
    array of that greatest length. *)
Definition maxLength : Z := (2 ^ 32 - 1)%Z.
Definition of_nat (n : nat) : number :=
  Finite (inject_Z (Z.min (Z.of_nat n) maxLength)).

Definition isNaN (x : number) : bool :=
  match x with NaN => true | _ => false end.

Definition isFinite (x : number) : bool :=
  match x with Finite _ => true | _ => false end.

Definition isZero (q : Q) : bool := Qeq_bool q 0.

(** [x + y] *)
Definition add (x y : number) : number :=
  match x, y with
  | NaN, _ | _, NaN => NaN
  | Infinity, _ | _, Infinity => Infinity
  | Finite a, Finite b => mk (a + b)
  end.

(** [x * y] *)
Definition mul (x y : number) : number :=
  match x, y with
  | NaN, _ | _, NaN => NaN
  | Infinity, Finite b => if isZero b then NaN else Infinity
  | Finite a, Infinity => if isZero a then NaN else Infinity
  | Infinity, Infinity => Infinity
  | Finite a, Finite b => mk (a * b)
  end.

(** [x / y] *)
Definition div (x y : number) : number :=
  match x, y with
  | NaN, _ | _, NaN => NaN
  | Infinity, Infinity => NaN
  | Infinity, Finite _ => Infinity
  | Finite _, Infinity => Finite 0
  | Finite a, Finite b =>
      if isZero b then (if isZero a then NaN else Infinity)
      else mk (a / b)
  end.

(** [x === y] (and [x == y]) on numbers: NaN is equal to nothing. *)
Definition strictEq (x y : number) : bool :=
  match x, y with
  | Finite a, Finite b => Qeq_bool a b
  | Infinity, Infinity => true
  | _, _ => false
  end.

(** [lo <= x && x <= hi] for finite bounds; false on NaN. *)
Definition inRange (lo hi : Q) (x : number) : bool :=
  match x with
  | Finite q => Qle_bool lo q && Qle_bool q hi
  | _ => false
  end.

(** Value of a run of decimal digits, most significant first. *)
Definition digitsValue (s : jsstring) : N :=
  fold_left (fun acc c => (10 * acc + (c - 48))%N) s 0%N.

(** [parseInt(s, 10)] on the strings this program passes, which all start
    with a digit: the double nearest to the value of the leading digit run.
    On a string that does not start with a digit the answer is NaN
    (parseInt's own answer, except after leading white space or a sign,
    which no call site can pass). *)
Definition parseInt (s : jsstring) : number :=
  match takeWhile isDigit s with
  | [] => NaN
  | ds => of_N (digitsValue ds)
  end.

(** [parseFloat(s)] on the strings this program passes: a digit run,
    optionally followed by a dot and a second digit run; the double nearest
    to the decimal number that they denote.  (No call site can pass a sign,
    an exponent or leading white space.) *)
Definition parseFloat (s : jsstring) : number :=
  let ds := takeWhile isDigit s in
  let fs := match dropWhile isDigit s with
            | c :: rest => if (c =? 46)%N then takeWhile isDigit rest else []
            | [] => []
            end in
  match ds, fs with
  | [], [] => NaN
  | _, _ =>
      mk (inject_Z (Z.of_N (digitsValue ds))
          + inject_Z (Z.of_N (digitsValue fs)) / inject_Z (10 ^ Z.of_nat (length fs)))
  end.

End JsNumber.

(* ===================================================================== *)
(** ** Title similarity *)
(* ===================================================================== *)

Module Similarity.
Import JsString JsNumber.

(** [str.toLowerCase().replace(/[^\w\s]/g, '')] *)
Definition normalize (str : jsstring) : jsstring :=
  keep (fun c => isWord c || isSpace c) (toLowerCase str).

(** [normalize(title).split(/\s+/).filter(w => w.length > 2)] *)
Definition wordsOf (title : jsstring) : list jsstring :=
  filter (fun w => 2 <? length w) (split_ws (normalize title)).

(** [word2.includes(word1) || word1.includes(word2)] *)
Definition wordsMatch (word1 word2 : jsstring) : bool :=
  includes word2 word1 || includes word1 word2.

(** The counting loop over [words1]. *)
Fixpoint matchCount (words1 words2 : list jsstring) : nat :=
  match words1 with
  | [] => 0
  | word1 :: rest =>
      (if existsb (wordsMatch word1) words2 then 1 else 0) + matchCount rest words2
  end.

Definition calculateWalmartTitleSimilarity (title1 title2 : jsstring) : number :=
  if negb (truthy title1) || negb (truthy title2) then Finite 0
  else
    let words1 := wordsOf title1 in
    let words2 := wordsOf title2 in
    div (of_nat (matchCount words1 words2))
        (of_nat (Nat.max (length words1) (length words2))).

End Similarity.


(* ===================================================================== *)
(** ** Regular expressions *)
(* ===================================================================== *)

Module Regex.
Import JsString.

(** The fragment of ECMAScript patterns that the source uses.  A match is
    searched by backtracking; [run] lists the ways a pattern can match at the
    current position in the order in which the backtracking matcher tries
    them, so the head of the list is the match JavaScript reports. *)
Inductive regex :=
| Eps                                (* the empty pattern *)
| Chr (p : char -> bool)             (* a literal, an escape or a class *)
| Seq (r1 r2 : regex)
| Alt (r1 r2 : regex)                (* r1|r2 *)
| Star (greedy : bool) (r : regex)   (* r* and r*? *)
| Group (i : nat) (r : regex)        (* the i-th capturing group *)
| Eol.                               (* $ without the m flag *)

Abbreviation captures := (list (nat * jsstring)).

(** What is left of the input, and the groups captured so far. *)
Abbreviation state := (jsstring * captures)%type.

Definition progress (st st' : state) : bool :=
  length (fst st') <? length (fst st).

(** Iterations of a starred pattern; an iteration that consumes nothing is
    rejected, as in ECMAScript.  Every iteration shortens the input, so a
    fuel equal to its length is never exhausted. *)
Fixpoint star_iter (step : state -> list state) (greedy : bool)
         (fuel : nat) (st : state) : list state :=
  match fuel with
  | O => [st]
  | S n =>
      let more :=
        flat_map (star_iter step greedy n) (filter (progress st) (step st)) in
      if greedy then more ++ [st] else st :: more
  end.

Fixpoint run (r : regex) (st : state) : list state :=
  match r with
  | Eps => [st]
  | Chr p =>
      match fst st with
      | c :: s' => if p c then [(s', snd st)] else []
      | [] => []
      end
  | Seq r1 r2 => flat_map (run r2) (run r1 st)
  | Alt r1 r2 => run r1 st ++ run r2 st
  | Star g r1 => star_iter (run r1) g (length (fst st)) st
  | Group i r1 =>
      map (fun st' =>
             (fst st',
              (i, firstn (length (fst st) - length (fst st')) (fst st)) :: snd st'))
          (run r1 st)
  | Eol => match fst st with [] => [st] | _ :: _ => [] end
  end.

(** [s.match(r)] without the g flag: the leftmost position at which the
    pattern matches, and the captures of the first way to match there. *)
Fixpoint exec (r : regex) (s : jsstring) : option captures :=
  match run r (s, []) with
  | st :: _ => Some (snd st)
  | [] =>
      match s with
      | [] => None
      | _ :: s' => exec r s'
      end
  end.

(** [m[i]]: [None] is [undefined], a group that took no part in the match. *)
Fixpoint group (i : nat) (caps : captures) : option jsstring :=
  match caps with
  | [] => None
  | (j, v) :: rest => if Nat.eqb i j then Some v else group i rest
  end.

(** Derived forms. *)
Definition Plus (r : regex) : regex := Seq r (Star true r).       (* r+ *)
Definition Opt (r : regex) : regex := Alt r Eps.                  (* r? *)
Definition Upto2 (r : regex) : regex := Opt (Seq r (Opt r)).      (* r{0,2} *)
Definition OneOrTwo (r : regex) : regex := Seq r (Opt r).         (* r{1,2} *)

Fixpoint seq (rs : list regex) : regex :=
  match rs with
  | [] => Eps
  | [r] => r
  | r :: rs' => Seq r (seq rs')
  end.

Definition the (c : string) : regex := Chr (N.eqb (ch c)).

(** A literal string. *)
Definition Lit (s : string) : regex := seq (map (fun c => Chr (N.eqb c)) (js s)).

(** A literal under the i flag (without the u flag): an ASCII letter matches
    its two cases and no other code unit. *)
Definition foldCase (c : char) : char := if isUpper c then (c + 32)%N else c.
Definition LitI (s : string) : regex :=
  seq (map (fun c => Chr (fun x => N.eqb (foldCase x) (foldCase c))) (js s)).

Definition digit : regex := Chr isDigit.                           (* \d *)
Definition space : regex := Chr isSpace.                           (* \s *)
Definition anyChar : regex := Chr (fun c => negb (isLineTerminator c)).  (* . *)

End Regex.


(* ===================================================================== *)
(** ** Exceptions *)
(* ===================================================================== *)

Module Exn.

Inductive exn := Error (name : string).

(** A computation either returns or throws. *)
Inductive result (A : Type) :=
| Ok (a : A)
| Throw (e : exn).

Arguments Ok {A} a.
Arguments Throw {A} e.

Definition bind {A B} (m : result A) (k : A -> result B) : result B :=
  match m with
  | Ok a => k a
  | Throw e => Throw e
  end.

(** [try { body } catch (error) { handler }] *)
Definition try_catch {A} (body : result A) (handler : exn -> result A)
  : result A :=
  match body with
  | Ok a => Ok a
  | Throw e => handler e
  end.

Definition throws {A} (m : result A) : Prop := exists e, m = Throw e.

End Exn.

Import Exn.

Declare Scope js_scope.
Delimit Scope js_scope with js.
Notation "x <- m ;; k" := (bind m (fun x => k))
  (at level 61, m at next level, right associativity) : js_scope.
Open Scope js_scope.

(* ===================================================================== *)
(** ** The host: DOM queries and URL resolution *)
(* ===================================================================== *)

Module Dom.
Import JsString.

(** CSS selectors, as far as the source writes them. *)
Inductive simple :=
| Tag (name : string)                (* a, img *)
| Cls (name : string)                (* .name *)
| HasAttr (name : string)            (* [name] *)
| AttrEq (name value : string).      (* [name="value"] *)

(** A compound selector is a conjunction of simple ones ([img.absolute]), a
    complex selector a chain of compounds under the descendant combinator
    ([.sans-serif.w_iUH a]), and a selector a comma-separated list. *)
Definition compound := list simple.
Definition complex := list compound.
Definition selector := list complex.

Definition isAttributeBased (c : compound) : bool :=
  forallb (fun x => match x with HasAttr _ | AttrEq _ _ => true | _ => false end) c.

Definition isClassBased (c : compound) : bool :=
  forallb (fun x => match x with Cls _ => true | _ => false end) c.

(** The capabilities the extension's content script gets from the page.
    Each may fail with an exception. *)
Class Host (Element : Type) := {
  (** [document.querySelectorAll(sel)], in document order *)
  document_querySelectorAll : selector -> result (list Element);
  (** [element.querySelector(sel)]: the first matching descendant or null *)
  querySelector : Element -> selector -> result (option Element);
  (** [element.textContent] *)
  textContent : Element -> result (option jsstring);
  (** [element.getAttribute(name)] *)
  getAttribute : Element -> string -> result (option jsstring);
  (** [new URL(relative, window.location.origin).href] *)
  newURL_href : jsstring -> result jsstring
}.

End Dom.

(* ===================================================================== *)
(** ** walmartSearch.ts *)
(* ===================================================================== *)

Module WalmartSearch.
Import JsString JsNumber Regex Dom.

Inductive Marketplace := amazon | walmart | target | homedepot.

Record Ratings := {
  average : option number;
  count : option number
}.

(** The object literal returned by [extractWalmartSearchResult]. *)
Record ProductMatchResult := {
  title : jsstring;
  price : number;
  image : option jsstring;
  url : jsstring;
  marketplace : Marketplace;
  item_id : option jsstring;
  ratings : Ratings
}.

(** [x || fallback] for a string that may be null or undefined. *)
Definition orElse (x : option jsstring) (fallback : jsstring) : jsstring :=
  match x with
  | Some s => if truthy s then s else fallback
  | None => fallback
  end.

(** [x || undefined] *)
Definition orUndefined (x : option jsstring) : option jsstring :=
  match x with
  | Some s => if truthy s then Some s else None
  | None => None
  end.

(** *** Selectors *)

Definition selectors : list selector := [
  [[[HasAttr "data-item-id"]]];
  [[[HasAttr "data-product-id"]]];
  [[[Cls "search-result-gridview-item"]]];
  [[[Cls "product"; Cls "product-search-result"; Cls "search-result-gridview-item"]]];
  [[[Cls "sans-serif"; Cls "relative"; Cls "pb3"; Cls "pt2"; Cls "ph3"; Cls "w-100"]]]
].

Definition sel_title : selector := [
  [[AttrEq "data-automation-id" "product-title"]];
  [[Cls "sans-serif"; Cls "mid-gray"]];
  [[Cls "w_iUH"]];
  [[Cls "lh-title"]]
].

Definition sel_price : selector := [
  [[AttrEq "data-automation-id" "product-price"]];
  [[Cls "b"; Cls "black"; Cls "f1"; Cls "mr1"]];
  [[Cls "w_iUH"]]
].

Definition sel_wholeDollar : selector :=
  [[[Cls "w_C6"; Cls "w_D"; Cls "w_C7"; Cls "w_Da"]]].

Definition sel_cents : selector :=
  [[[Cls "w_C6"; Cls "w_D"; Cls "w_C7"; Cls "w_Db"]]].

Definition sel_link : selector := [
  [[Tag "a"; AttrEq "link-identifier" "linkTest"]];
  [[Tag "a"; Cls "absolute"; Cls "w-100"; Cls "h-100"]];
  [[Cls "sans-serif"; Cls "w_iUH"]; [Tag "a"]]
].

Definition sel_image : selector := [
  [[Tag "img"; AttrEq "data-automation-id" "product-image"]];
  [[Tag "img"; Cls "absolute"]];
  [[Tag "img"; Cls "w_iUF"]]
].

Definition sel_rating : selector := [
  [[Cls "stars-container"]];
  [[AttrEq "data-automation-id" "product-stars"]]
].

Definition sel_reviewCount : selector := [
  [[Cls "stars-reviews-count"]];
  [[AttrEq "data-automation-id" "product-reviews"]]
].

(** Whether every alternative of a strategy is made of attribute tests only,
    or of class tests only. *)
Definition attributeStrategy (s : selector) : bool :=
  forallb (forallb isAttributeBased) s.
Definition classStrategy (s : selector) : bool :=
  forallb (forallb isClassBased) s.

(** *** Patterns *)

(** [/current\s+price\s+\$?(\d+)\.?(\d{0,2})/i] *)
Definition reCurrentPrice : regex :=
  seq [LitI "current"; Plus space; LitI "price"; Plus space; Opt (the "$");
       Group 1 (Plus digit); Opt (the "."); Group 2 (Upto2 digit)].

(** [/\$?(\d+)(?:\.(\d{1,2}))?/] *)
Definition rePrice : regex :=
  seq [Opt (the "$"); Group 1 (Plus digit);
       Opt (Seq (the ".") (Group 2 (OneOrTwo digit)))].

(** [/\/ip\/(?:.*?)\/(\d+)/], [/\/ip\/(\d+)/] and [/\/(\d+)(?:\?|\&|$)/] *)
Definition idPatterns : list regex := [
  seq [Lit "/ip/"; Star false anyChar; the "/"; Group 1 (Plus digit)];
  seq [Lit "/ip/"; Group 1 (Plus digit)];
  seq [the "/"; Group 1 (Plus digit); Alt (the "?") (Alt (the "&") Eol)]
].

(** [/(\d+(?:\.\d+)?)/] *)
Definition reDecimal : regex :=
  Group 1 (Seq (Plus digit) (Opt (Seq (the ".") (Plus digit)))).

(** [/width:?\s*(\d+(?:\.\d+)?)%/] *)
Definition reWidth : regex :=
  seq [Lit "width"; Opt (the ":"); Star true space; reDecimal; the "%"].

(** The pattern of the review count: a capturing group around [\d+(?:,\d+)*],
    a digit run followed by any number of comma-separated digit runs. *)
Definition reCount : regex :=
  Group 1 (Seq (Plus digit) (Star true (Seq (the ",") (Plus digit)))).


Section Operations.

Context {Element : Type} {host : Host Element}.

(** *** findWalmartSearchResultElements *)

(** The [for (const selector of selectors)] loop. *)
Fixpoint firstNonEmpty (sels : list selector) : result (list Element) :=
  match sels with
  | [] => Ok []
  | selector :: rest =>
      results <- document_querySelectorAll selector ;;
      if 0 <? length results then Ok results else firstNonEmpty rest
  end.

Definition findWalmartSearchResultElements : result (list Element) :=
  try_catch (firstNonEmpty selectors) (fun _ => Ok []).

(** *** extractWalmartSearchResult *)

(** [titleElement?.textContent?.trim() || ''] *)
Definition titleOf (element : Element) : result jsstring :=
  titleElement <- querySelector element sel_title ;;
  match titleElement with
  | None => Ok []
  | Some t =>
      text <- textContent t ;;
      Ok (match text with Some s => trim s | None => [] end)
  end.

(** [m[2] ? parseInt(m[2].padEnd(2, '0'), 10) : 0] *)
Definition centsOf (m : captures) : number :=
  match group 2 m with
  | Some c => if truthy c then parseInt (padEnd c 2 (ch "0")) else Finite 0
  | None => Finite 0
  end.

(** [dollars + (cents / 100)] for the two captures of a price pattern. *)
Definition priceOfMatch (m : captures) : number :=
  let dollars := match group 1 m with Some d => parseInt d | None => NaN end in
  let cents := centsOf m in
  add dollars (div cents (Finite 100)).

(** The two text stages: the "current price" pattern when the text contains
    that phrase, the generic pattern otherwise. *)
Definition priceFromText (priceText : jsstring) : option number :=
  if includes priceText (js "current price") then
    match exec reCurrentPrice priceText with
    | Some matches => Some (priceOfMatch matches)
    | None => None
    end
  else
    match exec rePrice priceText with
    | Some priceMatch => Some (priceOfMatch priceMatch)
    | None => None
    end.

(** [price === null || isNaN(price)] *)
Definition missing (price : option number) : bool :=
  match price with
  | None => true
  | Some p => isNaN p
  end.

(** [if (priceElement) { ... }] *)
Definition textPriceOf (element : Element) : result (option number) :=
  priceElement <- querySelector element sel_price ;;
  match priceElement with
  | None => Ok None
  | Some pe =>
      text <- textContent pe ;;
      Ok (priceFromText (orElse text []))
  end.

(** The whole-dollars / cents fallback. *)
Definition splitPriceOf (element : Element) (price : option number)
  : result (option number) :=
  wholeDollarElement <- querySelector element sel_wholeDollar ;;
  centsElement <- querySelector element sel_cents ;;
  match wholeDollarElement, centsElement with
  | Some w, Some c =>
      wtext <- textContent w ;;
      let dollars := orElse (option_map (keep isDigit) wtext) (js "0") in
      ctext <- textContent c ;;
      let cents := orElse (option_map (keep isDigit) ctext) (js "00") in
      Ok (Some (parseFloat (dollars ++ js "." ++ cents)))
  | _, _ => Ok price
  end.

Definition priceOf (element : Element) : result (option number) :=
  price <- textPriceOf element ;;
  if missing price then splitPriceOf element price else Ok price.

(** [relativeUrl ? new URL(relativeUrl, window.location.origin).href : ''] *)
Definition urlOf (element : Element) : result jsstring :=
  linkElement <- querySelector element sel_link ;;
  relativeUrl <- match linkElement with
                 | Some l => href <- getAttribute l "href" ;; Ok (orElse href [])
                 | None => Ok []
                 end ;;
  if truthy relativeUrl then newURL_href relativeUrl else Ok [].

(** The [for (const pattern of idPatterns)] loop with its [break]. *)
Fixpoint firstId (patterns : list regex) (url : jsstring) : option jsstring :=
  match patterns with
  | [] => None
  | pattern :: rest =>
      match exec pattern url with
      | Some m =>
          match group 1 m with
          | Some id => if truthy id then Some id else firstId rest url
          | None => firstId rest url
          end
      | None => firstId rest url
      end
  end.

Definition productIdOf (element : Element) (url : jsstring)
  : result (option jsstring) :=
  if truthy url then
    match firstId idPatterns url with
    | Some id => Ok (Some id)
    | None =>
        itemId <- getAttribute element "data-item-id" ;;
        match orUndefined itemId with
        | Some id => Ok (Some id)
        | None =>
            productId <- getAttribute element "data-product-id" ;;
            Ok (orUndefined productId)
        end
    end
  else Ok None.

Definition imageOf (element : Element) : result (option jsstring) :=
  imgElement <- querySelector element sel_image ;;
  match imgElement with
  | Some img => src <- getAttribute img "src" ;; Ok (orUndefined src)
  | None => Ok None
  end.

(** [(parseFloat(widthMatch[1]) / 100) * 5] *)
Definition ratingOfWidth (styleWidth : jsstring) : option number :=
  match exec reWidth styleWidth with
  | Some widthMatch =>
      match orUndefined (group 1 widthMatch) with
      | Some w => Some (mul (div (parseFloat w) (Finite 100)) (Finite 5))
      | None => None
      end
  | None => None
  end.

Definition ratingOfText (ratingText : jsstring) : option number :=
  match exec reDecimal ratingText with
  | Some ratingMatch =>
      match orUndefined (group 1 ratingMatch) with
      | Some r => Some (parseFloat r)
      | None => None
      end
  | None => None
  end.

(** [styleWidth && styleWidth.includes('width')] *)
Definition hasWidth (styleWidth : option jsstring) : bool :=
  match styleWidth with
  | Some s => truthy s && includes s (js "width")
  | None => false
  end.

Definition ratingOf (element : Element) : result (option number) :=
  ratingElement <- querySelector element sel_rating ;;
  match ratingElement with
  | None => Ok None
  | Some r =>
      styleWidth <- getAttribute r "style" ;;
      if hasWidth styleWidth then Ok (ratingOfWidth (orElse styleWidth []))
      else
        ratingText <- textContent r ;;
        Ok (ratingOfText (orElse ratingText []))
  end.

(** [parseInt(countMatch[1].replace(/,/g, ''), 10)] *)
Definition countOfText (countText : jsstring) : option number :=
  match exec reCount countText with
  | Some countMatch =>
      match orUndefined (group 1 countMatch) with
      | Some c => Some (parseInt (keep (fun x => negb (x =? ch ",")%N) c))
      | None => None
      end
  | None => None
  end.

Definition reviewCountOf (element : Element) : result (option number) :=
  reviewCountElement <- querySelector element sel_reviewCount ;;
  match reviewCountElement with
  | None => Ok None
  | Some r =>
      countText <- textContent r ;;
      Ok (countOfText (orElse countText []))
  end.

(** The body of the [try] block. *)
Definition extractBody (element : Element) : result (option ProductMatchResult) :=
  title <- titleOf element ;;
  if negb (truthy title) then Ok None else
  price <- priceOf element ;;
  match price with
  | None => Ok None
  | Some price =>
      if isNaN price then Ok None else
      url <- urlOf element ;;
      if negb (truthy url) then Ok None else
      productId <- productIdOf element url ;;
      imageUrl <- imageOf element ;;
      rating <- ratingOf element ;;
      reviewCount <- reviewCountOf element ;;
      Ok (Some {| title := title;
                  price := price;
                  image := imageUrl;
                  url := url;
                  marketplace := walmart;
                  item_id := productId;
                  ratings := {| average := rating; count := reviewCount |} |})
  end.

Definition extractWalmartSearchResult (element : Element)
  : result (option ProductMatchResult) :=
  try_catch (extractBody element) (fun _ => Ok None).

(** A field of the record that was returned, if one was. *)
Definition returned {A : Type} (field : ProductMatchResult -> A)
           (r : result (option ProductMatchResult)) : option A :=
  match r with
  | Ok (Some record) => Some (field record)
  | _ => None
  end.

End Operations.

End WalmartSearch.

(* ===================================================================== *)
(** ** A concrete host: documents as trees *)
(* ===================================================================== *)

Module TreeDom.
Import JsString Dom.

Definition attributes := list (string * jsstring).

#[local] Set Warnings "-register-all".

Inductive node :=
| El (tag : string) (attrs : attributes) (children : list node)
| Text (data : jsstring).

#[local] Set Warnings "register-all".

(** Fixtures are written with ASCII literals. *)
Definition attribute (name value : string) : string * jsstring := (name, js value).
Definition text (data : string) : node := Text (js data).

(** An element of the page: its subtree together with the start tags of its
    ancestors, nearest first.  (A selector with a descendant combinator looks
    at ancestors, also at those above the element that was queried.) *)
Record element := {
  ancestors : list (string * attributes);
  self_tag : string;
  self_attrs : attributes;
  self_children : list node
}.

Fixpoint attr (name : string) (attrs : attributes) : option jsstring :=
  match attrs with
  | [] => None
  | (n, v) :: rest => if String.eqb n name then Some v else attr name rest
  end.

(** The class list: the class attribute cut at ASCII white space (tab, line
    feed, form feed, carriage return, space). *)
Definition isAsciiSpace (c : char) : bool :=
  existsb (N.eqb c) [9; 10; 12; 13; 32]%N.

Definition classes (attrs : attributes) : list jsstring :=
  match attr "class" attrs with
  | Some v => filter truthy (splitRuns isAsciiSpace false [] v)
  | None => []
  end.

Definition matchesSimple (tag : string) (attrs : attributes) (s : simple) : bool :=
  match s with
  | Tag n => String.eqb n tag
  | Cls c => existsb (JsString.eqb (js c)) (classes attrs)
  | HasAttr a => match attr a attrs with Some _ => true | None => false end
  | AttrEq a v =>
      match attr a attrs with
      | Some x => JsString.eqb x (js v)
      | None => false
      end
  end.

Definition matchesCompound (c : compound) (ta : string * attributes) : bool :=
  forallb (matchesSimple (fst ta) (snd ta)) c.

(** [outer] lists the compounds that ancestors must match, innermost first. *)
Fixpoint matchesAncestors (outer : list compound)
         (anc : list (string * attributes)) : bool :=
  match anc with
  | [] => match outer with [] => true | _ :: _ => false end
  | a :: anc' =>
      match outer with
      | [] => true
      | c :: outer' =>
          if matchesCompound c a then matchesAncestors outer' anc'
          else matchesAncestors outer anc'
      end
  end.

Definition matchesComplex (e : element) (c : complex) : bool :=
  match rev c with
  | [] => false
  | last :: outer =>
      matchesCompound last (self_tag e, self_attrs e)
      && matchesAncestors outer (ancestors e)
  end.

Definition matchesSelector (sel : selector) (e : element) : bool :=
  existsb (matchesComplex e) sel.

(** The elements of a subtree in document order, the root first. *)
Fixpoint elementsOf (anc : list (string * attributes)) (n : node) : list element :=
  match n with
  | Text _ => []
  | El tag attrs children =>
      {| ancestors := anc; self_tag := tag; self_attrs := attrs;
         self_children := children |}
      :: flat_map (elementsOf ((tag, attrs) :: anc)) children
  end.

Definition descendants (e : element) : list element :=
  flat_map (elementsOf ((self_tag e, self_attrs e) :: ancestors e))
           (self_children e).

Fixpoint textOf (n : node) : jsstring :=
  match n with
  | Text data => data
  | El _ _ children => flat_map textOf children
  end.

(** Characters that the URL parser copies unchanged into a path or query. *)
Definition plainUrlChar (c : char) : bool :=
  isWord c || existsb (N.eqb c) (js "-/?&=.").

(** [new URL(relative, origin).href] for a path-absolute reference made of
    plain characters and without dot segments: the origin followed by the
    reference.  This host refuses every other reference with a TypeError
    (the browser's parser accepts more). *)
Definition resolve (origin relative : jsstring) : result jsstring :=
  if startsWith (js "/") relative
     && negb (startsWith (js "//") relative)
     && forallb plainUrlChar relative
     && negb (includes relative (js "/."))
  then Ok (origin ++ relative)
  else Throw (Error "TypeError").

Record document := {
  origin : jsstring;          (* window.location.origin *)
  root : node                 (* document.documentElement *)
}.

#[export] Instance treeHost (doc : document) : Host element := {
  document_querySelectorAll sel :=
    Ok (filter (matchesSelector sel) (elementsOf [] (root doc)));
  querySelector e sel :=
    Ok (find (matchesSelector sel) (descendants e));
  textContent e := Ok (Some (flat_map textOf (self_children e)));
  getAttribute e name := Ok (attr name (self_attrs e));
  newURL_href relative := resolve (origin doc) relative
}.

End TreeDom.



(* ===================================================================== *)
(** ** Test pages *)
(* ===================================================================== *)

Module Fixtures.
Import JsString JsNumber Dom TreeDom.

Definition walmart_origin : jsstring := js "https://www.walmart.com".

Definition pageOf (cards : list node) : document :=
  {| origin := walmart_origin; root := El "html" [] [El "body" [] cards] |}.

(** A page with one card, and the element of a card that is a child of the
    page body. *)
Definition cardPage (attrs : attributes) (children : list node) : document :=
  pageOf [El "div" attrs children].

Definition cardElement (attrs : attributes) (children : list node) : element :=
  {| ancestors := [("body"%string, []); ("html"%string, [])];
     self_tag := "div"; self_attrs := attrs; self_children := children |}.

(** A child of an element, as a query on that element returns it. *)
Definition childElement (parent : element) (tag : string) (attrs : attributes)
           (children : list node) : element :=
  {| ancestors := (self_tag parent, self_attrs parent) :: ancestors parent;
     self_tag := tag; self_attrs := attrs; self_children := children |}.

Definition titleNode : node :=
  El "span" [attribute "data-automation-id" "product-title"] [text "  Some Title "].

Definition linkNode (href : string) : node :=
  El "a" [attribute "link-identifier" "linkTest"; attribute "href" href] [].

Definition priceNode (priceText : jsstring) : node :=
  El "div" [attribute "data-automation-id" "product-price"] [Text priceText].

(** A card of the current markup and a card of an older markup. *)
Definition newCard : node :=
  El "div" [attribute "data-item-id" "111"]
     [titleNode; priceNode (js "current price $5.5"); linkNode "/ip/Some-Title/123456"].

Definition oldCard : node :=
  El "div" [attribute "class" "search-result-gridview-item"]
     [titleNode; priceNode (js "$7"); linkNode "/ip/222"].

Definition mixedPage : document := pageOf [oldCard; newCard; oldCard].

(** A host in which no capability works, as when the page has been torn
    down under the content script. *)
Definition broken : exn := Error "TypeError".

Definition brokenHost : Host unit := {|
  document_querySelectorAll := fun _ => Throw broken;
  querySelector := fun _ _ => Throw broken;
  textContent := fun _ => Throw broken;
  getAttribute := fun _ _ => Throw broken;
  newURL_href := fun _ => Throw broken
|}.

End Fixtures.

(* ===================================================================== *)
(** ** What the patterns capture, said directly *)
(* ===================================================================== *)

Module Captured.
Import JsString JsNumber Regex WalmartSearch.

Definition notDigit (c : char) : bool := negb (isDigit c).

(** The first run of digits of a text, and what follows it. *)
Definition firstDigitRun (text : jsstring) : jsstring :=
  takeWhile isDigit (dropWhile notDigit text).

Definition afterFirstDigitRun (text : jsstring) : jsstring :=
  dropWhile isDigit (dropWhile notDigit text).

(** The cents that the generic pattern captures after the dollars: one or
    two digits directly after a dot. *)
Definition fractionAfter (rest : jsstring) : option jsstring :=
  match rest with
  | dot :: c1 :: more =>
      if (ch "." =? dot)%N && isDigit c1
      then Some (c1 :: (if startsIn isDigit more then firstn 1 more else []))
      else None
  | _ => None
  end.

(** The captured cents as a number of cents: a single digit counts tens. *)
Definition centsValue (fraction : option jsstring) : N :=
  match fraction with
  | Some f => digitsValue (padEnd f 2 (ch "0"))
  | None => 0%N
  end.

Definition priceCaptures (D rest : jsstring) : captures :=
  match fractionAfter rest with
  | Some f => [(2%nat, f); (1%nat, D)]
  | None => [(1%nat, D)]
  end.

(** What one identifier pattern yields on a URL: its first captured group,
    if the pattern matches and the group is not empty. *)
Definition idBy (pattern : regex) (url : jsstring) : option jsstring :=
  match exec pattern url with
  | Some m => orUndefined (group 1 m)
  | None => None
  end.

Definition idPattern (i : nat) : regex := nth i idPatterns Eps.

End Captured.

(* ===================================================================== *)
(** * Properties *)
(* ===================================================================== *)

Import JsString JsNumber Similarity Regex Dom WalmartSearch TreeDom Fixtures.
Import Captured.

Unset Implicit Arguments.

(** ** Numbers *)

(** *** Rounding *)

Section Rounding.

Local Open Scope Z_scope.

Lemma nearestEven_spec (a b : Z) :
  0 < b ->
  (2 * nearestEven a b - 1) * b <= 2 * a <= (2 * nearestEven a b + 1) * b
  /\ (2 * a = (2 * nearestEven a b + 1) * b -> Z.even (nearestEven a b) = true)
  /\ (2 * a = (2 * nearestEven a b - 1) * b -> Z.even (nearestEven a b) = true).
Proof.
  intros Hb. unfold nearestEven.
  pose proof (Z.div_mod a b ltac:(lia)) as Hdm.
  pose proof (Z.mod_pos_bound a b Hb) as Hm.
  set (k := a / b) in *. set (r := a mod b) in *.
  destruct (Z.compare_spec (2 * r) b) as [E|L|G].
  - destruct (Z.even k) eqn:Ek.
    + split; [nia|]. split; [intros _; exact Ek|intros H; nia].
    + split; [nia|]. assert (Z.even (k + 1) = true) as Ek1.
      { rewrite Z.even_add, Ek. reflexivity. }
      split; [intros H; nia|intros _; exact Ek1].
  - split; [nia|]. split; intros H; nia.
  - split; [nia|]. split; intros H; nia.
Qed.

Lemma nearestEven_mono (a1 b1 a2 b2 : Z) :
  0 < b1 -> 0 < b2 -> a1 * b2 <= a2 * b1 ->
  nearestEven a1 b1 <= nearestEven a2 b2.
Proof.
  intros H1 H2 Hle.
  destruct (nearestEven_spec a1 b1 H1) as ((Hl1 & Hu1) & Ht1 & Ht1').
  destruct (nearestEven_spec a2 b2 H2) as ((Hl2 & Hu2) & Ht2 & Ht2').
  set (k1 := nearestEven a1 b1) in *. set (k2 := nearestEven a2 b2) in *.
  destruct (Z_le_gt_dec k1 k2) as [|Hgt]; [assumption|exfalso].
  assert ((2 * k1 - 1) * (b1 * b2) <= (2 * k2 + 1) * (b1 * b2)) as Hc.
  { apply Z.le_trans with (2 * a1 * b2); [nia|].
    apply Z.le_trans with (2 * a2 * b1); nia. }
  assert (0 < b1 * b2) as Hbb by nia.
  assert (2 * k1 - 1 <= 2 * k2 + 1) as Hk by nia.
  assert (k1 = k2 + 1) as Ek by lia.
  assert (2 * a1 = (2 * k1 - 1) * b1) as E1 by nia.
  assert (2 * a2 = (2 * k2 + 1) * b2) as E2 by nia.
  specialize (Ht1' E1). specialize (Ht2 E2).
  rewrite Ek, Z.even_add, Ht2 in Ht1'. discriminate.
Qed.

Lemma nearestEven_exact (c b : Z) : 0 < b -> nearestEven (c * b) b = c.
Proof.
  intros Hb. unfold nearestEven.
  rewrite Z.mod_mul by lia. rewrite Z.div_mul by lia.
  destruct (Z.compare_spec (2 * 0) b); lia.
Qed.

Lemma nearestEven_nonneg (a b : Z) : 0 <= a -> 0 < b -> 0 <= nearestEven a b.
Proof.
  intros Ha Hb. rewrite <- (nearestEven_exact 0 b Hb).
  apply nearestEven_mono; lia.
Qed.

Lemma lastPlace_nonneg (n d : Z) : 0 <= lastPlace n d.
Proof. unfold lastPlace. lia. Qed.

Lemma div_le_cross (n1 d1 n2 d2 : Z) :
  0 < d1 -> 0 < d2 -> n1 * d2 <= n2 * d1 -> n1 / d1 <= n2 / d2.
Proof.
  intros H1 H2 Hle. apply Z.div_le_lower_bound; [exact H2|].
  pose proof (Z.mul_div_le n1 d1 H1) as Hf.
  assert (d1 * (d2 * (n1 / d1)) <= d1 * n2) as Hc by nia.
  apply Z.mul_le_mono_pos_l in Hc; assumption.
Qed.

Lemma roundZ_mono (n1 d1 n2 d2 : Z) :
  0 <= n1 -> 0 < d1 -> 0 < d2 -> n1 * d2 <= n2 * d1 ->
  roundZ n1 d1 <= roundZ n2 d2.
Proof.
  intros Hn1 H1 H2 Hle. unfold roundZ.
  assert (0 <= n2) as Hn2 by nia.
  pose proof (div_le_cross _ _ _ _ H1 H2 Hle) as Hdiv.
  assert (0 <= n1 / d1) as Hq1 by (apply Z.div_pos; lia).
  pose proof (Z.log2_le_mono _ _ Hdiv) as Hlog.
  set (L1 := Z.log2 (n1 / d1)) in *. set (L2 := Z.log2 (n2 / d2)) in *.
  assert (0 <= L1) as HL1 by apply Z.log2_nonneg.
  unfold lastPlace. fold L1 L2.
  set (u1 := Z.max (L1 - 52) 0). set (u2 := Z.max (L2 - 52) 0).
  assert (0 < 2 ^ u1) as Hp1 by (apply Z.pow_pos_nonneg; lia).
  assert (0 < 2 ^ u2) as Hp2 by (apply Z.pow_pos_nonneg; lia).
  destruct (Z.eq_dec u1 u2) as [E|Hne].
  - rewrite <- E. apply Z.mul_le_mono_nonneg_r; [lia|].
    apply nearestEven_mono; nia.
  - assert (u1 < u2) as Hlt by lia.
    assert (L1 + 1 <= L2 /\ u2 = L2 - 52 /\ 53 <= L2) as (HL & Eu2 & HL2) by lia.
    (* the first value is below 2^(L1+1), the second is at least 2^L2 *)
    assert (n1 < 2 ^ (L1 + 1) * d1) as Hb1.
    { assert (n1 / d1 < 2 ^ (L1 + 1)) as Hf.
      { destruct (Z.eq_dec (n1 / d1) 0) as [E0|N0].
        - rewrite E0. apply Z.pow_pos_nonneg; lia.
        - replace (L1 + 1) with (Z.succ L1) by lia.
          apply Z.log2_spec. lia. }
      pose proof (Z.div_mod n1 d1 ltac:(lia)). pose proof (Z.mod_pos_bound n1 d1 H1).
      nia. }
    assert (2 ^ L2 * d2 <= n2) as Hb2.
    { assert (0 < n2 / d2) as Hpos.
      { destruct (Z.eq_dec (n2 / d2) 0) as [E0|N0]; [|lia].
        exfalso. unfold L2 in HL2. rewrite E0 in HL2. simpl in HL2. lia. }
      pose proof (proj1 (Z.log2_spec _ Hpos)) as Hf. fold L2 in Hf.
      pose proof (Z.div_mod n2 d2 ltac:(lia)). pose proof (Z.mod_pos_bound n2 d2 H2).
      nia. }
    assert (2 ^ (L1 + 1) = 2 ^ (L1 + 1 - u1) * 2 ^ u1) as Epow1.
    { rewrite <- Z.pow_add_r by lia. f_equal. lia. }
    assert (2 ^ L2 = 2 ^ 52 * 2 ^ u2) as Epow2.
    { rewrite <- Z.pow_add_r by lia. f_equal. lia. }
    assert (2 ^ (L1 + 1) <= 2 ^ L2) as Hpow by (apply Z.pow_le_mono_r; lia).
    apply Z.le_trans with (2 ^ (L1 + 1)).
    + rewrite Epow1. apply Z.mul_le_mono_nonneg_r; [lia|].
      rewrite <- (nearestEven_exact (2 ^ (L1 + 1 - u1)) (2 ^ u1) Hp1).
      apply nearestEven_mono; [nia|lia|]. rewrite <- Epow1. nia.
    + apply Z.le_trans with (2 ^ L2); [exact Hpow|].
      rewrite Epow2. apply Z.mul_le_mono_nonneg_r; [lia|].
      rewrite <- (nearestEven_exact (2 ^ 52) (2 ^ u2) Hp2).
      apply nearestEven_mono; [lia|nia|]. rewrite <- Epow2. nia.
Qed.

Lemma roundZ_nonneg (n d : Z) : 0 <= n -> 0 < d -> 0 <= roundZ n d.
Proof.
  intros Hn Hd. unfold roundZ. pose proof (lastPlace_nonneg n d).
  assert (0 < 2 ^ lastPlace n d) by (apply Z.pow_pos_nonneg; lia).
  apply Z.mul_nonneg_nonneg; [|lia]. apply nearestEven_nonneg; nia.
Qed.

(** A value on the grid of its binade is kept. *)
Lemma roundZ_exact (n d c : Z) :
  0 < d -> n = c * (d * 2 ^ lastPlace n d) -> roundZ n d * d = n.
Proof.
  intros Hd. unfold roundZ. pose proof (lastPlace_nonneg n d) as Hu.
  generalize dependent (lastPlace n d). intros u Hu E.
  assert (0 < 2 ^ u) by (apply Z.pow_pos_nonneg; lia).
  rewrite E at 1. rewrite nearestEven_exact by nia. rewrite E. ring.
Qed.

Lemma roundZ_zero (d : Z) : 0 < d -> roundZ 0 d = 0.
Proof.
  intros Hd. pose proof (roundZ_exact 0 d 0 Hd eq_refl). nia.
Qed.

End Rounding.

Lemma Qred_num_nonneg (q : Q) : 0 <= q -> (0 <= Qnum (Qred q))%Z.
Proof.
  intros H. rewrite <- (Qred_correct q) in H. unfold Qle in H. simpl in H. lia.
Qed.

(** The value of [round64] on a non-negative rational. *)
Lemma round64_value (q : Q) :
  0 <= q ->
  round64 q == roundZ (Qnum (Qred q) * 2 ^ 1074) (Zpos (Qden (Qred q))) # 2 ^ 1074.
Proof.
  intros H. unfold round64. rewrite Qred_correct.
  pose proof (Qred_num_nonneg q H) as Hn.
  destruct (Z.eq_dec (Qnum (Qred q)) 0) as [E|N].
  - rewrite E. simpl Z.sgn. simpl Z.abs. rewrite Z.mul_0_l.
    rewrite roundZ_zero by reflexivity. reflexivity.
  - rewrite Z.sgn_pos by lia. rewrite Z.abs_eq by lia. rewrite Z.mul_1_l.
    reflexivity.
Qed.

Lemma round64_compat (q1 q2 : Q) : q1 == q2 -> round64 q1 = round64 q2.
Proof. intros H. unfold round64. now rewrite (Qred_complete _ _ H). Qed.

Lemma round64_nonneg (q : Q) : 0 <= q -> 0 <= round64 q.
Proof.
  intros H. rewrite (round64_value q H). unfold Qle. simpl.
  rewrite Z.mul_1_r. apply roundZ_nonneg; [|reflexivity].
  pose proof (Qred_num_nonneg q H). lia.
Qed.

Lemma round64_mono (q1 q2 : Q) :
  0 <= q1 -> q1 <= q2 -> round64 q1 <= round64 q2.
Proof.
  intros H1 Hle. assert (0 <= q2) as H2 by (eapply Qle_trans; eassumption).
  rewrite (round64_value q1 H1), (round64_value q2 H2).
  unfold Qle. cbn [Qnum Qden].
  apply Z.mul_le_mono_nonneg_r; [lia|].
  pose proof (Qred_num_nonneg q1 H1). 
  apply roundZ_mono; [lia|reflexivity|reflexivity|].
  rewrite <- (Qred_correct q1), <- (Qred_correct q2) in Hle.
  unfold Qle in Hle. nia.
Qed.

Lemma Qred_integer (z : Z) : Qred (inject_Z z) = inject_Z z.
Proof.
  unfold Qred, inject_Z.
  pose proof (Z.ggcd_gcd z 1) as Hg.
  pose proof (Z.ggcd_correct_divisors z 1) as Hd.
  destruct (Z.ggcd z 1) as [g [a b]]. simpl in Hg. rewrite Z.gcd_1_r in Hg.
  subst g. destruct Hd as [Ha Hb]. rewrite Z.mul_1_l in Ha, Hb.
  now subst a b.
Qed.

Lemma Qred_integer_value (q : Q) (z : Z) : q == inject_Z z -> Qred q = inject_Z z.
Proof. intros H. rewrite (Qred_complete _ _ H). apply Qred_integer. Qed.

(** The integers up to 2^53 are doubles. *)
Lemma round64_integer (z : Z) :
  (0 <= z <= 2 ^ 53)%Z -> round64 (inject_Z z) = inject_Z z.
Proof.
  intros Hz. unfold round64. rewrite Qred_integer. cbn [Qnum Qden inject_Z].
  apply Qred_integer_value.
  destruct (Z.eq_dec z 0) as [->|N]; [reflexivity|].
  rewrite Z.sgn_pos, Z.abs_eq, Z.mul_1_l by lia.
  set (u := lastPlace (z * 2 ^ 1074) 1).
  assert (roundZ (z * 2 ^ 1074) 1 * 1 = z * 2 ^ 1074)%Z as E.
  { assert (0 <= u <= 1075)%Z as Hu.
    { unfold u, lastPlace. rewrite Z.div_1_r.
      assert (Z.log2 (z * 2 ^ 1074) = Z.log2 z + 1074)%Z as ->.
      { rewrite <- Z.shiftl_mul_pow2 by lia. apply Z.log2_shiftl; lia. }
      assert (Z.log2 z <= 53)%Z.
      { change 53%Z with (Z.log2 (2 ^ 53)). apply Z.log2_le_mono. lia. }
      pose proof (Z.log2_nonneg z). lia. }
    destruct (Z.eq_dec u 1075) as [E75|N75].
    - (* only 2^53 itself *)
      assert (z = 2 ^ 53)%Z as ->.
      { unfold u, lastPlace in E75. rewrite Z.div_1_r in E75.
        assert (Z.log2 (z * 2 ^ 1074) = Z.log2 z + 1074)%Z as El.
        { rewrite <- Z.shiftl_mul_pow2 by lia. apply Z.log2_shiftl; lia. }
        rewrite El in E75. assert (Z.log2 z = 53)%Z as E53 by lia.
        pose proof (proj1 (Z.log2_spec z ltac:(lia))) as Hs. rewrite E53 in Hs. lia. }
      apply (roundZ_exact _ 1 (2 ^ 52)); [reflexivity|]. fold u. rewrite E75.
      rewrite Z.mul_1_l, <- !Z.pow_add_r by lia. reflexivity.
    - apply (roundZ_exact _ 1 (z * 2 ^ (1074 - u))); [reflexivity|]. fold u.
      rewrite Z.mul_1_l, <- Z.mul_assoc, <- Z.pow_add_r by lia.
      do 2 f_equal. lia. }
  rewrite Z.mul_1_r in E. rewrite E. unfold Qeq. cbn [Qnum Qden inject_Z].
  change (Z.pos (2 ^ 1074)) with (2 ^ 1074)%Z. ring.
Qed.

(** Rounding an integer gives an integer. *)
Lemma round64_integral (z : Z) :
  (0 <= z)%Z -> exists z', (0 <= z')%Z /\ round64 (inject_Z z) = inject_Z z'.
Proof.
  intros Hz. destruct (Z_le_gt_dec z (2 ^ 53)) as [Hs|Hl].
  - exists z. split; [exact Hz|]. apply round64_integer. lia.
  - unfold round64. rewrite Qred_integer. cbn [Qnum Qden inject_Z].
    rewrite Z.sgn_pos, Z.abs_eq, Z.mul_1_l by lia.
    unfold roundZ. set (u := lastPlace (z * 2 ^ 1074) 1).
    assert (1074 <= u)%Z as Hu.
    { unfold u, lastPlace. rewrite Z.div_1_r.
      assert (Z.log2 (z * 2 ^ 1074) = Z.log2 z + 1074)%Z as ->.
      { rewrite <- Z.shiftl_mul_pow2 by lia. apply Z.log2_shiftl; lia. }
      assert (53 <= Z.log2 z)%Z.
      { change 53%Z with (Z.log2 (2 ^ 53)). apply Z.log2_le_mono. lia. }
      lia. }
    set (k := nearestEven (z * 2 ^ 1074) (1 * 2 ^ u)).
    assert (0 <= k)%Z as Hk.
    { apply nearestEven_nonneg; [|rewrite Z.mul_1_l; apply Z.pow_pos_nonneg; lia].
      apply Z.mul_nonneg_nonneg; [lia|]. apply Z.pow_nonneg. lia. }
    exists (k * 2 ^ (u - 1074))%Z. split.
    + apply Z.mul_nonneg_nonneg; [exact Hk|]. apply Z.pow_nonneg. lia.
    + apply Qred_integer_value. unfold Qeq. cbn [Qnum Qden inject_Z].
      change (Z.pos (2 ^ 1074)) with (2 ^ 1074)%Z.
      replace u with ((u - 1074) + 1074)%Z at 1 by lia.
      rewrite Z.pow_add_r by lia. ring.
Qed.

(** Some doubles: 0.1; 2^53 + 1 and 2^53 + 3, halfway between two doubles;
    half the least positive double and three halves of it. *)
Lemma round64_examples :
  round64 (1 # 10) = 3602879701896397 # 36028797018963968
  /\ round64 (inject_Z 9007199254740993) = inject_Z 9007199254740992
  /\ round64 (inject_Z 9007199254740995) = inject_Z 9007199254740996
  /\ round64 (1 # 2 ^ 1075) = 0
  /\ round64 (3 # 2 ^ 1075) = 1 # 2 ^ 1073.
Proof. repeat split; vm_compute; reflexivity. Qed.

(** The length of an array is held as it is. *)
Lemma of_nat_length (n : nat) :
  (Z.of_nat n <= maxLength)%Z -> of_nat n = Finite (inject_Z (Z.of_nat n)).
Proof. intros H. unfold of_nat. now rewrite Z.min_l. Qed.

Lemma overflow_large : (10 ^ 301 < overflow)%Z.
Proof. reflexivity. Qed.

#[global] Opaque overflow.

Lemma mk_below (q : Q) :
  q < inject_Z overflow -> mk q = Finite (round64 q).
Proof.
  intros H. unfold mk.
  destruct (Qle_bool (inject_Z overflow) q) eqn:E; [|reflexivity].
  apply Qle_bool_iff in E. exfalso. exact (Qlt_not_le _ _ H E).
Qed.

Lemma mk_above (q : Q) :
  inject_Z overflow <= q -> mk q = Infinity.
Proof.
  intros H. unfold mk. apply Qle_bool_iff in H. now rewrite H.
Qed.

Lemma mk_not_NaN (q : Q) : isNaN (mk q) = false.
Proof. unfold mk. now destruct (Qle_bool _ _). Qed.

Lemma small_below (q : Q) : q <= inject_Z (10 ^ 301) -> q < inject_Z overflow.
Proof.
  intros H. eapply Qle_lt_trans; [exact H|].
  rewrite <- Zlt_Qlt. exact overflow_large.
Qed.

Lemma round64_one : round64 1 = 1.
Proof. apply (round64_integer 1). split; [lia|]. apply Z.pow_le_mono_r with (b := 0%Z); lia. Qed.

Lemma round64_zero : round64 0 = 0.
Proof. apply (round64_integer 0). split; [lia|]. apply Z.pow_nonneg. lia. Qed.

(** Rounding keeps a value between 0 and 1 there. *)
Lemma round64_unit (q : Q) : 0 <= q -> q <= 1 -> 0 <= round64 q /\ round64 q <= 1.
Proof.
  intros H0 H1. split; [now apply round64_nonneg|].
  rewrite <- round64_one. now apply round64_mono.
Qed.

(** From 64 on, doubles are multiples of 2^-46. *)
Lemma round64_grid (v : Q) :
  64 <= v -> exists m : Z, round64 v == m # 2 ^ 46.
Proof.
  intros Hv. assert (0 <= v) as H0 by (eapply Qle_trans; [|exact Hv]; discriminate).
  pose proof (round64_value v H0) as Hval.
  pose proof (Qred_num_nonneg v H0) as Hn.
  rewrite <- (Qred_correct v) in Hv.
  set (n := Qnum (Qred v)) in *. set (d := Qden (Qred v)) in *.
  assert (64 * Z.pos d <= n)%Z as Hnd.
  { unfold Qle in Hv. cbn [Qnum Qden] in Hv. fold n d in Hv. lia. }
  unfold roundZ in Hval. set (u := lastPlace (n * 2 ^ 1074) (Z.pos d)) in *.
  assert (1028 <= u)%Z as Hu.
  { unfold u, lastPlace.
    assert (2 ^ 1080 <= n * 2 ^ 1074 / Z.pos d)%Z as Hdiv.
    { apply Z.div_le_lower_bound; [reflexivity|].
      replace (2 ^ 1080)%Z with (64 * 2 ^ 1074)%Z by reflexivity.
      assert (0 < 2 ^ 1074)%Z by (apply Z.pow_pos_nonneg; lia). nia. }
    apply Z.log2_le_mono in Hdiv. rewrite Z.log2_pow2 in Hdiv by lia. lia. }
  exists (nearestEven (n * 2 ^ 1074) (Z.pos d * 2 ^ u) * 2 ^ (u - 1028))%Z.
  rewrite Hval. unfold Qeq. cbn [Qnum Qden].
  change (Z.pos (2 ^ 1074)) with (2 ^ 1028 * 2 ^ 46)%Z.
  change (Z.pos (2 ^ 46)) with (2 ^ 46)%Z.
  replace u with ((u - 1028) + 1028)%Z at 2 by lia.
  rewrite Z.pow_add_r by lia. ring.
Qed.

Lemma round64_64 : round64 64 = 64.
Proof. apply (round64_integer 64). split; [lia|]. vm_compute. discriminate. Qed.

(** The double after 100 is 100 + 2^-46. *)
Lemma round64_above_100 (v : Q) :
  0 <= v -> 100 < round64 v -> 100 + (1 # 2 ^ 46) <= round64 v.
Proof.
  intros H0 Hgt.
  assert (64 <= v) as Hv.
  { apply Qnot_lt_le. intros Hlt.
    pose proof (round64_mono v 64 H0 (Qlt_le_weak _ _ Hlt)) as Hm.
    rewrite round64_64 in Hm.
    apply (Qlt_irrefl 100). eapply Qlt_le_trans; [exact Hgt|].
    eapply Qle_trans; [exact Hm|]. discriminate. }
  destruct (round64_grid v Hv) as [m Hm]. rewrite Hm in *.
  unfold Qlt in Hgt. unfold Qle, Qplus. cbn [Qnum Qden] in *.
  change (Z.pos (2 ^ 46)) with (2 ^ 46)%Z in *.
  change (Z.pos (1 * 2 ^ 46)) with (2 ^ 46)%Z.
  assert (0 < 2 ^ 46)%Z by reflexivity. nia.
Qed.

(** A count as a rational. *)
Lemma count_bounds (n : nat) :
  (0 <= Z.min (Z.of_nat n) maxLength <= maxLength)%Z
  /\ ((0 < n)%nat -> (0 < Z.min (Z.of_nat n) maxLength)%Z).
Proof. unfold maxLength. split; [|intros H]; lia. Qed.

Lemma count_le (m n : nat) :
  (m <= n)%nat ->
  (Z.min (Z.of_nat m) maxLength <= Z.min (Z.of_nat n) maxLength)%Z.
Proof. lia. Qed.

(** ** Title similarity *)

Section SimilarityFacts.

Lemma wordsMatch_sym (w1 w2 : jsstring) : wordsMatch w1 w2 = wordsMatch w2 w1.
Proof. unfold wordsMatch. apply orb_comm. Qed.

Lemma matchCount_le (words1 words2 : list jsstring) :
  (matchCount words1 words2 <= length words1)%nat.
Proof.
  induction words1 as [|w rest IH]; simpl; [lia|].
  destruct (existsb _ _); lia.
Qed.

(** The count is zero exactly when no word of the first list matches a word
    of the second. *)
Lemma matchCount_zero (words1 words2 : list jsstring) :
  matchCount words1 words2 = 0%nat <->
  forall w1 w2, In w1 words1 -> In w2 words2 -> wordsMatch w1 w2 = false.
Proof.
  induction words1 as [|w rest IH]; simpl.
  - split; [intros _ ? ? []|reflexivity].
  - destruct (existsb (wordsMatch w) words2) eqn:E.
    + split; [discriminate|]. intros H. exfalso.
      apply existsb_exists in E. destruct E as (w2 & Hin & Hm).
      rewrite (H w w2) in Hm; [discriminate|now left|exact Hin].
    + simpl. rewrite IH. split.
      * intros H w1 w2 [<-|Hin1] Hin2; [|now apply H].
        destruct (wordsMatch w w2) eqn:Em; [|reflexivity].
        assert (existsb (wordsMatch w) words2 = true) as Hex
          by (apply existsb_exists; eauto).
        congruence.
      * intros H w1 w2 Hin1 Hin2. apply H; [now right|exact Hin2].
Qed.

Lemma matchCount_zero_swap (words1 words2 : list jsstring) :
  matchCount words1 words2 = 0%nat <-> matchCount words2 words1 = 0%nat.
Proof.
  rewrite !matchCount_zero. split; intros H w1 w2 H1 H2;
    rewrite wordsMatch_sym; now apply H.
Qed.

Lemma div_counts (m n : nat) :
  (m <= n)%nat -> (0 < n)%nat ->
  JsNumber.div (of_nat m) (of_nat n)
  = Finite (round64 (inject_Z (Z.min (Z.of_nat m) maxLength)
                     / inject_Z (Z.min (Z.of_nat n) maxLength))).
Proof.
  intros Hle Hpos. unfold JsNumber.div, of_nat, isZero.
  destruct (count_bounds n) as [_ Hn]. specialize (Hn Hpos).
  destruct (count_bounds m) as [Hm _]. pose proof (count_le m n Hle) as Hmn.
  destruct (Qeq_bool (inject_Z (Z.min (Z.of_nat n) maxLength)) 0) eqn:E.
  - apply Qeq_bool_iff in E. unfold Qeq in E. simpl in E. lia.
  - apply mk_below, small_below.
    apply Qle_trans with 1; [|discriminate].
    apply Qle_shift_div_r.
    + change 0 with (inject_Z 0). rewrite <- Zlt_Qlt. exact Hn.
    + rewrite Qmult_1_l. rewrite <- Zle_Qle. exact Hmn.
Qed.

(** The quotient of two counts, the first at most the second. *)
Lemma counts_quotient (m n : nat) :
  (m <= n)%nat -> (0 < n)%nat ->
  0 <= inject_Z (Z.min (Z.of_nat m) maxLength)
       / inject_Z (Z.min (Z.of_nat n) maxLength)
  /\ inject_Z (Z.min (Z.of_nat m) maxLength)
       / inject_Z (Z.min (Z.of_nat n) maxLength) <= 1.
Proof.
  intros Hle Hpos.
  destruct (count_bounds n) as [_ Hn]. specialize (Hn Hpos).
  destruct (count_bounds m) as [Hm _]. pose proof (count_le m n Hle) as Hmn.
  split.
  - apply Qle_shift_div_l.
    + change 0 with (inject_Z 0). rewrite <- Zlt_Qlt. exact Hn.
    + rewrite Qmult_0_l. change 0 with (inject_Z 0). rewrite <- Zle_Qle. lia.
  - apply Qle_shift_div_r.
    + change 0 with (inject_Z 0). rewrite <- Zlt_Qlt. exact Hn.
    + rewrite Qmult_1_l. rewrite <- Zle_Qle. exact Hmn.
Qed.

(** With at least one word longer than two characters in one of the titles,
    the score is a number between 0 and 1. *)
Lemma similarity_in_range (title1 title2 : jsstring) :
  (0 < Nat.max (length (wordsOf title1)) (length (wordsOf title2)))%nat ->
  inRange 0 1 (calculateWalmartTitleSimilarity title1 title2) = true.
Proof.
  intros Hpos. unfold calculateWalmartTitleSimilarity.
  destruct (negb (truthy title1) || negb (truthy title2)); [reflexivity|].
  cbv zeta.
  assert (matchCount (wordsOf title1) (wordsOf title2)
          <= Nat.max (length (wordsOf title1)) (length (wordsOf title2)))%nat as Hle
    by (pose proof (matchCount_le (wordsOf title1) (wordsOf title2)); lia).
  rewrite div_counts; [|exact Hle|exact Hpos].
  destruct (counts_quotient _ _ Hle Hpos) as [H0 H1].
  destruct (round64_unit _ H0 H1) as [Hr0 Hr1].
  unfold inRange. apply andb_true_iff. split; apply Qle_bool_iff; assumption.
Qed.

Lemma similarity_empty (title1 title2 : jsstring) :
  title1 = [] \/ title2 = [] ->
  calculateWalmartTitleSimilarity title1 title2 = Finite 0.
Proof.
  unfold calculateWalmartTitleSimilarity.
  intros [-> | ->]; simpl; [reflexivity|].
  now rewrite orb_true_r.
Qed.

(** Two non-empty titles without any word longer than two characters give
    0 / 0. *)
Lemma similarity_degenerate (title1 title2 : jsstring) :
  truthy title1 = true -> truthy title2 = true ->
  wordsOf title1 = [] -> wordsOf title2 = [] ->
  calculateWalmartTitleSimilarity title1 title2 = NaN.
Proof.
  intros H1 H2 W1 W2. unfold calculateWalmartTitleSimilarity.
  rewrite H1, H2, W1, W2. reflexivity.
Qed.

End SimilarityFacts.

(** C1 (the code departs from its documented range).  The documentation of
    [calculateWalmartTitleSimilarity] promises a score between 0 and 1.  For
    the non-empty titles "a" and "b" no word survives the length filter, the
    function divides 0 by [Math.max(0, 0)] and returns NaN, which is outside
    [0,1]. *)
Theorem C1_similarity_NaN_without_long_words :
  calculateWalmartTitleSimilarity (js "a") (js "b") = NaN
  /\ inRange 0 1 (calculateWalmartTitleSimilarity (js "a") (js "b")) = false
  /\ (forall title, calculateWalmartTitleSimilarity [] title = Finite 0
                    /\ calculateWalmartTitleSimilarity title [] = Finite 0).
Proof.
  split; [reflexivity|]. split; [reflexivity|].
  intros title. split; apply similarity_empty; auto.
Qed.

(** C2, as stated, fails: the score is not symmetric.  With
    a = "apple apples" and b = "apple banana", both words of a match a word
    of b (score 2/2), but only one word of b matches a word of a (score
    1/2). *)
Lemma C2_similarity_not_symmetric :
  ~ (forall a b : jsstring,
        strictEq (calculateWalmartTitleSimilarity a b)
                 (calculateWalmartTitleSimilarity b a) = true).
Proof.
  intros H. specialize (H (js "apple apples") (js "apple banana")).
  vm_compute in H. discriminate.
Qed.

(** C2, amended.  The two scores share their denominator and the word test
    is symmetric, so one score is computed from a zero count exactly when the
    other is, and the two calls return the same value whenever the number of
    words of a that match a word of b equals the number of words of b that
    match a word of a; the values then also compare equal with [==], unless
    neither title has a word longer than two characters (both are NaN). *)
Theorem C2_similarity_swap (a b : jsstring) :
  (matchCount (wordsOf a) (wordsOf b) = 0%nat
   <-> matchCount (wordsOf b) (wordsOf a) = 0%nat)
  /\ (matchCount (wordsOf a) (wordsOf b) = matchCount (wordsOf b) (wordsOf a) ->
      calculateWalmartTitleSimilarity a b = calculateWalmartTitleSimilarity b a)
  /\ (matchCount (wordsOf a) (wordsOf b) = matchCount (wordsOf b) (wordsOf a) ->
      (0 < Nat.max (length (wordsOf a)) (length (wordsOf b)))%nat ->
      strictEq (calculateWalmartTitleSimilarity a b)
               (calculateWalmartTitleSimilarity b a) = true).
Proof.
  assert (matchCount (wordsOf a) (wordsOf b) = matchCount (wordsOf b) (wordsOf a) ->
          calculateWalmartTitleSimilarity a b = calculateWalmartTitleSimilarity b a)
    as Hsame.
  { intros Heq. unfold calculateWalmartTitleSimilarity.
    rewrite (orb_comm (negb (truthy a))).
    destruct (negb (truthy b) || negb (truthy a)); [reflexivity|].
    cbv zeta. now rewrite Heq, Nat.max_comm. }
  split; [apply matchCount_zero_swap|]. split; [exact Hsame|].
  intros Heq Hpos. rewrite <- (Hsame Heq).
  pose proof (similarity_in_range a b Hpos) as Hrange.
  destruct (calculateWalmartTitleSimilarity a b) as [| |q]; try discriminate.
  apply Qeq_bool_iff. reflexivity.
Qed.

(** Both directions count two matching words for these titles. *)
Lemma C2_similarity_swap_witness :
  calculateWalmartTitleSimilarity (js "Apple iPhone 13 Case") (js "case for iphone")
  = calculateWalmartTitleSimilarity (js "case for iphone") (js "Apple iPhone 13 Case")
  /\ strictEq
       (calculateWalmartTitleSimilarity (js "Apple iPhone 13 Case") (js "case for iphone"))
       (calculateWalmartTitleSimilarity (js "case for iphone") (js "Apple iPhone 13 Case"))
     = true.
Proof.
  pose proof (C2_similarity_swap (js "Apple iPhone 13 Case") (js "case for iphone"))
    as (_ & Hsame & Heq).
  split.
  - apply Hsame. vm_compute. reflexivity.
  - apply Heq; [vm_compute; reflexivity|vm_compute; lia].
Defined.

(** ** The element locator *)

Section Locator.

Context {Element : Type} {host : Host Element}.

Lemma nonempty_length (A : Type) (l : list A) :
  l <> [] -> (0 <? length l) = true.
Proof. destruct l; [congruence|reflexivity]. Qed.

(** Strategies that find nothing are skipped. *)
Lemma firstNonEmpty_skip (before rest : list selector) :
  (forall s, In s before -> document_querySelectorAll s = Ok []) ->
  firstNonEmpty (before ++ rest) = firstNonEmpty rest.
Proof.
  induction before as [|s before IH]; intros Hempty; [reflexivity|].
  simpl. rewrite (Hempty s) by now left. simpl.
  apply IH. intros s' Hin. apply Hempty. now right.
Qed.

Lemma firstNonEmpty_hit (sel : selector) (rest : list selector)
      (results : list Element) :
  document_querySelectorAll sel = Ok results -> results <> [] ->
  firstNonEmpty (sel :: rest) = Ok results.
Proof.
  intros Hq Hne. simpl. rewrite Hq. simpl.
  now rewrite (nonempty_length _ _ Hne).
Qed.

Lemma find_never_throws :
  exists elements, findWalmartSearchResultElements = Ok elements.
Proof.
  unfold findWalmartSearchResultElements, try_catch.
  destruct (firstNonEmpty selectors); eauto.
Qed.

End Locator.

(** C5.  The strategies are tried in the order of the list, the two
    attribute-based ones before the three class-based ones.  The result is
    exactly what the first strategy with at least one match returns, whatever
    the later strategies would find (they are not even queried), and the
    empty sequence when every strategy finds nothing. *)
Theorem C5_first_nonempty_strategy_wins
        {Element : Type} {host : Host Element} :
  map attributeStrategy selectors = [true; true; false; false; false]
  /\ map classStrategy selectors = [false; false; true; true; true]
  /\ (forall before sel after results,
         selectors = before ++ sel :: after ->
         (forall s, In s before -> document_querySelectorAll s = Ok []) ->
         document_querySelectorAll sel = Ok results ->
         results <> [] ->
         findWalmartSearchResultElements = Ok results)
  /\ ((forall s, In s selectors -> document_querySelectorAll s = Ok []) ->
      findWalmartSearchResultElements = Ok []).
Proof.
  split; [reflexivity|]. split; [reflexivity|]. split.
  - intros before sel after results Hsplit Hempty Hq Hne.
    unfold findWalmartSearchResultElements. rewrite Hsplit.
    rewrite firstNonEmpty_skip by exact Hempty.
    rewrite (firstNonEmpty_hit sel after results Hq Hne). reflexivity.
  - intros Hempty. unfold findWalmartSearchResultElements.
    rewrite <- (app_nil_r selectors).
    rewrite firstNonEmpty_skip by exact Hempty. reflexivity.
Qed.

(** On a page with one card of the current markup between two cards of the
    older markup, only the card with the data attribute is returned. *)
Lemma C5_first_nonempty_strategy_wins_witness :
  let host := treeHost mixedPage in
  (exists others, others <> []
     /\ document_querySelectorAll [[[Cls "search-result-gridview-item"]]] = Ok others)
  /\ findWalmartSearchResultElements
     = Ok [cardElement [attribute "data-item-id" "111"]
             [titleNode; priceNode (js "current price $5.5");
              linkNode "/ip/Some-Title/123456"]].
Proof.
  intros host. split.
  - eexists. split; [|reflexivity]. discriminate.
  - apply (proj1 (proj2 (proj2 (@C5_first_nonempty_strategy_wins _ host)))
             [] [[[HasAttr "data-item-id"]]] (tl selectors)).
    + reflexivity.
    + intros s [].
    + vm_compute. reflexivity.
    + discriminate.
Defined.

(** ** Errors *)

Section Errors.

Context {Element : Type} {host : Host Element}.

Lemma extract_never_throws (element : Element) :
  exists r, extractWalmartSearchResult element = Ok r.
Proof.
  unfold extractWalmartSearchResult, try_catch.
  destruct (extractBody element); eauto.
Qed.

End Errors.

(** C6.  Whatever the host does, the two operations return: the locator
    returns a sequence, which is empty when a query threw, and the extractor
    returns a record or null, and null when anything inside it threw. *)
Theorem C6_no_error_escapes {Element : Type} {host : Host Element} :
  (exists elements, findWalmartSearchResultElements = Ok elements)
  /\ (throws (firstNonEmpty selectors) -> findWalmartSearchResultElements = Ok [])
  /\ (forall element : Element,
         (exists r, extractWalmartSearchResult element = Ok r)
         /\ (throws (extractBody element) ->
             extractWalmartSearchResult element = Ok None)).
Proof.
  split; [apply find_never_throws|]. split.
  - intros [e He]. unfold findWalmartSearchResultElements. now rewrite He.
  - intros element. split; [apply extract_never_throws|].
    intros [e He]. unfold extractWalmartSearchResult. now rewrite He.
Qed.

(** With a host that throws on every call, both operations still return. *)
Lemma C6_no_error_escapes_witness :
  @findWalmartSearchResultElements _ brokenHost = Ok []
  /\ @extractWalmartSearchResult _ brokenHost tt = Ok None.
Proof.
  pose proof (@C6_no_error_escapes _ brokenHost) as (_ & Hfind & Hextract).
  split.
  - apply Hfind. exists broken. reflexivity.
  - apply (proj2 (Hextract tt)). exists broken. reflexivity.
Defined.

(** ** The result extractor *)

Section Extractor.

Context {Element : Type} {host : Host Element}.

Lemma truthy_nonempty (s : jsstring) : truthy s = true <-> s <> [].
Proof. destruct s; simpl; split; congruence. Qed.

Lemma extract_of_body (element : Element) (r : option ProductMatchResult) :
  extractBody element = Ok r -> extractWalmartSearchResult element = Ok r.
Proof. unfold extractWalmartSearchResult. now intros ->. Qed.

Lemma body_of_extract (element : Element) (r : ProductMatchResult) :
  extractWalmartSearchResult element = Ok (Some r) ->
  extractBody element = Ok (Some r).
Proof.
  unfold extractWalmartSearchResult, try_catch.
  destruct (extractBody element); [auto|discriminate].
Qed.

(** A record is built from the fields as they were resolved, in this order. *)
Lemma extractBody_record (element : Element) (r : ProductMatchResult) :
  extractBody element = Ok (Some r) ->
  titleOf element = Ok (title r) /\ truthy (title r) = true
  /\ priceOf element = Ok (Some (price r)) /\ isNaN (price r) = false
  /\ urlOf element = Ok (url r) /\ truthy (url r) = true
  /\ productIdOf element (url r) = Ok (item_id r)
  /\ imageOf element = Ok (image r)
  /\ ratingOf element = Ok (average (ratings r))
  /\ reviewCountOf element = Ok (count (ratings r))
  /\ marketplace r = walmart.
Proof.
  unfold extractBody.
  destruct (titleOf element) as [t|]; simpl; [|discriminate].
  destruct (truthy t) eqn:Ht; simpl; [|discriminate].
  destruct (priceOf element) as [[p|]|]; simpl; try discriminate.
  destruct (isNaN p) eqn:Hp; [discriminate|].
  destruct (urlOf element) as [u|]; simpl; [|discriminate].
  destruct (truthy u) eqn:Hu; simpl; [|discriminate].
  destruct (productIdOf element u) as [pid|] eqn:Hid; simpl; [|discriminate].
  destruct (imageOf element) as [img|]; simpl; [|discriminate].
  destruct (ratingOf element) as [rating|]; simpl; [|discriminate].
  destruct (reviewCountOf element) as [cnt|]; simpl; [|discriminate].
  intros [= <-]. simpl. rewrite Hid. repeat split; assumption.
Qed.

Lemma extractBody_build (element : Element) (t u : jsstring) (p : number)
      (pid img : option jsstring) (rating cnt : option number) :
  titleOf element = Ok t -> truthy t = true ->
  priceOf element = Ok (Some p) -> isNaN p = false ->
  urlOf element = Ok u -> truthy u = true ->
  productIdOf element u = Ok pid ->
  imageOf element = Ok img ->
  ratingOf element = Ok rating ->
  reviewCountOf element = Ok cnt ->
  extractBody element
  = Ok (Some {| title := t; price := p; image := img; url := u;
                marketplace := walmart; item_id := pid;
                ratings := {| average := rating; count := cnt |} |}).
Proof.
  intros Ht Htt Hp Hpn Hu Hut Hid Himg Hr Hc. unfold extractBody.
  rewrite Ht. simpl. rewrite Htt. simpl. rewrite Hp. simpl. rewrite Hpn.
  rewrite Hu. simpl. rewrite Hut. simpl. rewrite Hid. simpl.
  rewrite Himg. simpl. rewrite Hr. simpl. rewrite Hc. reflexivity.
Qed.

Lemma no_title_no_record (element : Element) :
  titleOf element = Ok [] -> extractWalmartSearchResult element = Ok None.
Proof.
  intros Ht. apply extract_of_body. unfold extractBody. now rewrite Ht.
Qed.

Lemma no_price_no_record (element : Element) (p : option number) :
  priceOf element = Ok p -> missing p = true ->
  extractWalmartSearchResult element = Ok None.
Proof.
  intros Hp Hmiss. unfold extractWalmartSearchResult, extractBody.
  destruct (titleOf element) as [t|]; simpl; [|reflexivity].
  destruct (truthy t); simpl; [|reflexivity].
  rewrite Hp. simpl. destruct p as [p|]; [|reflexivity].
  simpl in Hmiss. now rewrite Hmiss.
Qed.

Lemma no_url_no_record (element : Element) :
  urlOf element = Ok [] -> extractWalmartSearchResult element = Ok None.
Proof.
  intros Hu. unfold extractWalmartSearchResult, extractBody.
  destruct (titleOf element) as [t|]; simpl; [|reflexivity].
  destruct (truthy t); simpl; [|reflexivity].
  destruct (priceOf element) as [[p|]|]; simpl; try reflexivity.
  destruct (isNaN p); [reflexivity|].
  now rewrite Hu.
Qed.

End Extractor.

(** C4, as stated, fails on "no finite price": the price is only tested
    against null and NaN.  A price text of 400 digits parses to a dollar
    amount beyond the range of a double, that is to Infinity, and the record
    is returned with that price. *)
Lemma C4_record_with_infinite_price :
  let card := [titleNode; priceNode (repeat (ch "9") 400); linkNode "/ip/1"] in
  let host := treeHost (cardPage [] card) in
  let element := cardElement [] card in
  returned price (extractWalmartSearchResult element) = Some Infinity
  /\ isFinite Infinity = false.
Proof. intros card host element. split; [vm_compute|]; reflexivity. Qed.

(** C4, amended.  A record is returned only with a non-empty title, a price
    that is neither null nor NaN and a non-empty resolved URL, and it carries
    exactly these; null is returned when the title is empty (whatever the
    other fields are), when the price stages end on null or NaN, and when the
    resolved URL is empty. *)
Theorem C4_record_needs_title_price_url
        {Element : Type} {host : Host Element} (element : Element) :
  (forall r, extractWalmartSearchResult element = Ok (Some r) ->
     titleOf element = Ok (title r) /\ title r <> []
     /\ priceOf element = Ok (Some (price r)) /\ isNaN (price r) = false
     /\ urlOf element = Ok (url r) /\ url r <> [])
  /\ (titleOf element = Ok [] -> extractWalmartSearchResult element = Ok None)
  /\ (forall p, priceOf element = Ok p -> missing p = true ->
        extractWalmartSearchResult element = Ok None)
  /\ (urlOf element = Ok [] -> extractWalmartSearchResult element = Ok None).
Proof.
  split; [|split; [|split]].
  - intros r Hr. apply body_of_extract, extractBody_record in Hr.
    destruct Hr as (Ht & Htt & Hp & Hpn & Hu & Hut & _).
    rewrite truthy_nonempty in Htt, Hut. auto 10.
  - apply no_title_no_record.
  - apply no_price_no_record.
  - apply no_url_no_record.
Qed.

(** Cards with a blank title, with an unparsable price and no split price,
    and without a link give null; a complete card gives a record. *)
Lemma C4_record_needs_title_price_url_witness :
  let blank := El "span" [attribute "data-automation-id" "product-title"] [text "   "] in
  let card1 := [blank; priceNode (js "$7"); linkNode "/ip/1"] in
  let card2 := [titleNode; priceNode (js "sold out"); linkNode "/ip/1"] in
  let card3 := [titleNode; priceNode (js "$7")] in
  let card4 := [titleNode; priceNode (js "$7"); linkNode "/ip/1"] in
  let host :=
    treeHost (pageOf [El "div" [] card1; El "div" [] card2;
                      El "div" [] card3; El "div" [] card4]) in
  let untitled := cardElement [] card1 in
  let unpriced := cardElement [] card2 in
  let unlinked := cardElement [] card3 in
  let complete := cardElement [] card4 in
  extractWalmartSearchResult untitled = Ok None
  /\ extractWalmartSearchResult unpriced = Ok None
  /\ extractWalmartSearchResult unlinked = Ok None
  /\ (forall r, extractWalmartSearchResult complete = Ok (Some r) ->
        title r <> [] /\ isNaN (price r) = false /\ url r <> []).
Proof.
  intros blank card1 card2 card3 card4 host untitled unpriced unlinked complete.
  split; [|split; [|split]].
  - apply (proj1 (proj2 (C4_record_needs_title_price_url untitled))).
    vm_compute. reflexivity.
  - apply (proj1 (proj2 (proj2 (C4_record_needs_title_price_url unpriced))) None).
    + vm_compute. reflexivity.
    + reflexivity.
  - apply (proj2 (proj2 (proj2 (C4_record_needs_title_price_url unlinked)))).
    vm_compute. reflexivity.
  - intros r Hr.
    destruct (proj1 (C4_record_needs_title_price_url complete) r Hr)
      as (_ & Ht & _ & Hp & _ & Hu).
    auto.
Defined.

(** ** The split price *)

Lemma keep_no_digit (s : jsstring) :
  existsb isDigit s = false -> keep isDigit s = [].
Proof.
  unfold keep. induction s as [|c s IH]; simpl; [reflexivity|].
  destruct (isDigit c); simpl; [discriminate|exact IH].
Qed.

(** Text without digits falls back on the default. *)
Lemma digits_or_default (text : option jsstring) (fallback : jsstring) :
  (forall s, text = Some s -> existsb isDigit s = false) ->
  orElse (option_map (keep isDigit) text) fallback = fallback.
Proof.
  intros H. destruct text as [s|]; [|reflexivity].
  simpl. now rewrite (keep_no_digit s (H s eq_refl)).
Qed.

(** C9.  When the text stages leave the price null (or NaN) and both split
    elements exist but neither text has a digit, the defaults "0" and "00"
    are parsed, the price is 0, and with a title and a URL the record is
    returned with that price. *)
Theorem C9_split_price_defaults_to_zero
        {Element : Type} {host : Host Element}
        (element wholeDollarElement centsElement : Element)
        (t u : jsstring) (p0 : option number) (wtext ctext : option jsstring)
        (pid img : option jsstring) (rating cnt : option number) :
  titleOf element = Ok t -> t <> [] ->
  textPriceOf element = Ok p0 -> missing p0 = true ->
  querySelector element sel_wholeDollar = Ok (Some wholeDollarElement) ->
  querySelector element sel_cents = Ok (Some centsElement) ->
  textContent wholeDollarElement = Ok wtext ->
  textContent centsElement = Ok ctext ->
  (forall s, wtext = Some s -> existsb isDigit s = false) ->
  (forall s, ctext = Some s -> existsb isDigit s = false) ->
  urlOf element = Ok u -> u <> [] ->
  productIdOf element u = Ok pid ->
  imageOf element = Ok img ->
  ratingOf element = Ok rating ->
  reviewCountOf element = Ok cnt ->
  priceOf element = Ok (Some (Finite 0))
  /\ extractWalmartSearchResult element
     = Ok (Some {| title := t; price := Finite 0; image := img; url := u;
                   marketplace := walmart; item_id := pid;
                   ratings := {| average := rating; count := cnt |} |}).
Proof.
  intros Ht Htne Hp0 Hmiss Hw Hc Hwt Hct Hwd Hcd Hu Hune Hid Himg Hr Hcnt.
  assert (priceOf element = Ok (Some (Finite 0))) as Hprice.
  { unfold priceOf. rewrite Hp0. simpl. rewrite Hmiss.
    unfold splitPriceOf. rewrite Hw. simpl. rewrite Hc. simpl.
    rewrite Hwt. simpl. rewrite Hct. simpl.
    rewrite (digits_or_default wtext _ Hwd), (digits_or_default ctext _ Hcd).
    vm_compute. reflexivity. }
  split; [exact Hprice|].
  apply extract_of_body.
  apply extractBody_build; try assumption; try reflexivity;
    now apply truthy_nonempty.
Qed.

(** A card without a price element whose split price nodes read "$" and
    "--" is returned with price 0. *)
Lemma C9_split_price_defaults_to_zero_witness :
  let whole := El "span" [attribute "class" "w_C6 w_D w_C7 w_Da"] [text "$"] in
  let cents := El "span" [attribute "class" "w_C6 w_D w_C7 w_Db"] [text "--"] in
  let card := [titleNode; whole; cents; linkNode "/ip/1"] in
  let host := treeHost (cardPage [] card) in
  let element := cardElement [] card in
  returned price (extractWalmartSearchResult element) = Some (Finite 0).
Proof.
  intros whole cents card host element.
  rewrite (proj2 (@C9_split_price_defaults_to_zero _ host
             element
             (childElement element "span" [attribute "class" "w_C6 w_D w_C7 w_Da"] [text "$"])
             (childElement element "span" [attribute "class" "w_C6 w_D w_C7 w_Db"] [text "--"])
             (js "Some Title") (js "https://www.walmart.com/ip/1") None
             (Some (js "$")) (Some (js "--")) (Some (js "1")) None None None
             ltac:(vm_compute; reflexivity) ltac:(discriminate)
             ltac:(vm_compute; reflexivity) ltac:(reflexivity)
             ltac:(vm_compute; reflexivity) ltac:(vm_compute; reflexivity)
             ltac:(vm_compute; reflexivity) ltac:(vm_compute; reflexivity)
             ltac:(intros s [= <-]; reflexivity) ltac:(intros s [= <-]; reflexivity)
             ltac:(vm_compute; reflexivity) ltac:(discriminate)
             ltac:(vm_compute; reflexivity) ltac:(vm_compute; reflexivity)
             ltac:(vm_compute; reflexivity) ltac:(vm_compute; reflexivity))).
  reflexivity.
Defined.

(** ** Ratings *)

Lemma mk_Finite_inv (q x : Q) :
  mk q = Finite x -> x = round64 q /\ q < inject_Z overflow.
Proof.
  unfold mk. destruct (Qle_bool (inject_Z overflow) q) eqn:E; [discriminate|].
  intros [= <-]. split; [reflexivity|].
  apply Qnot_le_lt. intros H. apply Qle_bool_iff in H. congruence.
Qed.

Lemma inject_N_nonneg (n : N) : 0 <= inject_Z (Z.of_N n).
Proof. change 0 with (inject_Z 0). rewrite <- Zle_Qle. lia. Qed.

(** A finite result of [parseFloat] is the double nearest to a non-negative
    value. *)
Lemma parseFloat_Finite (s : jsstring) (x : Q) :
  parseFloat s = Finite x -> exists v, 0 <= v /\ x = round64 v.
Proof.
  unfold parseFloat.
  set (ds := takeWhile isDigit s). set (fs := match dropWhile isDigit s with [] => [] | c :: rest => _ end).
  set (v := _ + _ / _).
  assert (0 <= v) as Hv.
  { subst v. pose proof (inject_N_nonneg (digitsValue ds)).
    pose proof (inject_N_nonneg (digitsValue fs)).
    assert (0 < inject_Z (10 ^ Z.of_nat (length fs))) as Hpos.
    { change 0 with (inject_Z 0). rewrite <- Zlt_Qlt. apply Z.pow_pos_nonneg; lia. }
    assert (0 <= inject_Z (Z.of_N (digitsValue fs)) / inject_Z (10 ^ Z.of_nat (length fs))).
    { apply Qle_shift_div_l; [exact Hpos|]. now rewrite Qmult_0_l. }
    lra. }
  intros H.
  assert (mk v = Finite x) as Hmk by (destruct ds, fs; try discriminate; exact H).
  apply mk_Finite_inv in Hmk. destruct Hmk as [-> _].
  exists v. split; [exact Hv|reflexivity].
Qed.

(** A percentage of at most 100 gives at most five stars. *)
Lemma percent_to_stars (pct : Q) :
  0 <= pct -> pct <= 100 ->
  mul (JsNumber.div (Finite pct) (Finite 100)) (Finite 5)
  = Finite (round64 (round64 (pct / 100) * 5))
  /\ 0 <= round64 (round64 (pct / 100) * 5)
  /\ round64 (round64 (pct / 100) * 5) <= 5.
Proof.
  intros H0 H100.
  assert (0 <= pct / 100 /\ pct / 100 <= 1) as [Hq0 Hq1].
  { unfold Qdiv. change (/ 100) with (1 # 100). split; lra. }
  destruct (round64_unit _ Hq0 Hq1) as [Hr0 Hr1].
  assert (round64 5 = 5) as E5.
  { apply (round64_integer 5). split; [lia|]. vm_compute. discriminate. }
  split; [|split].
  - unfold JsNumber.div. change (isZero 100) with false. cbv iota.
    rewrite mk_below.
    2:{ apply small_below. eapply Qle_trans; [exact Hq1|]. discriminate. }
    unfold mul. apply mk_below, small_below.
    apply Qle_trans with 5; [lra|discriminate].
  - apply round64_nonneg. lra.
  - rewrite <- E5 at 2. apply round64_mono; lra.
Qed.

(** The stars of a percentage, a double, are in the range exactly when the
    percentage is at most 100. *)
Lemma stars_in_range (v : Q) :
  0 <= v ->
  inRange 0 5 (mul (JsNumber.div (Finite (round64 v)) (Finite 100)) (Finite 5)) = true
  <-> round64 v <= 100.
Proof.
  intros H0. pose proof (round64_nonneg v H0) as Hp0. split.
  - intros Hin. apply Qnot_lt_le. intros Hgt.
    pose proof (round64_above_100 v H0 Hgt) as Hnext.
    assert (5 < round64 (round64 ((100 + (1 # 2 ^ 46)) / 100) * 5)) as Hfive
      by (vm_compute; reflexivity).
    assert (0 <= round64 ((100 + (1 # 2 ^ 46)) / 100)) as Hc0
      by (vm_compute; discriminate).
    assert (round64 ((100 + (1 # 2 ^ 46)) / 100) <= round64 (round64 v / 100)) as H1.
    { apply round64_mono; [vm_compute; discriminate|].
      unfold Qdiv. change (/ 100) with (1 # 100). lra. }
    assert (round64 (round64 ((100 + (1 # 2 ^ 46)) / 100) * 5)
            <= round64 (round64 (round64 v / 100) * 5)) as H2.
    { apply round64_mono; lra. }
    unfold JsNumber.div in Hin. change (isZero 100) with false in Hin. cbv iota in Hin.
    unfold mk in Hin.
    destruct (Qle_bool (inject_Z overflow) (round64 v / 100)); [discriminate Hin|].
    unfold mul, mk in Hin.
    destruct (Qle_bool (inject_Z overflow) (round64 (round64 v / 100) * 5));
      [discriminate Hin|].
    unfold inRange in Hin. apply andb_true_iff in Hin. destruct Hin as [_ Hin].
    apply Qle_bool_iff in Hin. lra.
  - intros H100. destruct (percent_to_stars (round64 v) Hp0 H100) as (-> & Hs0 & Hs5).
    unfold inRange. apply andb_true_iff. split; now apply Qle_bool_iff.
Qed.

Section Rating.

Context {Element : Type} {host : Host Element}.

Lemma orUndefined_nonempty (s : jsstring) :
  s <> [] -> orUndefined (Some s) = Some s.
Proof. destruct s; [congruence|reflexivity]. Qed.

Lemma ratingOf_width (element r : Element) (style : jsstring)
      (m : captures) (w : jsstring) :
  querySelector element sel_rating = Ok (Some r) ->
  getAttribute r "style" = Ok (Some style) ->
  includes style (js "width") = true ->
  exec reWidth style = Some m -> group 1 m = Some w -> w <> [] ->
  ratingOf element
  = Ok (Some (mul (JsNumber.div (parseFloat w) (Finite 100)) (Finite 5))).
Proof.
  intros Hq Hs Hinc Hm Hg Hw. unfold ratingOf. rewrite Hq.
  cbn [bind]. rewrite Hs. cbn [bind]. unfold hasWidth. rewrite Hinc.
  destruct style as [|c style]; [discriminate Hinc|].
  cbn [truthy andb orElse]. unfold ratingOfWidth.
  rewrite Hm, Hg, (orUndefined_nonempty w Hw). reflexivity.
Qed.

Lemma ratingOf_text (element r : Element) (style : option jsstring)
      (text : jsstring) (m : captures) (n : jsstring) :
  querySelector element sel_rating = Ok (Some r) ->
  getAttribute r "style" = Ok style -> hasWidth style = false ->
  textContent r = Ok (Some text) ->
  exec reDecimal text = Some m -> group 1 m = Some n -> n <> [] ->
  ratingOf element = Ok (Some (parseFloat n)).
Proof.
  intros Hq Hs Hw Ht Hm Hg Hn. unfold ratingOf. rewrite Hq.
  cbn [bind]. rewrite Hs. cbn [bind]. rewrite Hw, Ht. cbn [bind].
  unfold ratingOfText.
  destruct text as [|c text]; [discriminate Hm|].
  cbn [orElse truthy]. rewrite Hm, Hg, (orUndefined_nonempty n Hn). reflexivity.
Qed.

End Rating.

(** C10, as stated, fails on the style-width path: the percentage is scaled
    but not clamped either, so "width: 250%" gives the rating 12.5. *)
Lemma C10_width_rating_above_five :
  let stars := El "span" [attribute "class" "stars-container";
                          attribute "style" "width: 250%"] [] in
  let card := [titleNode; priceNode (js "$7"); linkNode "/ip/1"; stars] in
  let host := treeHost (cardPage [] card) in
  let element := cardElement [] card in
  hasWidth (Some (js "width: 250%")) = true
  /\ returned (fun r => average (ratings r)) (extractWalmartSearchResult element)
     = Some (Some (Finite (25 # 2)))
  /\ inRange 0 5 (Finite (25 # 2)) = false.
Proof.
  intros stars card host element. split; [reflexivity|].
  split; [vm_compute|]; reflexivity.
Qed.

(** C10, amended.  Neither path clamps the rating.  On the style-width path
    the rating is percent / 100 * 5 in double arithmetic for the captured
    percentage, which lies in [0,5] exactly when the percentage, as a double,
    is at most 100; on the text path it is the first decimal number of the
    text as it stands; and on the text path some inputs give an average
    above 5. *)
Theorem C10_rating_is_not_clamped :
  (forall (Element : Type) (host : Host Element) (element r : Element),
      querySelector element sel_rating = Ok (Some r) ->
      (forall style m w,
          getAttribute r "style" = Ok (Some style) ->
          includes style (js "width") = true ->
          exec reWidth style = Some m -> group 1 m = Some w -> w <> [] ->
          ratingOf element
          = Ok (Some (mul (JsNumber.div (parseFloat w) (Finite 100)) (Finite 5)))
          /\ (forall pct, parseFloat w = Finite pct ->
                (inRange 0 5 (mul (JsNumber.div (parseFloat w) (Finite 100)) (Finite 5))
                 = true <-> pct <= 100)))
      /\ (forall style text m n,
             getAttribute r "style" = Ok style -> hasWidth style = false ->
             textContent r = Ok (Some text) ->
             exec reDecimal text = Some m -> group 1 m = Some n -> n <> [] ->
             ratingOf element = Ok (Some (parseFloat n))))
  /\ (exists (page : document) (element : TreeDom.element),
         returned (fun r => average (ratings r))
                  (@extractWalmartSearchResult _ (treeHost page) element)
         = Some (Some (Finite 37))
         /\ hasWidth (attr "style" [attribute "class" "stars-container"]) = false
         /\ inRange 0 5 (Finite 37) = false).
Proof.
  split.
  - intros Element host element r Hq. split.
    + intros style m w Hs Hinc Hm Hg Hw. split.
      * now apply (ratingOf_width element r style m w).
      * intros pct Hpct. rewrite Hpct.
        destruct (parseFloat_Finite w pct Hpct) as (v & H0 & ->).
        now apply stars_in_range.
    + intros style text m n Hs Hw Ht Hm Hg Hn.
      now apply (ratingOf_text element r style text m n).
  - pose (card := [titleNode; priceNode (js "$7"); linkNode "/ip/1";
                   El "span" [attribute "class" "stars-container"] [text "37 ratings"]]).
    exists (cardPage [] card), (cardElement [] card).
    split; [vm_compute; reflexivity|]. split; reflexivity.
Qed.

(** "width: 80%" gives the rating 4.  A percentage that parses to the double
    100 gives 5, and "width: 94%" gives 4.699999999999999, not 4.7. *)
Lemma C10_rating_is_not_clamped_witness :
  let stars := El "span" [attribute "class" "stars-container";
                          attribute "style" "width: 80%"] [] in
  let card := [titleNode; priceNode (js "$7"); linkNode "/ip/1"; stars] in
  let host := treeHost (cardPage [] card) in
  let element := cardElement [] card in
  ratingOf element = Ok (Some (Finite 4))
  /\ inRange 0 5 (Finite 4) = true
  /\ ratingOfWidth (js "width: 100.00000000000000001%") = Some (Finite 5)
  /\ ratingOfWidth (js "width: 94%") = Some (Finite (round64 (round64 (94 / 100) * 5)))
  /\ Qeq_bool (round64 (round64 (94 / 100) * 5)) (47 / 10) = false.
Proof.
  intros stars card host element.
  pose (r := childElement element "span"
               [attribute "class" "stars-container"; attribute "style" "width: 80%"] []).
  assert (querySelector element sel_rating = Ok (Some r)) as Hq
    by (vm_compute; reflexivity).
  destruct (proj1 (proj1 C10_rating_is_not_clamped _ host element r Hq)
              (js "width: 80%") [(1%nat, js "80")] (js "80"))
    as [Hrating Hrange]; try (vm_compute; reflexivity); [discriminate|].
  split; [|split; [|repeat split; vm_compute; reflexivity]].
  - rewrite Hrating. vm_compute. reflexivity.
  - change (Finite 4) with (mul (JsNumber.div (parseFloat (js "80")) (Finite 100)) (Finite 5)).
    apply (Hrange 80); [vm_compute; reflexivity|discriminate].
Defined.

(** ** The backtracking matcher *)

Section RegexFacts.

Lemma hd_error_flat_map (A B : Type) (f : A -> list B) (l : list A) (x : A) (y : B) :
  hd_error l = Some x -> hd_error (f x) = Some y ->
  hd_error (flat_map f l) = Some y.
Proof.
  destruct l as [|a l]; simpl; [discriminate|]. intros [= ->] Hy.
  destruct (f x); simpl in *; [discriminate|exact Hy].
Qed.

Lemma run_seq_hd (r1 r2 : regex) (st x y : state) :
  hd_error (run r1 st) = Some x -> hd_error (run r2 x) = Some y ->
  hd_error (run (Seq r1 r2) st) = Some y.
Proof. simpl. apply hd_error_flat_map. Qed.

Lemma run_seq_fail (r1 r2 : regex) (st : state) :
  run r1 st = [] -> run (Seq r1 r2) st = [].
Proof. simpl. now intros ->. Qed.

Lemma run_opt_hd (r : regex) (st x : state) :
  hd_error (run r st) = Some x -> hd_error (run (Opt r) st) = Some x.
Proof. simpl. destruct (run r st); simpl; [discriminate|auto]. Qed.

Lemma run_opt_skip (r : regex) (st : state) :
  run r st = [] -> run (Opt r) st = [st].
Proof. simpl. now intros ->. Qed.

Lemma run_group_hd (i : nat) (r : regex) (st x : state) :
  hd_error (run r st) = Some x ->
  hd_error (run (Group i r) st)
  = Some (fst x, (i, firstn (length (fst st) - length (fst x)) (fst st)) :: snd x).
Proof. simpl. destruct (run r st); simpl; [discriminate|]. now intros [= ->]. Qed.

Lemma run_group_fail (i : nat) (r : regex) (st : state) :
  run r st = [] -> run (Group i r) st = [].
Proof. simpl. now intros ->. Qed.

Lemma run_chr_hit (p : char -> bool) (c : char) (s : jsstring) (caps : captures) :
  p c = true -> run (Chr p) (c :: s, caps) = [(s, caps)].
Proof. simpl. now intros ->. Qed.

Lemma run_chr_miss (p : char -> bool) (s : jsstring) (caps : captures) :
  startsIn p s = false -> run (Chr p) (s, caps) = [].
Proof. destruct s as [|c s]; simpl; [reflexivity|]. now intros ->. Qed.

Lemma star_iter_S (step : state -> list state) (n : nat) (st : state) :
  star_iter step true (S n) st
  = flat_map (star_iter step true n) (filter (progress st) (step st)) ++ [st].
Proof. reflexivity. Qed.

Lemma star_chr_hd (p : char -> bool) (D rest : jsstring) (caps : captures) (n : nat) :
  forallb p D = true -> startsIn p rest = false -> (length D <= n)%nat ->
  hd_error (star_iter (run (Chr p)) true n (D ++ rest, caps)) = Some (rest, caps).
Proof.
  revert n. induction D as [|c D IH]; intros n HD Hrest Hn.
  - destruct n; [reflexivity|]. rewrite star_iter_S. change ([] ++ rest) with rest.
    rewrite (run_chr_miss p rest caps Hrest). reflexivity.
  - destruct n; [simpl in Hn; lia|].
    simpl in HD. apply andb_true_iff in HD. destruct HD as [Hc HD].
    rewrite star_iter_S. change ((c :: D) ++ rest) with (c :: D ++ rest).
    rewrite (run_chr_hit p c _ caps Hc).
    assert (progress (c :: D ++ rest, caps) (D ++ rest, caps) = true) as Hprog
      by (apply Nat.ltb_lt; simpl; lia).
    simpl filter. rewrite Hprog. simpl flat_map. rewrite app_nil_r.
    specialize (IH n HD Hrest ltac:(simpl in Hn; lia)).
    destruct (star_iter _ _ _ _); simpl in *; [discriminate|exact IH].
Qed.

Lemma run_star_chr_hd (p : char -> bool) (D rest : jsstring) (caps : captures) :
  forallb p D = true -> startsIn p rest = false ->
  hd_error (run (Star true (Chr p)) (D ++ rest, caps)) = Some (rest, caps).
Proof.
  intros HD Hrest. simpl run. apply star_chr_hd; try assumption.
  rewrite length_app. lia.
Qed.

Lemma run_plus_chr_hd (p : char -> bool) (D rest : jsstring) (caps : captures) :
  D <> [] -> forallb p D = true -> startsIn p rest = false ->
  hd_error (run (Plus (Chr p)) (D ++ rest, caps)) = Some (rest, caps).
Proof.
  intros Hne HD Hrest. destruct D as [|c D]; [congruence|].
  simpl in HD. apply andb_true_iff in HD. destruct HD as [Hc HD].
  unfold Plus. apply run_seq_hd with (x := (D ++ rest, caps)).
  - simpl. now rewrite Hc.
  - now apply run_star_chr_hd.
Qed.

Lemma run_plus_chr_fail (p : char -> bool) (s : jsstring) (caps : captures) :
  startsIn p s = false -> run (Plus (Chr p)) (s, caps) = [].
Proof. intros H. unfold Plus. apply run_seq_fail. now apply run_chr_miss. Qed.

Lemma firstn_consumed (D rest : jsstring) :
  firstn (length (D ++ rest) - length rest) (D ++ rest) = D.
Proof.
  rewrite length_app. replace (length D + length rest - length rest)%nat with (length D) by lia.
  rewrite firstn_app, firstn_all, Nat.sub_diag. simpl. apply app_nil_r.
Qed.

Lemma exec_here (r : regex) (s : jsstring) (st : state) :
  hd_error (run r (s, [])) = Some st -> exec r s = Some (snd st).
Proof.
  destruct s; simpl; destruct (run r _); simpl; try discriminate; now intros [= ->].
Qed.

Lemma exec_next (r : regex) (c : char) (s : jsstring) :
  run r (c :: s, []) = [] -> exec r (c :: s) = exec r s.
Proof. simpl. now intros ->. Qed.

End RegexFacts.

(** ** The price patterns on texts of a known shape *)

Section PriceFacts.

Lemma run_group_consumed (i : nat) (r : regex) (D rest : jsstring)
      (caps caps' : captures) :
  hd_error (run r (D ++ rest, caps)) = Some (rest, caps') ->
  hd_error (run (Group i r) (D ++ rest, caps)) = Some (rest, (i, D) :: caps').
Proof.
  intros H. rewrite (run_group_hd i r _ _ H). cbn [fst snd].
  now rewrite firstn_consumed.
Qed.

Lemma lit_current (s : jsstring) (caps : captures) :
  run (LitI "current") (js "current" ++ s, caps) = [(s, caps)].
Proof. reflexivity. Qed.

Lemma lit_price (s : jsstring) (caps : captures) :
  run (LitI "price") (js "price" ++ s, caps) = [(s, caps)].
Proof. reflexivity. Qed.

(** [\d{0,2}] takes the cents when they are followed by no third digit. *)
Lemma run_upto2_digits (CC rest : jsstring) (caps : captures) :
  forallb isDigit CC = true -> (length CC <= 2)%nat ->
  (length CC = 2%nat \/ startsIn isDigit rest = false) ->
  hd_error (run (Upto2 digit) (CC ++ rest, caps)) = Some (rest, caps).
Proof.
  intros Hd Hlen Hstop.
  destruct CC as [|c1 [|c2 [|c3 CC]]]; simpl in Hlen; try lia.
  - destruct Hstop as [Hstop|Hstop]; [discriminate|].
    destruct rest as [|c rest]; [reflexivity|].
    simpl in Hstop. simpl. now rewrite Hstop.
  - destruct Hstop as [Hstop|Hstop]; [discriminate|].
    simpl in Hd. rewrite andb_true_r in Hd.
    destruct rest as [|c rest]; simpl; rewrite Hd; [reflexivity|].
    simpl in Hstop. simpl. now rewrite Hstop.
  - simpl in Hd. rewrite andb_true_r in Hd. apply andb_true_iff in Hd.
    destruct Hd as [H1 H2]. simpl. rewrite H1. simpl. now rewrite H2.
Qed.

End PriceFacts.

(** ** The generic price pattern *)

Section GenericPrice.

Lemma run_seq_chr (p : char -> bool) (r : regex) (c : char) (s : jsstring)
      (caps : captures) :
  run (Seq (Chr p) r) (c :: s, caps) = if p c then run r (s, caps) else [].
Proof.
  cbn [run fst snd]. destruct (p c); cbn [flat_map]; [apply app_nil_r|reflexivity].
Qed.

(** [(?:\.(\d{1,2}))?] *)
Lemma run_fraction (rest : jsstring) (caps : captures) :
  exists rest',
    hd_error (run (Opt (Seq (the ".") (Group 2 (OneOrTwo digit)))) (rest, caps))
    = Some (rest', match fractionAfter rest with
                   | Some f => (2%nat, f) :: caps
                   | None => caps
                   end).
Proof.
  assert (forall st, run (Opt (Seq (the ".") (Group 2 (OneOrTwo digit)))) st
                     = run (Seq (the ".") (Group 2 (OneOrTwo digit))) st ++ [st])
    as Hopt by reflexivity.
  destruct rest as [|dot [|c1 more]].
  - exists []. reflexivity.
  - exists [dot]. rewrite Hopt. unfold the. rewrite run_seq_chr.
    destruct (ch "." =? dot)%N; reflexivity.
  - unfold fractionAfter.
    destruct ((ch "." =? dot)%N) eqn:Hdot; cbn [andb].
    2:{ exists (dot :: c1 :: more). rewrite Hopt.
        rewrite run_seq_fail; [reflexivity|]. now apply run_chr_miss. }
    destruct (isDigit c1) eqn:H1.
    2:{ exists (dot :: c1 :: more). rewrite Hopt.
        assert (run (Seq (the ".") (Group 2 (OneOrTwo digit))) (dot :: c1 :: more, caps) = [])
          as ->; [|reflexivity].
        unfold the. rewrite run_seq_chr, Hdot. apply run_group_fail.
        unfold OneOrTwo. apply run_seq_fail. now apply run_chr_miss. }
    destruct more as [|c2 more].
    + exists []. apply run_opt_hd.
      eapply run_seq_hd; [unfold the; rewrite (run_chr_hit _ dot _ caps Hdot); reflexivity|].
      apply (run_group_consumed 2 _ [c1] []).
      simpl. now rewrite H1.
    + cbn [startsIn firstn]. destruct (isDigit c2) eqn:H2.
      * exists more. apply run_opt_hd.
        eapply run_seq_hd; [unfold the; rewrite (run_chr_hit _ dot _ caps Hdot); reflexivity|].
        apply (run_group_consumed 2 _ [c1; c2] more).
        simpl. rewrite H1. simpl. now rewrite H2.
      * exists (c2 :: more). apply run_opt_hd.
        eapply run_seq_hd; [unfold the; rewrite (run_chr_hit _ dot _ caps Hdot); reflexivity|].
        apply (run_group_consumed 2 _ [c1] (c2 :: more)).
        simpl. rewrite H1. simpl. now rewrite H2.
Qed.

(** [(\d+)(?:\.(\d{1,2}))?] at the start of a digit run. *)
Lemma run_dollars (D rest : jsstring) :
  D <> [] -> forallb isDigit D = true -> startsIn isDigit rest = false ->
  exists rest',
    hd_error (run (Seq (Group 1 (Plus digit))
                       (Opt (Seq (the ".") (Group 2 (OneOrTwo digit)))))
                  (D ++ rest, []))
    = Some (rest', priceCaptures D rest).
Proof.
  intros Hne HD Hstop.
  destruct (run_fraction rest [(1%nat, D)]) as [rest' Hfrac].
  exists rest'. eapply run_seq_hd.
  - apply (run_group_consumed 1 _ D rest), run_plus_chr_hd; assumption.
  - rewrite Hfrac. unfold priceCaptures. now destruct (fractionAfter rest).
Qed.

Lemma run_dollars_fail (s : jsstring) (caps : captures) (r : regex) :
  startsIn isDigit s = false ->
  run (Seq (Group 1 (Plus digit)) r) (s, caps) = [].
Proof.
  intros H. apply run_seq_fail, run_group_fail. now apply run_plus_chr_fail.
Qed.

Lemma rePrice_unfold (st : state) :
  run rePrice st
  = flat_map (run (Seq (Group 1 (Plus digit))
                       (Opt (Seq (the ".") (Group 2 (OneOrTwo digit))))))
             (run (the "$") st ++ [st]).
Proof. reflexivity. Qed.

(** No match starts on a character that is not a digit, unless it is a
    dollar sign directly before a digit. *)
Lemma run_price_fail (c : char) (s : jsstring) :
  isDigit c = false -> startsIn isDigit s = false ->
  run rePrice (c :: s, []) = [].
Proof.
  intros Hc Hs. rewrite rePrice_unfold. rewrite flat_map_app.
  assert (run (Seq (Group 1 (Plus digit))
                   (Opt (Seq (the ".") (Group 2 (OneOrTwo digit)))))
              (c :: s, []) = []) as Hhere
    by (apply run_dollars_fail; exact Hc).
  cbn [flat_map]. rewrite Hhere, app_nil_r.
  destruct (ch "$" =? c)%N eqn:E.
  - assert (run (the "$") (c :: s, []) = [(s, [])]) as ->
      by (apply run_chr_hit; exact E).
    cbn [flat_map]. rewrite app_nil_r. now apply run_dollars_fail.
  - assert (run (the "$") (c :: s, []) = []) as ->
      by (apply run_chr_miss; exact E).
    reflexivity.
Qed.

Lemma run_price_here (D rest : jsstring) :
  D <> [] -> forallb isDigit D = true -> startsIn isDigit rest = false ->
  exists rest', hd_error (run rePrice (D ++ rest, [])) = Some (rest', priceCaptures D rest).
Proof.
  intros Hne HD Hstop. destruct (run_dollars D rest Hne HD Hstop) as [rest' H].
  exists rest'. rewrite rePrice_unfold.
  destruct D as [|d D]; [congruence|].
  assert (run (the "$") ((d :: D) ++ rest, []) = []) as ->.
  { apply run_chr_miss. simpl in HD. apply andb_true_iff in HD.
    destruct HD as [Hd _]. cbn [app startsIn].
    destruct (ch "$" =? d)%N eqn:E; [|reflexivity].
    apply N.eqb_eq in E. subst d. discriminate Hd. }
  cbn [app flat_map]. rewrite app_nil_r. exact H.
Qed.

Lemma run_price_dollar (D rest : jsstring) :
  D <> [] -> forallb isDigit D = true -> startsIn isDigit rest = false ->
  exists rest',
    hd_error (run rePrice (ch "$" :: D ++ rest, [])) = Some (rest', priceCaptures D rest).
Proof.
  intros Hne HD Hstop. destruct (run_dollars D rest Hne HD Hstop) as [rest' H].
  exists rest'. rewrite rePrice_unfold.
  change (run (the "$") (ch "$" :: D ++ rest, []))
    with [(D ++ rest, @nil (nat * jsstring))].
  cbn [app flat_map].
  destruct (run _ (D ++ rest, [])) as [|x l]; [discriminate H|].
  simpl in H. injection H as ->. reflexivity.
Qed.

(** The leftmost match is the first digit run of the text. *)
Lemma exec_price_first_run (pre D rest : jsstring) :
  forallb notDigit pre = true ->
  D <> [] -> forallb isDigit D = true -> startsIn isDigit rest = false ->
  exec rePrice (pre ++ D ++ rest) = Some (priceCaptures D rest).
Proof.
  intros Hpre Hne HD Hstop. induction pre as [|c pre IH].
  - cbn [app]. destruct (run_price_here D rest Hne HD Hstop) as [rest' H].
    now rewrite (exec_here _ _ _ H).
  - simpl in Hpre. apply andb_true_iff in Hpre. destruct Hpre as [Hc Hpre].
    unfold notDigit in Hc. apply negb_true_iff in Hc.
    destruct pre as [|c' pre].
    + destruct (ch "$" =? c)%N eqn:E.
      * apply N.eqb_eq in E. subst c.
        destruct (run_price_dollar D rest Hne HD Hstop) as [rest' H].
        cbn [app]. now rewrite (exec_here _ _ _ H).
      * cbn [app]. rewrite exec_next; [now apply IH|].
        rewrite rePrice_unfold.
        assert (run (the "$") (c :: D ++ rest, []) = []) as ->
          by (apply run_chr_miss; exact E).
        cbn [app flat_map]. rewrite app_nil_r.
        now apply run_dollars_fail.
    + cbn [app]. rewrite exec_next; [now apply IH|].
      apply run_price_fail; [exact Hc|].
      simpl in Hpre. apply andb_true_iff in Hpre. destruct Hpre as [Hc' _].
      unfold notDigit in Hc'. now apply negb_true_iff in Hc'.
Qed.

End GenericPrice.

(** ** The "current price" pattern

    [(pre ++ ...)] below is a text in which the phrase comes after a prefix
    that has no letter c, so that the pattern cannot match earlier. *)

Section CurrentPrice.

(** [s.includes(p)] looks past a prefix. *)
Lemma includes_app (pre s p : jsstring) :
  includes s p = true -> includes (pre ++ s) p = true.
Proof.
  intros H. induction pre as [|c pre IH]; [exact H|].
  cbn [app includes]. rewrite IH. apply orb_true_r.
Qed.

(** The "current price" pattern starts with a letter c, in either case. *)
Lemma run_current_fail (c : char) (s : jsstring) :
  (c =? ch "c")%N || (c =? ch "C")%N = false ->
  run reCurrentPrice (c :: s, []) = [].
Proof.
  intros Hc. apply orb_false_iff in Hc. destruct Hc as [Hl Hu].
  apply N.eqb_neq in Hl, Hu. change (ch "c") with 99%N in Hl.
  change (ch "C") with 67%N in Hu.
  assert ((foldCase c =? foldCase 99)%N = false) as Hf.
  { apply N.eqb_neq. change (foldCase 99) with 99%N. unfold foldCase, isUpper, between.
    destruct (65 <=? c)%N eqn:E1; destruct (c <=? 90)%N eqn:E2; cbn [andb]; lia. }
  unfold reCurrentPrice.
  change (seq [LitI "current"; Plus space; LitI "price"; Plus space; Opt (the "$");
               Group 1 (Plus digit); Opt (the "."); Group 2 (Upto2 digit)])
    with (Seq (LitI "current")
              (seq [Plus space; LitI "price"; Plus space; Opt (the "$");
                    Group 1 (Plus digit); Opt (the "."); Group 2 (Upto2 digit)])).
  apply run_seq_fail.
  change (LitI "current")
    with (Seq (Chr (fun x => (foldCase x =? foldCase 99)%N)) (LitI "urrent")).
  rewrite run_seq_chr. now rewrite Hf.
Qed.

Lemma digit_not_space (c : char) : isDigit c = true -> isSpace c = false.
Proof.
  unfold isDigit, between. intros H. apply andb_true_iff in H.
  destruct H as [Hlo Hhi]. apply N.leb_le in Hlo, Hhi.
  assert (c = 48 \/ c = 49 \/ c = 50 \/ c = 51 \/ c = 52 \/ c = 53 \/ c = 54
          \/ c = 55 \/ c = 56 \/ c = 57)%N as Hc by lia.
  repeat destruct Hc as [->|Hc]; try reflexivity. now subst c.
Qed.

Lemma digit_first (s : jsstring) :
  startsIn isDigit s = true ->
  startsIn isSpace s = false /\ startsIn (N.eqb (ch "$")) s = false.
Proof.
  destruct s as [|d s]; [discriminate|]. cbn [startsIn]. intros Hd.
  split; [now apply digit_not_space|].
  unfold isDigit, between in Hd. apply andb_true_iff in Hd.
  destruct Hd as [Hlo _]. apply N.leb_le in Hlo.
  apply N.eqb_neq. change (ch "$") with 36%N. lia.
Qed.

(** [\$?] before a digit. *)
Lemma run_sign (sign s : jsstring) (caps : captures) :
  sign = [] \/ sign = js "$" -> startsIn isDigit s = true ->
  hd_error (run (Opt (the "$")) (sign ++ s, caps)) = Some (s, caps).
Proof.
  intros [-> | ->] Hs.
  - unfold the. rewrite run_opt_skip; [reflexivity|]. apply run_chr_miss.
    exact (proj2 (digit_first _ Hs)).
  - apply run_opt_hd. reflexivity.
Qed.

(** The "current price" pattern on a text with the phrase, an optional
    dollar sign, the dollars, a dot and the cents, after a prefix without
    the letter c. *)
Lemma exec_current_price (pre sign D CC rest : jsstring) :
  forallb (fun c => negb ((c =? ch "c")%N || (c =? ch "C")%N)) pre = true ->
  sign = [] \/ sign = js "$" ->
  D <> [] -> forallb isDigit D = true ->
  forallb isDigit CC = true -> (length CC <= 2)%nat ->
  (length CC = 2%nat \/ startsIn isDigit rest = false) ->
  exec reCurrentPrice (pre ++ js "current price " ++ sign ++ D ++ js "." ++ CC ++ rest)
  = Some [(2%nat, CC); (1%nat, D)].
Proof.
  intros Hpre Hsign Hne HD HCC Hlen Hstop. induction pre as [|c pre IH].
  - cbn [app].
    change (js "current price " ++ sign ++ D ++ js "." ++ CC ++ rest)
      with (js "current" ++ [32%N] ++ js "price" ++ [32%N] ++ sign
              ++ D ++ [ch "."] ++ CC ++ rest).
    apply (exec_here _ _ (rest, [(2%nat, CC); (1%nat, D)])).
    unfold reCurrentPrice. cbn [seq].
    assert (startsIn isDigit (D ++ [ch "."] ++ CC ++ rest) = true) as Hdig.
    { destruct D as [|d D]; [congruence|]. simpl in HD |- *.
      apply andb_true_iff in HD. exact (proj1 HD). }
    assert (startsIn isSpace (sign ++ D ++ [ch "."] ++ CC ++ rest) = false) as Hsp.
    { destruct Hsign as [-> | ->]; [|reflexivity].
      exact (proj1 (digit_first _ Hdig)). }
    eapply run_seq_hd; [rewrite lit_current; reflexivity|].
    eapply run_seq_hd; [apply run_plus_chr_hd; [discriminate|reflexivity|reflexivity]|].
    eapply run_seq_hd; [rewrite lit_price; reflexivity|].
    eapply run_seq_hd; [apply run_plus_chr_hd; [discriminate|reflexivity|exact Hsp]|].
    eapply run_seq_hd; [now apply run_sign|].
    eapply run_seq_hd;
      [apply (run_group_consumed 1 _ D), run_plus_chr_hd;
         [exact Hne|exact HD|reflexivity]|].
    eapply run_seq_hd; [apply run_opt_hd; reflexivity|].
    apply (run_group_consumed 2 _ CC rest). now apply run_upto2_digits.
  - simpl in Hpre. apply andb_true_iff in Hpre. destruct Hpre as [Hc Hpre].
    apply negb_true_iff in Hc. cbn [app]. rewrite exec_next; [now apply IH|].
    now apply run_current_fail.
Qed.

(** The same without a dot: the cents are the empty string. *)
Lemma exec_current_price_whole (pre sign D rest : jsstring) :
  forallb (fun c => negb ((c =? ch "c")%N || (c =? ch "C")%N)) pre = true ->
  sign = [] \/ sign = js "$" ->
  D <> [] -> forallb isDigit D = true ->
  startsIn (fun c => isDigit c || (c =? ch ".")%N) rest = false ->
  exec reCurrentPrice (pre ++ js "current price " ++ sign ++ D ++ rest)
  = Some [(2%nat, []); (1%nat, D)].
Proof.
  intros Hpre Hsign Hne HD Hstop.
  assert (startsIn isDigit rest = false /\ startsIn (N.eqb (ch ".")) rest = false)
    as [Hdig Hdot].
  { destruct rest as [|c rest]; [auto|]. unfold startsIn in *.
    apply orb_false_iff in Hstop. destruct Hstop as [H1 H2].
    split; [exact H1|]. rewrite N.eqb_sym. exact H2. }
  induction pre as [|c pre IH].
  - cbn [app].
    change (js "current price " ++ sign ++ D ++ rest)
      with (js "current" ++ [32%N] ++ js "price" ++ [32%N] ++ sign ++ D ++ rest).
    apply (exec_here _ _ (rest, [(2%nat, []); (1%nat, D)])).
    unfold reCurrentPrice. cbn [seq].
    assert (startsIn isDigit (D ++ rest) = true) as Hfirst.
    { destruct D as [|d D]; [congruence|]. simpl in HD |- *.
      apply andb_true_iff in HD. exact (proj1 HD). }
    assert (startsIn isSpace (sign ++ D ++ rest) = false) as Hsp.
    { destruct Hsign as [-> | ->]; [|reflexivity].
      exact (proj1 (digit_first _ Hfirst)). }
    eapply run_seq_hd; [rewrite lit_current; reflexivity|].
    eapply run_seq_hd; [apply run_plus_chr_hd; [discriminate|reflexivity|reflexivity]|].
    eapply run_seq_hd; [rewrite lit_price; reflexivity|].
    eapply run_seq_hd; [apply run_plus_chr_hd; [discriminate|reflexivity|exact Hsp]|].
    eapply run_seq_hd; [now apply run_sign|].
    eapply run_seq_hd;
      [apply (run_group_consumed 1 _ D), run_plus_chr_hd;
         [exact Hne|exact HD|exact Hdig]|].
    eapply run_seq_hd.
    { unfold the. rewrite run_opt_skip; [reflexivity|]. now apply run_chr_miss. }
    apply (run_group_consumed 2 _ [] rest).
    apply (run_upto2_digits [] rest); [reflexivity|simpl; lia|now right].
  - simpl in Hpre. apply andb_true_iff in Hpre. destruct Hpre as [Hc Hpre].
    apply negb_true_iff in Hc. cbn [app]. rewrite exec_next; [now apply IH|].
    now apply run_current_fail.
Qed.

End CurrentPrice.

(** ** Digit runs and their values *)

Section DigitFacts.

Lemma takeWhile_dropWhile (f : char -> bool) (s : jsstring) :
  takeWhile f s ++ dropWhile f s = s.
Proof.
  induction s as [|c s IH]; simpl; [reflexivity|].
  destruct (f c); simpl; [now rewrite IH|reflexivity].
Qed.

Lemma takeWhile_all (f : char -> bool) (s : jsstring) :
  forallb f (takeWhile f s) = true.
Proof.
  induction s as [|c s IH]; simpl; [reflexivity|].
  destruct (f c) eqn:E; simpl; [now rewrite E|reflexivity].
Qed.

Lemma dropWhile_stops (f : char -> bool) (s : jsstring) :
  startsIn f (dropWhile f s) = false.
Proof.
  induction s as [|c s IH]; simpl; [reflexivity|].
  destruct (f c) eqn:E; simpl; [exact IH|exact E].
Qed.

Lemma takeWhile_run (f : char -> bool) (D rest : jsstring) :
  forallb f D = true -> startsIn f rest = false -> takeWhile f (D ++ rest) = D.
Proof.
  intros HD Hrest. induction D as [|c D IH]; simpl.
  - destruct rest as [|c rest]; [reflexivity|]. simpl in Hrest.
    simpl. now rewrite Hrest.
  - simpl in HD. apply andb_true_iff in HD. destruct HD as [Hc HD].
    rewrite Hc. now rewrite IH.
Qed.

(** A text with a digit has a non-empty first digit run. *)
Lemma first_digit_run (s : jsstring) :
  existsb isDigit s = true ->
  takeWhile isDigit (dropWhile notDigit s) <> [].
Proof.
  unfold notDigit. induction s as [|c s IH]; simpl; [discriminate|].
  destruct (isDigit c) eqn:E; simpl.
  - rewrite E. discriminate.
  - exact IH.
Qed.

Lemma digitsValue_snoc (s : jsstring) (c : char) :
  digitsValue (s ++ [c]) = (10 * digitsValue s + (c - 48))%N.
Proof. unfold digitsValue. now rewrite fold_left_app. Qed.

Lemma digitsValue_bound (s : jsstring) :
  forallb isDigit s = true -> (digitsValue s < 10 ^ N.of_nat (length s))%N.
Proof.
  induction s as [|c s IH] using rev_ind; intros H.
  - reflexivity.
  - rewrite forallb_app in H. apply andb_true_iff in H. destruct H as [Hs Hc].
    simpl in Hc. rewrite andb_true_r in Hc.
    unfold isDigit, between in Hc. apply andb_true_iff in Hc.
    destruct Hc as [Hlo Hhi]. apply N.leb_le in Hlo, Hhi.
    specialize (IH Hs). rewrite digitsValue_snoc, length_app. simpl length.
    replace (N.of_nat (length s + 1)) with (N.succ (N.of_nat (length s))) by lia.
    rewrite N.pow_succ_r'. lia.
Qed.

Lemma parseInt_digits (D : jsstring) :
  D <> [] -> forallb isDigit D = true -> parseInt D = of_N (digitsValue D).
Proof.
  intros Hne HD. unfold parseInt.
  rewrite <- (app_nil_r D) at 1.
  rewrite (takeWhile_run isDigit D [] HD eq_refl).
  destruct D; [congruence|reflexivity].
Qed.

Lemma of_N_small (n : N) :
  (n <= 10 ^ 300)%N -> of_N n = Finite (round64 (inject_Z (Z.of_N n))).
Proof.
  intros H. apply mk_below, small_below. rewrite <- Zle_Qle.
  apply Z.le_trans with (Z.of_N (10 ^ 300)); [lia|]. 
  vm_compute. discriminate.
Qed.

(** A natural number up to 2^53 is a double. *)
Lemma of_N_exact (n : N) :
  (n <= 2 ^ 53)%N -> of_N n = Finite (inject_Z (Z.of_N n)).
Proof.
  intros H. rewrite of_N_small.
  - f_equal. apply round64_integer. split; [lia|].
    change (2 ^ 53)%Z with (Z.of_N (2 ^ 53)). lia.
  - apply N.le_trans with (2 ^ 53)%N; [exact H|]. vm_compute. discriminate.
Qed.

Lemma of_N_not_NaN (n : N) : isNaN (of_N n) = false.
Proof. apply mk_not_NaN. Qed.

(** Cents below 100, divided by 100. *)
Lemma cents_quotient (b : N) :
  (b < 100)%N ->
  JsNumber.div (of_N b) (Finite 100) = Finite (round64 (inject_Z (Z.of_N b) / 100))
  /\ 0 <= round64 (inject_Z (Z.of_N b) / 100)
  /\ round64 (inject_Z (Z.of_N b) / 100) <= 1.
Proof.
  intros Hb.
  assert (0 <= inject_Z (Z.of_N b)) as Hb0 by apply inject_N_nonneg.
  assert (inject_Z (Z.of_N b) <= 100) as Hb1
    by (change 100 with (inject_Z 100); rewrite <- Zle_Qle; lia).
  assert (0 <= inject_Z (Z.of_N b) / 100 /\ inject_Z (Z.of_N b) / 100 <= 1)
    as [Hq0 Hq1].
  { unfold Qdiv. change (/ 100) with (1 # 100). split; lra. }
  split; [|now apply round64_unit].
  rewrite (of_N_exact b).
  2:{ apply N.le_trans with 100%N; [lia|]. vm_compute. discriminate. }
  unfold JsNumber.div. change (isZero 100) with false. cbv iota.
  apply mk_below, small_below. eapply Qle_trans; [exact Hq1|]. discriminate.
Qed.

(** Dollars of at most 300 digits and cents below 100: the quotient is
    rounded, then the sum. *)
Lemma dollars_plus_cents (a b : N) :
  (a < 10 ^ 300)%N -> (b < 100)%N ->
  add (of_N a) (JsNumber.div (of_N b) (Finite 100))
  = Finite (round64 (round64 (inject_Z (Z.of_N a))
                     + round64 (inject_Z (Z.of_N b) / 100))).
Proof.
  intros Ha Hb.
  destruct (cents_quotient b Hb) as (-> & Hc0 & Hc1).
  assert (0 <= inject_Z (Z.of_N a)) as Ha0 by apply inject_N_nonneg.
  assert (Z.of_N (10 ^ 300) = 10 ^ 300)%Z as Hof by (vm_compute; reflexivity).
  assert (inject_Z (Z.of_N a) <= inject_Z (10 ^ 300)) as Ha1
    by (rewrite <- Zle_Qle; lia).
  pose proof (round64_mono _ _ Ha0 Ha1) as Hr.
  assert (round64 (inject_Z (10 ^ 300)) + 1 <= inject_Z (10 ^ 301)) as Hroom
    by (vm_compute; discriminate).
  rewrite (of_N_small a) by lia.
  unfold add. apply mk_below, small_below. lra.
Qed.

(** The same with dollars that a double holds exactly. *)
Lemma dollars_plus_cents_exact (a b : N) :
  (a <= 2 ^ 53)%N -> (b < 100)%N ->
  add (of_N a) (JsNumber.div (of_N b) (Finite 100))
  = Finite (round64 (inject_Z (Z.of_N a) + round64 (inject_Z (Z.of_N b) / 100))).
Proof.
  intros Ha Hb. rewrite dollars_plus_cents; [|(* below 10^300 *)|exact Hb].
  - rewrite round64_integer; [reflexivity|]. split; [lia|].
    change (2 ^ 53)%Z with (Z.of_N (2 ^ 53)). lia.
  - eapply N.le_lt_trans; [exact Ha|]. vm_compute. reflexivity.
Qed.

(** Whole dollars that a double holds exactly. *)
Lemma dollars_without_cents (a : N) :
  (a <= 2 ^ 53)%N ->
  add (of_N a) (JsNumber.div (Finite 0) (Finite 100)) = Finite (inject_Z (Z.of_N a)).
Proof.
  intros Ha. change (Finite 0) with (Finite (inject_Z (Z.of_N 0))).
  rewrite <- (of_N_exact 0) by (vm_compute; discriminate).
  rewrite dollars_plus_cents_exact; [|exact Ha|reflexivity].
  f_equal.
  assert (round64 (inject_Z (Z.of_N 0) / 100) = 0) as -> by (vm_compute; reflexivity).
  rewrite (round64_compat _ (inject_Z (Z.of_N a))) by ring.
  apply round64_integer. split; [lia|].
  change (2 ^ 53)%Z with (Z.of_N (2 ^ 53)). lia.
Qed.

Lemma dollars_plus_cents_not_NaN (a b : N) :
  (b < 100)%N ->
  isNaN (add (of_N a) (JsNumber.div (of_N b) (Finite 100))) = false.
Proof.
  intros Hb. destruct (cents_quotient b Hb) as (-> & _ & _).
  unfold add, of_N. destruct (mk (inject_Z (Z.of_N a))) eqn:E.
  - pose proof (mk_not_NaN (inject_Z (Z.of_N a))) as H. rewrite E in H. discriminate.
  - reflexivity.
  - apply mk_not_NaN.
Qed.

End DigitFacts.

(** ** Prices from text *)

Section PriceTheorems.

Lemma padEnd_digits (f : jsstring) :
  f <> [] -> forallb isDigit f = true -> (length f <= 2)%nat ->
  padEnd f 2 (ch "0") <> []
  /\ forallb isDigit (padEnd f 2 (ch "0")) = true
  /\ length (padEnd f 2 (ch "0")) = 2%nat.
Proof.
  intros Hne Hd Hlen. destruct f as [|c1 [|c2 [|c3 f]]]; simpl in Hlen; try lia;
    try congruence; unfold padEnd; simpl in *.
  - rewrite andb_true_r in Hd. rewrite Hd. repeat split. discriminate.
  - rewrite Hd. repeat split. discriminate.
Qed.

Lemma cents_below_100 (f : jsstring) :
  f <> [] -> forallb isDigit f = true -> (length f <= 2)%nat ->
  parseInt (padEnd f 2 (ch "0")) = of_N (digitsValue (padEnd f 2 (ch "0")))
  /\ (digitsValue (padEnd f 2 (ch "0")) < 100)%N.
Proof.
  intros Hne Hd Hlen.
  destruct (padEnd_digits f Hne Hd Hlen) as (Hp & Hpd & Hpl). split.
  - now apply parseInt_digits.
  - pose proof (digitsValue_bound _ Hpd) as H. rewrite Hpl in H. exact H.
Qed.

Lemma of_N_zero : of_N 0 = Finite 0.
Proof. rewrite of_N_exact; [reflexivity|]. apply N.le_0_l. Qed.

Lemma fraction_digits (rest f : jsstring) :
  fractionAfter rest = Some f ->
  f <> [] /\ forallb isDigit f = true /\ (length f <= 2)%nat.
Proof.
  unfold fractionAfter. destruct rest as [|dot [|c1 more]]; try discriminate.
  destruct (ch "." =? dot)%N; [|discriminate]. cbn [andb].
  destruct (isDigit c1) eqn:H1; [|discriminate].
  intros [= <-]. split; [discriminate|].
  destruct more as [|c2 more]; cbn [startsIn].
  - simpl. rewrite H1. split; [reflexivity|lia].
  - destruct (isDigit c2) eqn:H2; simpl; rewrite H1, ?H2; split; try reflexivity; lia.
Qed.

Lemma centsValue_below_100 (fraction : option jsstring) (rest : jsstring) :
  fraction = fractionAfter rest -> (centsValue fraction < 100)%N.
Proof.
  intros ->. destruct (fractionAfter rest) as [f|] eqn:E; simpl; [|lia].
  destruct (fraction_digits rest f E) as (Hne & Hd & Hlen).
  now apply cents_below_100.
Qed.

(** The price computed from the captures of the generic pattern. *)
Lemma priceOfMatch_captures (D rest : jsstring) :
  D <> [] -> forallb isDigit D = true ->
  priceOfMatch (priceCaptures D rest)
  = add (of_N (digitsValue D))
        (JsNumber.div (of_N (centsValue (fractionAfter rest))) (Finite 100)).
Proof.
  intros Hne HD. unfold priceOfMatch, centsOf, priceCaptures.
  destruct (fractionAfter rest) as [f|] eqn:E; cbn [group Nat.eqb centsValue].
  - destruct (fraction_digits rest f E) as (Hfne & Hfd & Hflen).
    rewrite (parseInt_digits D Hne HD).
    destruct f as [|c f]; [congruence|]. cbn [truthy].
    now rewrite (proj1 (cents_below_100 (c :: f) Hfne Hfd Hflen)).
  - rewrite (parseInt_digits D Hne HD), of_N_zero. reflexivity.
Qed.

(** The price computed from the captures of the "current price" pattern. *)
Lemma priceOfMatch_current (D CC : jsstring) :
  D <> [] -> forallb isDigit D = true ->
  forallb isDigit CC = true -> (length CC <= 2)%nat ->
  priceOfMatch [(2%nat, CC); (1%nat, D)]
  = add (of_N (digitsValue D))
        (JsNumber.div (of_N (digitsValue (padEnd CC 2 (ch "0")))) (Finite 100)).
Proof.
  intros Hne HD HCC Hlen. unfold priceOfMatch, centsOf. cbn [group Nat.eqb].
  rewrite (parseInt_digits D Hne HD).
  destruct CC as [|c CC]; cbn [truthy].
  - change (digitsValue (padEnd [] 2 (ch "0"))) with 0%N. now rewrite of_N_zero.
  - now rewrite (proj1 (cents_below_100 (c :: CC) ltac:(discriminate) HCC Hlen)).
Qed.

Lemma run_length_bound (D : jsstring) :
  forallb isDigit D = true -> (length D <= 300)%nat ->
  (digitsValue D < 10 ^ 300)%N.
Proof.
  intros HD Hlen. eapply N.lt_le_trans; [apply digitsValue_bound; exact HD|].
  apply N.pow_le_mono_r; lia.
Qed.

End PriceTheorems.

(** C3, as stated, fails on "exactly": the quotient cents/100 and the sum are
    each rounded to a double.  For "current price $1.14" the code returns
    1.1400000000000001, which is neither the rational 1 + 14/100 nor the
    number 1.14, the double nearest to it. *)
Lemma C3_price_is_not_the_decimal :
  includes (js "current price $1.14") (js "current price") = true
  /\ priceFromText (js "current price $1.14")
     = Some (Finite (2567051787601183 # 2251799813685248))
  /\ Qeq_bool (2567051787601183 # 2251799813685248) (1 + 14 / 100) = false
  /\ parseFloat (js "1.14") = Finite (5134103575202365 # 4503599627370496)
  /\ strictEq (Finite (2567051787601183 # 2251799813685248))
              (Finite (5134103575202365 # 4503599627370496)) = false.
Proof. repeat split; vm_compute; reflexivity. Qed.

(** C3, amended.  When the price text contains "current price" and the
    pattern matches with dollars D and cents CC, the price is the value of
    [D + CC / 100] in double arithmetic, where a single captured digit is
    first padded on the right ("5" is 50 cents) and empty cents count as 0.
    In particular, for a text in which the phrase (after a prefix without
    the letter c) is followed by "$D.CC" or "D.CC" and no further digit of
    the cents, with dollars that a double holds exactly, the price is the
    double nearest to D + c, for c the double nearest to CC/100; without
    cents it is D.  So "current price $5.5" gives 5.5 and "current price $5"
    gives 5. *)
Theorem C3_current_price_is_dollars_plus_cents :
  (forall text m D CC,
      includes text (js "current price") = true ->
      exec reCurrentPrice text = Some m ->
      group 1 m = Some D -> group 2 m = Some CC ->
      priceFromText text
      = Some (add (parseInt D)
                  (JsNumber.div
                     (if truthy CC then parseInt (padEnd CC 2 (ch "0")) else Finite 0)
                     (Finite 100))))
  /\ (forall pre sign D CC rest,
         forallb (fun c => negb ((c =? ch "c")%N || (c =? ch "C")%N)) pre = true ->
         sign = [] \/ sign = js "$" ->
         D <> [] -> forallb isDigit D = true -> (digitsValue D <= 2 ^ 53)%N ->
         forallb isDigit CC = true -> (length CC <= 2)%nat ->
         (length CC = 2%nat \/ startsIn isDigit rest = false) ->
         priceFromText (pre ++ js "current price " ++ sign ++ D ++ js "." ++ CC ++ rest)
         = Some (Finite (round64
                           (inject_Z (Z.of_N (digitsValue D))
                            + round64 (inject_Z (Z.of_N (digitsValue (padEnd CC 2 (ch "0"))))
                                       / 100)))))
  /\ (forall pre sign D c rest,
         forallb (fun c => negb ((c =? ch "c")%N || (c =? ch "C")%N)) pre = true ->
         sign = [] \/ sign = js "$" ->
         D <> [] -> forallb isDigit D = true -> (digitsValue D <= 2 ^ 53)%N ->
         isDigit c = true -> startsIn isDigit rest = false ->
         priceFromText (pre ++ js "current price " ++ sign ++ D ++ js "." ++ [c] ++ rest)
         = Some (Finite (round64
                           (inject_Z (Z.of_N (digitsValue D))
                            + round64 (inject_Z (Z.of_N ((c - 48) * 10)) / 100)))))
  /\ (forall pre sign D rest,
         forallb (fun c => negb ((c =? ch "c")%N || (c =? ch "C")%N)) pre = true ->
         sign = [] \/ sign = js "$" ->
         D <> [] -> forallb isDigit D = true -> (digitsValue D <= 2 ^ 53)%N ->
         startsIn (fun c => isDigit c || (c =? ch ".")%N) rest = false ->
         priceFromText (pre ++ js "current price " ++ sign ++ D ++ rest)
         = Some (Finite (inject_Z (Z.of_N (digitsValue D)))))
  /\ priceFromText (js "current price $5.5") = Some (Finite (11 # 2))
  /\ priceFromText (js "current price $5") = Some (Finite 5).
Proof.
  assert (forall pre s, includes (pre ++ js "current price " ++ s) (js "current price")
                        = true) as Hphrase.
  { intros pre s. apply includes_app. reflexivity. }
  assert (forall pre sign D CC rest,
             forallb (fun c => negb ((c =? ch "c")%N || (c =? ch "C")%N)) pre = true ->
             sign = [] \/ sign = js "$" ->
             D <> [] -> forallb isDigit D = true -> (digitsValue D <= 2 ^ 53)%N ->
             forallb isDigit CC = true -> (length CC <= 2)%nat ->
             (length CC = 2%nat \/ startsIn isDigit rest = false) ->
             priceFromText (pre ++ js "current price " ++ sign ++ D ++ js "." ++ CC ++ rest)
             = Some (Finite (round64
                               (inject_Z (Z.of_N (digitsValue D))
                                + round64 (inject_Z (Z.of_N (digitsValue (padEnd CC 2 (ch "0"))))
                                           / 100)))))
    as Hshape.
  { intros pre sign D CC rest Hpre Hsign Hne HD Hval HCC Hclen Hstop.
    unfold priceFromText. rewrite Hphrase.
    rewrite (exec_current_price pre sign D CC rest Hpre Hsign Hne HD HCC Hclen Hstop).
    rewrite (priceOfMatch_current D CC Hne HD HCC Hclen).
    rewrite dollars_plus_cents_exact; [reflexivity|exact Hval|].
    destruct CC as [|c CC]; [reflexivity|].
    now apply cents_below_100. }
  split; [|split; [exact Hshape|split; [|split; [|split]]]].
  - intros text m D CC Hinc Hm H1 H2. unfold priceFromText.
    rewrite Hinc, Hm. unfold priceOfMatch, centsOf. now rewrite H1, H2.
  - intros pre sign D c rest Hpre Hsign Hne HD Hval Hc Hstop.
    rewrite (Hshape pre sign D [c] rest Hpre Hsign Hne HD Hval);
      [|simpl; now rewrite Hc|simpl; lia|now right].
    assert (digitsValue (padEnd [c] 2 (ch "0")) = ((c - 48) * 10)%N) as ->;
      [|reflexivity].
    unfold padEnd, digitsValue. cbn [length Nat.sub repeat app fold_left].
    change (ch "0") with 48%N. lia.
  - intros pre sign D rest Hpre Hsign Hne HD Hval Hstop. unfold priceFromText.
    rewrite Hphrase.
    rewrite (exec_current_price_whole pre sign D rest Hpre Hsign Hne HD Hstop).
    rewrite (priceOfMatch_current D [] Hne HD eq_refl ltac:(simpl; lia)).
    change (digitsValue (padEnd [] 2 (ch "0"))) with 0%N. rewrite of_N_zero.
    now rewrite dollars_without_cents.
  - vm_compute. reflexivity.
  - vm_compute. reflexivity.
Qed.

(** A phrase in the middle of the text with one digit of cents, and a price
    without a dollar sign. *)
Lemma C3_current_price_is_dollars_plus_cents_witness :
  priceFromText (js "Now current price $12.5 each") = Some (Finite (25 # 2))
  /\ priceFromText (js "was $9, current price 1299.99")
     = Some (Finite (round64 (1299 + round64 (99 / 100)))).
Proof.
  pose proof C3_current_price_is_dollars_plus_cents as (Hgeneral & Hshape & _).
  split.
  - rewrite (Hgeneral (js "Now current price $12.5 each")
                      [(2%nat, js "5"); (1%nat, js "12")] (js "12") (js "5"));
      vm_compute; reflexivity.
  - change (js "was $9, current price 1299.99")
      with (js "was $9, " ++ js "current price " ++ [] ++ js "1299" ++ js "."
              ++ js "99" ++ []).
    rewrite (Hshape (js "was $9, ") [] (js "1299") (js "99") []);
      [vm_compute; reflexivity|reflexivity|now left|discriminate|reflexivity
      |vm_compute; discriminate|reflexivity|simpl; lia|now left].
Defined.

(** C8, as stated, fails on "finite": a text of 400 digits without the
    phrase and without a dollar sign parses to Infinity. *)
Lemma C8_generic_price_may_be_infinite :
  includes (repeat (ch "9") 400) (js "current price") = false
  /\ existsb isDigit (repeat (ch "9") 400) = true
  /\ existsb (N.eqb (ch "$")) (repeat (ch "9") 400) = false
  /\ priceFromText (repeat (ch "9") 400) = Some Infinity
  /\ isFinite Infinity = false.
Proof. repeat split; vm_compute; reflexivity. Qed.

(** C8, amended.  A text without the phrase "current price" and with at
    least one digit always yields a price that is neither null nor NaN,
    whether or not it contains a dollar sign: the first digit run gives the
    dollars and one or two digits directly after a dot behind it give the
    cents.  The price is the value of [dollars + cents / 100] in double
    arithmetic: a finite number when the digit run has at most 300 digits (a
    longer one may overflow to Infinity), and the double nearest to
    dollars + c, for c the double nearest to cents/100, when a double holds
    the dollars exactly. *)
Theorem C8_generic_price_from_first_digit_run (priceText : jsstring) :
  includes priceText (js "current price") = false ->
  existsb isDigit priceText = true ->
  let dollars := digitsValue (firstDigitRun priceText) in
  let cents := centsValue (fractionAfter (afterFirstDigitRun priceText)) in
  let price := add (of_N dollars) (JsNumber.div (of_N cents) (Finite 100)) in
  priceFromText priceText = Some price
  /\ isNaN price = false
  /\ ((length (firstDigitRun priceText) <= 300)%nat ->
      price = Finite (round64 (round64 (inject_Z (Z.of_N dollars))
                               + round64 (inject_Z (Z.of_N cents) / 100))))
  /\ ((dollars <= 2 ^ 53)%N ->
      price = Finite (round64 (inject_Z (Z.of_N dollars)
                               + round64 (inject_Z (Z.of_N cents) / 100)))).
Proof.
  intros Hphrase Hdigit dollars cents price.
  set (pre := takeWhile notDigit priceText).
  set (D := firstDigitRun priceText).
  set (rest := afterFirstDigitRun priceText).
  assert (priceText = pre ++ D ++ rest) as Hsplit.
  { unfold pre, D, rest, firstDigitRun, afterFirstDigitRun.
    now rewrite !takeWhile_dropWhile. }
  assert (D <> []) as Hne by (apply first_digit_run; exact Hdigit).
  assert (forallb isDigit D = true) as HD by apply takeWhile_all.
  assert (forallb notDigit pre = true) as Hpre by apply takeWhile_all.
  assert (startsIn isDigit rest = false) as Hstop by apply dropWhile_stops.
  assert (cents < 100)%N as Hcents by (now apply (centsValue_below_100 _ rest)).
  split; [|split; [|split]].
  - unfold priceFromText. rewrite Hphrase. rewrite Hsplit at 1.
    rewrite (exec_price_first_run pre D rest Hpre Hne HD Hstop).
    now rewrite (priceOfMatch_captures D rest Hne HD).
  - now apply dollars_plus_cents_not_NaN.
  - intros Hlen. apply dollars_plus_cents; [|exact Hcents].
    now apply run_length_bound.
  - intros Hval. now apply dollars_plus_cents_exact.
Qed.

(** A price text without any dollar sign. *)
Lemma C8_generic_price_from_first_digit_run_witness :
  priceFromText (js "Now 12.5 each") = Some (Finite (25 # 2))
  /\ isNaN (Finite (25 # 2)) = false
  /\ add (of_N 12) (JsNumber.div (of_N 50) (Finite 100))
     = Finite (round64 (round64 (inject_Z 12) + round64 (inject_Z 50 / 100)))
  /\ add (of_N 12) (JsNumber.div (of_N 50) (Finite 100))
     = Finite (round64 (inject_Z 12 + round64 (inject_Z 50 / 100))).
Proof.
  destruct (C8_generic_price_from_first_digit_run (js "Now 12.5 each")
              ltac:(vm_compute; reflexivity) ltac:(vm_compute; reflexivity))
    as (Hprice & Hnan & Hfin & Hexact).
  split; [|split; [|split]].
  - rewrite Hprice. vm_compute. reflexivity.
  - reflexivity.
  - apply Hfin. vm_compute. lia.
  - apply Hexact. vm_compute. discriminate.
Defined.

(** ** The item identifier *)

Section ItemId.

Context {Element : Type} {host : Host Element}.

Lemma firstId_cons (pattern : regex) (rest : list regex) (url : jsstring) :
  firstId (pattern :: rest) url
  = match idBy pattern url with
    | Some id => Some id
    | None => firstId rest url
    end.
Proof.
  unfold idBy. simpl. destruct (exec pattern url) as [m|]; [|reflexivity].
  destruct (group 1 m) as [[|c id]|]; reflexivity.
Qed.

Lemma productIdOf_from_url (element : Element) (url id : jsstring) :
  url <> [] -> firstId idPatterns url = Some id ->
  productIdOf element url = Ok (Some id).
Proof.
  intros Hne Hid. unfold productIdOf.
  rewrite (proj2 (truthy_nonempty url) Hne). now rewrite Hid.
Qed.

Lemma productIdOf_from_attributes (element : Element) (url : jsstring) :
  url <> [] -> firstId idPatterns url = None ->
  productIdOf element url
  = (itemId <- getAttribute element "data-item-id" ;;
     match orUndefined itemId with
     | Some id => Ok (Some id)
     | None =>
         productId <- getAttribute element "data-product-id" ;;
         Ok (orUndefined productId)
     end).
Proof.
  intros Hne Hid. unfold productIdOf.
  rewrite (proj2 (truthy_nonempty url) Hne). now rewrite Hid.
Qed.

Lemma urlOf_resolved (element linkElement : Element) (href resolved : jsstring) :
  querySelector element sel_link = Ok (Some linkElement) ->
  getAttribute linkElement "href" = Ok (Some href) -> href <> [] ->
  newURL_href href = Ok resolved ->
  urlOf element = Ok resolved.
Proof.
  intros Hq Hh Hne Hr. unfold urlOf. rewrite Hq. cbn [bind]. rewrite Hh.
  cbn [bind]. destruct href as [|c href]; [congruence|].
  cbn [orElse truthy]. exact Hr.
Qed.

End ItemId.

(** C7.  With the link "/ip/Some-Title/123456" resolved against
    https://www.walmart.com, the record carries the absolute URL and the
    identifier "123456".  The identifier is the capture of the first of the
    three patterns, in their order (after a title slug, directly after /ip/,
    any numeric path segment), that matches the resolved URL; later patterns
    and the data attributes of the element play no part once a pattern has
    matched, and the attributes are read only when none matches. *)
Theorem C7_item_id_from_resolved_url
        {Element : Type} {host : Host Element} (element : Element) :
  (forall linkElement t p img rating cnt,
      titleOf element = Ok t -> t <> [] ->
      priceOf element = Ok (Some p) -> isNaN p = false ->
      querySelector element sel_link = Ok (Some linkElement) ->
      getAttribute linkElement "href" = Ok (Some (js "/ip/Some-Title/123456")) ->
      newURL_href (js "/ip/Some-Title/123456")
      = Ok (js "https://www.walmart.com/ip/Some-Title/123456") ->
      imageOf element = Ok img -> ratingOf element = Ok rating ->
      reviewCountOf element = Ok cnt ->
      extractWalmartSearchResult element
      = Ok (Some {| title := t; price := p; image := img;
                    url := js "https://www.walmart.com/ip/Some-Title/123456";
                    marketplace := walmart;
                    item_id := Some (js "123456");
                    ratings := {| average := rating; count := cnt |} |}))
  /\ (forall url,
         firstId idPatterns url
         = match idBy (idPattern 0) url with
           | Some id => Some id
           | None =>
               match idBy (idPattern 1) url with
               | Some id => Some id
               | None => idBy (idPattern 2) url
               end
           end)
  /\ (forall url id,
         url <> [] -> firstId idPatterns url = Some id ->
         productIdOf element url = Ok (Some id))
  /\ (forall url,
         url <> [] -> firstId idPatterns url = None ->
         productIdOf element url
         = (itemId <- getAttribute element "data-item-id" ;;
            match orUndefined itemId with
            | Some id => Ok (Some id)
            | None =>
                productId <- getAttribute element "data-product-id" ;;
                Ok (orUndefined productId)
            end))
  /\ idBy (idPattern 0) (js "https://www.walmart.com/ip/Some-Title/123456")
     = Some (js "123456")
  /\ (idBy (idPattern 0) (js "https://www.walmart.com/ip/123456") = None
      /\ idBy (idPattern 1) (js "https://www.walmart.com/ip/123456")
         = Some (js "123456"))
  /\ (idBy (idPattern 0) (js "https://www.walmart.com/browse/789?page=2") = None
      /\ idBy (idPattern 1) (js "https://www.walmart.com/browse/789?page=2") = None
      /\ idBy (idPattern 2) (js "https://www.walmart.com/browse/789?page=2")
         = Some (js "789"))
  /\ (idBy (idPattern 2) (js "https://www.walmart.com/ip/Some-Title/123456/777")
      = Some (js "777")
      /\ firstId idPatterns (js "https://www.walmart.com/ip/Some-Title/123456/777")
         = Some (js "123456")).
Proof.
  split; [|split; [|split; [|split]]].
  - intros linkElement t p img rating cnt Ht Htne Hp Hpn Hq Hh Hr Himg Hrat Hcnt.
    apply extract_of_body.
    apply extractBody_build; try assumption.
    + now apply truthy_nonempty.
    + now apply (urlOf_resolved element linkElement (js "/ip/Some-Title/123456")).
    + reflexivity.
    + apply productIdOf_from_url; [discriminate|]. vm_compute. reflexivity.
  - intros url. unfold idPatterns, idPattern. cbn [nth].
    rewrite !firstId_cons. cbn [firstId].
    destruct (idBy _ url); [reflexivity|].
    destruct (idBy _ url); [reflexivity|].
    now destruct (idBy _ url).
  - intros url id. apply productIdOf_from_url.
  - intros url. apply productIdOf_from_attributes.
  - repeat split; vm_compute; reflexivity.
Qed.

(** The identifier comes from the URL although the card carries a
    data-item-id; a URL without digits leaves it to the attribute. *)
Lemma C7_item_id_from_resolved_url_witness :
  let card1 := [titleNode; priceNode (js "$7"); linkNode "/ip/Some-Title/123456"] in
  let card2 := [titleNode; priceNode (js "$7"); linkNode "/cp/electronics"] in
  let host :=
    treeHost (pageOf [El "div" [attribute "data-item-id" "999"] card1;
                      El "div" [attribute "data-item-id" "999"] card2]) in
  let element := cardElement [attribute "data-item-id" "999"] card1 in
  let unnumbered := cardElement [attribute "data-item-id" "999"] card2 in
  returned item_id (extractWalmartSearchResult element) = Some (Some (js "123456"))
  /\ returned url (extractWalmartSearchResult element)
     = Some (js "https://www.walmart.com/ip/Some-Title/123456")
  /\ productIdOf unnumbered (js "https://www.walmart.com/cp/electronics")
     = Ok (Some (js "999")).
Proof.
  intros card1 card2 host element unnumbered.
  pose proof (@C7_item_id_from_resolved_url _ host element) as (Hrecord & _).
  pose proof (@C7_item_id_from_resolved_url _ host unnumbered)
    as (_ & _ & _ & Hattrs & _).
  split; [|split].
  - rewrite (Hrecord
               (childElement element "a"
                  [attribute "link-identifier" "linkTest";
                   attribute "href" "/ip/Some-Title/123456"] [])
               (js "Some Title") (Finite 7) None None None);
      try (vm_compute; reflexivity); try discriminate.
  - rewrite (Hrecord
               (childElement element "a"
                  [attribute "link-identifier" "linkTest";
                   attribute "href" "/ip/Some-Title/123456"] [])
               (js "Some Title") (Finite 7) None None None);
      try (vm_compute; reflexivity); try discriminate.
  - rewrite Hattrs; [vm_compute; reflexivity|discriminate|vm_compute; reflexivity].
Defined.

(* ===================================================================== *)
(** * Further properties *)
(* ===================================================================== *)

From Stdlib Require Import Permutation.

(** ** The similarity score: range, extremes, invariances *)

Section SimilarityMore.

Lemma startsWith_refl (w : jsstring) : startsWith w w = true.
Proof.
  induction w as [|c w IH]; simpl; [reflexivity|].
  now rewrite N.eqb_refl, IH.
Qed.

Lemma includes_refl (w : jsstring) : includes w w = true.
Proof. destruct w; simpl; [reflexivity|]. now rewrite N.eqb_refl, startsWith_refl. Qed.

Lemma wordsMatch_refl (w : jsstring) : wordsMatch w w = true.
Proof. unfold wordsMatch. now rewrite includes_refl. Qed.

(** When every word of the first list matches, the count is its length. *)
Lemma matchCount_all (words1 words2 : list jsstring) :
  (forall w, In w words1 -> existsb (wordsMatch w) words2 = true) ->
  matchCount words1 words2 = length words1.
Proof.
  induction words1 as [|w rest IH]; intros H; simpl; [reflexivity|].
  rewrite (H w) by now left. rewrite IH; [reflexivity|].
  intros w' Hin. apply H. now right.
Qed.

Lemma div_same (n : nat) :
  (0 < n)%nat -> JsNumber.div (of_nat n) (of_nat n) = Finite 1.
Proof.
  intros Hpos. rewrite div_counts by lia. f_equal.
  transitivity (round64 1); [apply round64_compat|apply round64_one].
  apply Qmult_inv_r. intros H. unfold Qeq in H. simpl in H.
  destruct (count_bounds n) as [_ Hn]. specialize (Hn Hpos). lia.
Qed.

Lemma div_zero_count (n : nat) :
  (0 < n)%nat -> JsNumber.div (of_nat 0) (of_nat n) = Finite 0.
Proof.
  intros Hpos. rewrite div_counts by lia. reflexivity.
Qed.

Lemma Finite_inj (a b : Q) : Finite a = Finite b -> a = b.
Proof. now intros [= ->]. Qed.

Lemma count_fraction (c : Z) :
  (c <= maxLength)%Z -> (1 # 4294967295) * inject_Z c <= 1.
Proof.
  unfold maxLength. change (2 ^ 32 - 1)%Z with 4294967295%Z. intros H.
  unfold Qle, Qmult, inject_Z. cbn [Qnum Qden]. rewrite Pos.mul_1_r. lia.
Qed.

(** The quotient of two counts is too large to round to 0. *)
Lemma div_counts_zero (m n : nat) :
  (m <= n)%nat -> (0 < n)%nat ->
  JsNumber.div (of_nat m) (of_nat n) = Finite 0 -> m = 0%nat.
Proof.
  intros Hle Hpos. rewrite div_counts by assumption. intros H.
  apply Finite_inj in H.
  destruct (Nat.eq_dec m 0) as [|Hm]; [assumption|exfalso].
  destruct (count_bounds n) as [[_ Hmax] Hn]. specialize (Hn Hpos).
  destruct (count_bounds m) as [_ Hm0]. specialize (Hm0 ltac:(lia)).
  assert (0 < round64 (1 # 4294967295)) as Hleast by (vm_compute; reflexivity).
  assert (1 # 4294967295 <= inject_Z (Z.min (Z.of_nat m) maxLength)
                            / inject_Z (Z.min (Z.of_nat n) maxLength)) as Hq.
  { apply Qle_shift_div_l.
    - change 0 with (inject_Z 0). rewrite <- Zlt_Qlt. exact Hn.
    - apply Qle_trans with 1.
      + apply count_fraction. exact Hmax.
      + change 1 with (inject_Z 1). rewrite <- Zle_Qle. lia. }
  pose proof (round64_mono (1 # 4294967295) _ ltac:(discriminate) Hq) as Hmono.
  rewrite H in Hmono. lra.
Qed.

Lemma similarity_nonempty (title1 title2 : jsstring) :
  title1 <> [] -> title2 <> [] ->
  calculateWalmartTitleSimilarity title1 title2
  = JsNumber.div (of_nat (matchCount (wordsOf title1) (wordsOf title2)))
                 (of_nat (Nat.max (length (wordsOf title1)) (length (wordsOf title2)))).
Proof.
  intros H1 H2. unfold calculateWalmartTitleSimilarity.
  destruct title1; [congruence|]. destruct title2; [congruence|]. reflexivity.
Qed.

End SimilarityMore.

(** X1.  The score is always a number between 0 and 1 or NaN, and it is NaN
    exactly when both titles are non-empty and neither has a word longer than
    two characters. *)
Theorem X1_similarity_range_or_NaN (title1 title2 : jsstring) :
  (calculateWalmartTitleSimilarity title1 title2 = NaN
   <-> title1 <> [] /\ title2 <> [] /\ wordsOf title1 = [] /\ wordsOf title2 = [])
  /\ (calculateWalmartTitleSimilarity title1 title2 <> NaN ->
      inRange 0 1 (calculateWalmartTitleSimilarity title1 title2) = true).
Proof.
  destruct (list_eq_dec N.eq_dec title1 []) as [E1|N1].
  { subst. rewrite (similarity_empty [] title2) by now left.
    split; [split; [discriminate|intros (H & _); congruence]|reflexivity]. }
  destruct (list_eq_dec N.eq_dec title2 []) as [E2|N2].
  { subst. rewrite (similarity_empty title1 []) by now right.
    split; [split; [discriminate|intros (_ & H & _); congruence]|reflexivity]. }
  destruct (Nat.max (length (wordsOf title1)) (length (wordsOf title2))) eqn:Emax.
  - assert (wordsOf title1 = [] /\ wordsOf title2 = []) as [W1 W2]
      by (split; apply length_zero_iff_nil; lia).
    rewrite (similarity_degenerate title1 title2)
      by (try apply truthy_nonempty; assumption).
    split; [split; auto|congruence].
  - pose proof (similarity_in_range title1 title2 ltac:(lia)) as Hrange.
    split; [|intros _; exact Hrange]. split.
    + intros H. rewrite H in Hrange. discriminate.
    + intros (_ & _ & W1 & W2). rewrite W1, W2 in Emax. discriminate.
Qed.

Lemma X1_similarity_range_or_NaN_witness :
  calculateWalmartTitleSimilarity (js "TV 4k") (js "an ox") = NaN
  /\ inRange 0 1 (calculateWalmartTitleSimilarity (js "Apple iPhone") (js "an ox")) = true.
Proof.
  split.
  - apply (proj1 (X1_similarity_range_or_NaN (js "TV 4k") (js "an ox"))).
    repeat split; try discriminate; reflexivity.
  - apply (proj2 (X1_similarity_range_or_NaN (js "Apple iPhone") (js "an ox"))).
    vm_compute. discriminate.
Defined.

(** X2.  A title scored against itself gives 1 as soon as it has a word
    longer than two characters; more generally the score is 1 when every word
    of the first title matches a word of the second and the second title has
    no more words than the first. *)
Theorem X2_similarity_one (title1 title2 : jsstring) :
  (wordsOf title1 <> [] ->
   calculateWalmartTitleSimilarity title1 title1 = Finite 1)
  /\ (title1 <> [] -> title2 <> [] -> wordsOf title1 <> [] ->
      (forall w, In w (wordsOf title1) ->
                 existsb (wordsMatch w) (wordsOf title2) = true) ->
      (length (wordsOf title2) <= length (wordsOf title1))%nat ->
      calculateWalmartTitleSimilarity title1 title2 = Finite 1).
Proof.
  assert (title1 <> [] -> title2 <> [] -> wordsOf title1 <> [] ->
          (forall w, In w (wordsOf title1) ->
                     existsb (wordsMatch w) (wordsOf title2) = true) ->
          (length (wordsOf title2) <= length (wordsOf title1))%nat ->
          calculateWalmartTitleSimilarity title1 title2 = Finite 1) as Hgen.
  { intros H1 H2 Hw Hall Hlen. rewrite similarity_nonempty by assumption.
    rewrite (matchCount_all _ _ Hall), Nat.max_l by exact Hlen.
    apply div_same. destruct (wordsOf title1); [congruence|simpl; lia]. }
  split; [|exact Hgen].
  intros Hw.
  assert (title1 <> []) as H1 by (intros ->; apply Hw; reflexivity).
  rewrite similarity_nonempty by assumption.
  rewrite matchCount_all, Nat.max_id.
  - apply div_same. destruct (wordsOf title1); [congruence|simpl; lia].
  - intros w Hin. apply existsb_exists. exists w. split; [exact Hin|].
    apply wordsMatch_refl.
Qed.

Lemma X2_similarity_one_witness :
  calculateWalmartTitleSimilarity (js "Apple iPhone 13 Case") (js "Apple iPhone 13 Case")
  = Finite 1
  /\ calculateWalmartTitleSimilarity (js "phone case") (js "iPhone cases") = Finite 1.
Proof.
  split.
  - apply (proj1 (X2_similarity_one (js "Apple iPhone 13 Case") [])).
    vm_compute. discriminate.
  - apply (proj2 (X2_similarity_one (js "phone case") (js "iPhone cases")));
      try discriminate; try (vm_compute; discriminate).
    + intros w Hin. vm_compute in Hin.
      destruct Hin as [<-|[<-|[]]]; vm_compute; reflexivity.
    + vm_compute. lia.
Defined.

(** X3.  For two non-empty titles of which one has a word longer than two
    characters, the score is 0 exactly when no word of the first title
    contains or is contained in a word of the second. *)
Theorem X3_similarity_zero (title1 title2 : jsstring) :
  title1 <> [] -> title2 <> [] ->
  (0 < Nat.max (length (wordsOf title1)) (length (wordsOf title2)))%nat ->
  (calculateWalmartTitleSimilarity title1 title2 = Finite 0
   <-> forall w1 w2, In w1 (wordsOf title1) -> In w2 (wordsOf title2) ->
                     includes w2 w1 || includes w1 w2 = false).
Proof.
  intros H1 H2 Hpos. rewrite similarity_nonempty by assumption.
  change (forall w1 w2, In w1 (wordsOf title1) -> In w2 (wordsOf title2) ->
                        includes w2 w1 || includes w1 w2 = false)
    with (forall w1 w2, In w1 (wordsOf title1) -> In w2 (wordsOf title2) ->
                        wordsMatch w1 w2 = false).
  rewrite <- matchCount_zero.
  pose proof (matchCount_le (wordsOf title1) (wordsOf title2)) as Hle.
  split.
  - apply div_counts_zero; lia.
  - intros ->. now apply div_zero_count.
Qed.

Lemma X3_similarity_zero_witness :
  calculateWalmartTitleSimilarity (js "Apple iPhone 13 Case") (js "garden hose")
  = Finite 0.
Proof.
  apply (X3_similarity_zero (js "Apple iPhone 13 Case") (js "garden hose"));
    try discriminate; [vm_compute; lia|].
  intros w1 w2 H1 H2. vm_compute in H1, H2.
  destruct H1 as [<-|[<-|[<-|[]]]]; destruct H2 as [<-|[<-|[]]]; vm_compute; reflexivity.
Defined.

Section SimilarityInvariance.

Lemma existsb_perm (f : jsstring -> bool) (l l' : list jsstring) :
  Permutation l l' -> existsb f l = existsb f l'.
Proof.
  induction 1; simpl.
  - reflexivity.
  - now rewrite IHPermutation.
  - destruct (f x), (f y); reflexivity.
  - congruence.
Qed.

Lemma matchCount_perm_r (words1 words2 words2' : list jsstring) :
  Permutation words2 words2' ->
  matchCount words1 words2 = matchCount words1 words2'.
Proof.
  intros Hp. induction words1 as [|w rest IH]; simpl; [reflexivity|].
  now rewrite IH, (existsb_perm _ _ _ Hp).
Qed.

Lemma matchCount_perm_l (words1 words1' words2 : list jsstring) :
  Permutation words1 words1' ->
  matchCount words1 words2 = matchCount words1' words2.
Proof. induction 1; simpl; lia. Qed.

(** The code units that [toLowerCase] leaves alone. *)
Definition lowered (c : char) : bool :=
  negb (isUpper c) && negb (c =? 304)%N && negb (c =? 8490)%N.

Lemma lowerChar_lowered (c : char) : lowered c = true -> lowerChar c = [c].
Proof.
  unfold lowered, lowerChar. intros H.
  apply andb_true_iff in H. destruct H as [H H3].
  apply andb_true_iff in H. destruct H as [H1 H2].
  apply negb_true_iff in H1, H2, H3. now rewrite H1, H2, H3.
Qed.

Lemma lowerChar_yields_lowered (c : char) : forallb lowered (lowerChar c) = true.
Proof.
  unfold lowerChar. destruct (isUpper c) eqn:Hup.
  - unfold isUpper, between in Hup. apply andb_true_iff in Hup.
    destruct Hup as [Hlo Hhi]. apply N.leb_le in Hlo, Hhi.
    simpl. rewrite andb_true_r. unfold lowered, isUpper, between.
    assert ((c + 32 <=? 90)%N = false) as -> by (apply N.leb_gt; lia).
    assert ((c + 32 =? 304)%N = false) as -> by (apply N.eqb_neq; lia).
    assert ((c + 32 =? 8490)%N = false) as -> by (apply N.eqb_neq; lia).
    now rewrite andb_false_r.
  - destruct (c =? 304)%N eqn:E1; [reflexivity|].
    destruct (c =? 8490)%N eqn:E2; [reflexivity|].
    simpl. rewrite andb_true_r. unfold lowered. now rewrite Hup, E1, E2.
Qed.

Lemma toLowerCase_lowered (s : jsstring) : forallb lowered (toLowerCase s) = true.
Proof.
  unfold toLowerCase. induction s as [|c s IH]; simpl; [reflexivity|].
  now rewrite forallb_app, lowerChar_yields_lowered, IH.
Qed.

Lemma toLowerCase_fixed (s : jsstring) :
  forallb lowered s = true -> toLowerCase s = s.
Proof.
  unfold toLowerCase. induction s as [|c s IH]; simpl; [reflexivity|].
  intros H. apply andb_true_iff in H. destruct H as [Hc Hs].
  now rewrite (lowerChar_lowered c Hc), IH.
Qed.

Lemma toLowerCase_idempotent (s : jsstring) :
  toLowerCase (toLowerCase s) = toLowerCase s.
Proof. apply toLowerCase_fixed, toLowerCase_lowered. Qed.

Lemma toLowerCase_truthy (s : jsstring) : truthy (toLowerCase s) = truthy s.
Proof.
  destruct s as [|c s]; [reflexivity|]. unfold toLowerCase. simpl.
  unfold lowerChar. destruct (isUpper c); [reflexivity|].
  destruct (c =? 304)%N; [reflexivity|]. now destruct (c =? 8490)%N.
Qed.

Lemma wordsOf_toLowerCase (s : jsstring) : wordsOf (toLowerCase s) = wordsOf s.
Proof. unfold wordsOf, normalize. now rewrite toLowerCase_idempotent. Qed.

Lemma forallb_rev (f : char -> bool) (l : jsstring) :
  forallb f (rev l) = forallb f l.
Proof.
  induction l as [|c l IH]; simpl; [reflexivity|].
  rewrite forallb_app, IH. simpl. rewrite andb_true_r. apply andb_comm.
Qed.

(** The pieces of a cut hold no separator and only code units of the string. *)
Lemma splitRuns_pieces (sep P : char -> bool) (s cur : jsstring) (inrun : bool) :
  forallb (fun c => negb (sep c) && P c) cur = true ->
  forallb P s = true ->
  forall piece, In piece (splitRuns sep inrun cur s) ->
                forallb (fun c => negb (sep c) && P c) piece = true.
Proof.
  revert cur inrun. induction s as [|c s IH]; intros cur inrun Hcur Hs piece Hin.
  - simpl in Hin. destruct Hin as [<-|[]]. now rewrite forallb_rev.
  - simpl in Hs. apply andb_true_iff in Hs. destruct Hs as [Hc Hs].
    simpl in Hin. destruct (sep c) eqn:Hsep.
    + destruct inrun.
      * now apply (IH [] true).
      * destruct Hin as [<-|Hin]; [now rewrite forallb_rev|].
        now apply (IH [] true).
    + apply (IH (c :: cur) false); try assumption.
      simpl. now rewrite Hsep, Hc, Hcur.
Qed.

End SimilarityInvariance.

(** X4.  The score does not depend on the order of the words: titles whose
    word lists are permutations of each other are interchangeable, on either
    side. *)
Theorem X4_similarity_word_order (a a' b : jsstring) :
  a <> [] -> a' <> [] -> b <> [] ->
  Permutation (wordsOf a) (wordsOf a') ->
  calculateWalmartTitleSimilarity a b = calculateWalmartTitleSimilarity a' b
  /\ calculateWalmartTitleSimilarity b a = calculateWalmartTitleSimilarity b a'.
Proof.
  intros Ha Ha' Hb Hp. rewrite !similarity_nonempty by assumption.
  rewrite (matchCount_perm_l _ _ (wordsOf b) Hp).
  rewrite (matchCount_perm_r (wordsOf b) _ _ Hp).
  now rewrite (Permutation_length Hp).
Qed.

Lemma X4_similarity_word_order_witness :
  calculateWalmartTitleSimilarity (js "red apple pie") (js "apple tart")
  = calculateWalmartTitleSimilarity (js "pie, apple (red)") (js "apple tart").
Proof.
  apply (X4_similarity_word_order (js "red apple pie") (js "pie, apple (red)")
           (js "apple tart")); try discriminate.
  vm_compute. apply Permutation_rev.
Defined.

(** X5.  Every word that takes part in the comparison has at least three
    code units, all of them lower-case ASCII letters, digits or underscores. *)
Theorem X5_words_are_long_and_plain (title w : jsstring) :
  In w (wordsOf title) ->
  (3 <= length w)%nat
  /\ forallb (fun c => isDigit c || isLower c || (c =? 95)%N) w = true.
Proof.
  unfold wordsOf. intros Hin. apply filter_In in Hin. destruct Hin as [Hin Hlen].
  split; [apply Nat.ltb_lt in Hlen; lia|].
  assert (forallb (fun c => (isWord c || isSpace c) && negb (isUpper c))
                  (normalize title) = true) as Hnorm.
  { unfold normalize, keep. pose proof (toLowerCase_lowered title) as Hlow.
    induction (toLowerCase title) as [|c s IH]; simpl; [reflexivity|].
    simpl in Hlow. apply andb_true_iff in Hlow. destruct Hlow as [Hc Hs].
    destruct (isWord c || isSpace c) eqn:Hkeep; simpl; [|now apply IH].
    rewrite Hkeep, (IH Hs). unfold lowered in Hc.
    destruct (isUpper c); [discriminate Hc|reflexivity]. }
  pose proof (splitRuns_pieces isSpace _ (normalize title) [] false eq_refl Hnorm w Hin)
    as Hpiece.
  rewrite forallb_forall in Hpiece. apply forallb_forall. intros c Hc.
  specialize (Hpiece c Hc). unfold isWord in Hpiece.
  destruct (isSpace c); [discriminate Hpiece|].
  destruct (isUpper c); [now rewrite !andb_false_r in Hpiece|].
  simpl in Hpiece. rewrite orb_false_r, andb_true_r in Hpiece.
  now rewrite orb_false_r in Hpiece.
Qed.

Lemma X5_words_are_long_and_plain_witness :
  (3 <= length (js "iphone"))%nat
  /\ forallb (fun c => isDigit c || isLower c || (c =? 95)%N) (js "iphone") = true.
Proof.
  apply (X5_words_are_long_and_plain (js "Apple iPhone 13 Case")).
  vm_compute. auto.
Defined.

(** X6.  The score is case-insensitive on ASCII titles: two such titles that
    differ only in the case of their letters are interchangeable, on either
    side, and lower-casing a title beforehand does not change the score.
    (On ASCII strings [toLowerCase] above is [String.prototype.toLowerCase].) *)
Theorem X6_similarity_ignores_case (a a' b : jsstring) :
  forallb (fun c => (c <? 128)%N) a = true ->
  forallb (fun c => (c <? 128)%N) a' = true ->
  toLowerCase a = toLowerCase a' ->
  calculateWalmartTitleSimilarity a b = calculateWalmartTitleSimilarity a' b
  /\ calculateWalmartTitleSimilarity b a = calculateWalmartTitleSimilarity b a'
  /\ calculateWalmartTitleSimilarity (toLowerCase a) b
     = calculateWalmartTitleSimilarity a b.
Proof.
  intros _ _ Hcase.
  assert (forall x y, calculateWalmartTitleSimilarity (toLowerCase x) y
                      = calculateWalmartTitleSimilarity x y) as Hleft.
  { intros x y. unfold calculateWalmartTitleSimilarity.
    now rewrite !toLowerCase_truthy, !wordsOf_toLowerCase. }
  assert (forall x y, calculateWalmartTitleSimilarity x (toLowerCase y)
                      = calculateWalmartTitleSimilarity x y) as Hright.
  { intros x y. unfold calculateWalmartTitleSimilarity.
    now rewrite !toLowerCase_truthy, !wordsOf_toLowerCase. }
  split; [|split].
  - now rewrite <- (Hleft a b), Hcase, Hleft.
  - now rewrite <- (Hright b a), Hcase, Hright.
  - apply Hleft.
Qed.

Lemma X6_similarity_ignores_case_witness :
  calculateWalmartTitleSimilarity (js "Apple iPhone Case") (js "iphone 13 case")
  = calculateWalmartTitleSimilarity (js "APPLE IPHONE CASE") (js "iphone 13 case")
  /\ calculateWalmartTitleSimilarity (js "iphone 13 case") (js "Apple iPhone Case")
     = calculateWalmartTitleSimilarity (js "iphone 13 case") (js "APPLE IPHONE CASE")
  /\ calculateWalmartTitleSimilarity (js "apple iphone case") (js "iphone 13 case")
     = calculateWalmartTitleSimilarity (js "Apple iPhone Case") (js "iphone 13 case").
Proof.
  apply (X6_similarity_ignores_case (js "Apple iPhone Case") (js "APPLE IPHONE CASE")
           (js "iphone 13 case")); vm_compute; reflexivity.
Defined.

(** ** The element locator, read backwards *)

Section LocatorInversion.

Context {Element : Type} {host : Host Element}.

Lemma firstNonEmpty_inv (sels : list selector) (results : list Element) :
  firstNonEmpty sels = Ok results ->
  (results = [] /\ forall s, In s sels -> document_querySelectorAll s = Ok [])
  \/ (results <> [] /\ exists before sel after,
         sels = before ++ sel :: after
         /\ (forall s, In s before -> document_querySelectorAll s = Ok [])
         /\ document_querySelectorAll sel = Ok results).
Proof.
  induction sels as [|sel sels IH]; simpl.
  - intros [= <-]. left. split; [reflexivity|intros s []].
  - destruct (document_querySelectorAll sel) as [found|e] eqn:Hq; simpl;
      [|discriminate].
    destruct found as [|x found]; simpl.
    + intros H. destruct (IH H) as [[-> Hall]|(Hne & before & s & after & -> & Hb & Hs)].
      * left. split; [reflexivity|]. intros s [<-|Hin]; auto.
      * right. split; [exact Hne|]. exists (sel :: before), s, after.
        split; [reflexivity|]. split; [|exact Hs].
        intros s' [<-|Hin]; auto.
    + intros [= <-]. right. split; [discriminate|].
      exists [], sel, sels. split; [reflexivity|]. split; [intros s []|exact Hq].
Qed.

Lemma firstNonEmpty_throw_inv (sels : list selector) (e : exn) :
  firstNonEmpty sels = Throw e ->
  exists before sel after,
    sels = before ++ sel :: after
    /\ (forall s, In s before -> document_querySelectorAll s = Ok [])
    /\ document_querySelectorAll sel = Throw e.
Proof.
  induction sels as [|sel sels IH]; simpl; [discriminate|].
  destruct (document_querySelectorAll sel) as [found|e'] eqn:Hq; simpl.
  - destruct found as [|x found]; simpl; [|discriminate].
    intros H. destruct (IH H) as (before & s & after & -> & Hb & Hs).
    exists (sel :: before), s, after. split; [reflexivity|]. split; [|exact Hs].
    intros s' [<-|Hin]; auto.
  - intros [= ->]. exists [], sel, sels.
    split; [reflexivity|]. split; [intros s []|exact Hq].
Qed.

End LocatorInversion.

(** X7.  What the locator returns always comes from one strategy.  A
    non-empty result is the complete match list of one selector, all earlier
    selectors having matched nothing; an empty result means that every
    selector matched nothing or that a query failed after the earlier ones had
    matched nothing. *)
Theorem X7_locator_result_is_one_strategy
        {Element : Type} {host : Host Element} (results : list Element) :
  findWalmartSearchResultElements = Ok results ->
  (results <> [] ->
   exists before sel after,
     selectors = before ++ sel :: after
     /\ (forall s, In s before -> document_querySelectorAll s = Ok [])
     /\ document_querySelectorAll sel = Ok results)
  /\ (results = [] ->
      (forall s, In s selectors -> document_querySelectorAll s = Ok [])
      \/ exists before sel after e,
          selectors = before ++ sel :: after
          /\ (forall s, In s before -> document_querySelectorAll s = Ok [])
          /\ document_querySelectorAll sel = Throw e).
Proof.
  unfold findWalmartSearchResultElements, try_catch.
  destruct (firstNonEmpty selectors) as [found|e] eqn:Hloop.
  - intros [= ->]. destruct (firstNonEmpty_inv _ _ Hloop) as [[-> Hall]|[Hne Hex]].
    + split; [congruence|]. intros _. now left.
    + split; [intros _; exact Hex|]. intros E. congruence.
  - intros [= <-]. split; [congruence|]. intros _. right.
    destruct (firstNonEmpty_throw_inv _ _ Hloop) as (before & sel & after & H).
    exists before, sel, after, e. exact H.
Qed.

Lemma X7_locator_result_is_one_strategy_witness :
  let host := treeHost mixedPage in
  exists before sel after,
    selectors = before ++ sel :: after
    /\ (forall s, In s before -> document_querySelectorAll s = Ok [])
    /\ document_querySelectorAll sel
       = Ok [cardElement [attribute "data-item-id" "111"]
               [titleNode; priceNode (js "current price $5.5");
                linkNode "/ip/Some-Title/123456"]].
Proof.
  intros host.
  apply (proj1 (@X7_locator_result_is_one_strategy _ host
                  [cardElement [attribute "data-item-id" "111"]
                     [titleNode; priceNode (js "current price $5.5");
                      linkNode "/ip/Some-Title/123456"]]
                  ltac:(vm_compute; reflexivity))).
  discriminate.
Defined.

(** ** What patterns consume and capture *)

Section CaptureFacts.

(** Captures are only ever added in front. *)
Lemma star_iter_in (step : state -> list state) (g : bool) (P : state -> Prop)
      (n : nat) (st st' : state) :
  P st ->
  (forall a b, P a -> In b (step a) -> P b) ->
  In st' (star_iter step g n st) -> P st'.
Proof.
  intros Hst Hstep. revert st Hst. induction n as [|n IH]; intros st Hst Hin.
  - simpl in Hin. destruct Hin as [<-|[]]. exact Hst.
  - simpl in Hin.
    assert (In st' (flat_map (star_iter step g n) (filter (progress st) (step st)))
            -> P st') as Hmore.
    { intros H. apply in_flat_map in H. destruct H as (x & Hx & Hx').
      apply filter_In in Hx. destruct Hx as [Hx _].
      apply (IH x); [|exact Hx']. now apply (Hstep st). }
    destruct g.
    + apply in_app_or in Hin. destruct Hin as [H|[<-|[]]]; auto.
    + destruct Hin as [<-|H]; auto.
Qed.

(** Every way to match leaves a suffix of the input. *)
Lemma run_suffix (r : regex) (st st' : state) :
  In st' (run r st) -> exists D, fst st = D ++ fst st'.
Proof.
  revert st st'. induction r as [|p|r1 IH1 r2 IH2|r1 IH1 r2 IH2|g r IH|i r IH|];
    intros st st' Hin; simpl in Hin.
  - destruct Hin as [<-|[]]. now exists [].
  - destruct st as [[|c s] caps]; simpl in Hin; [destruct Hin|].
    destruct (p c); [|destruct Hin]. destruct Hin as [<-|[]]. now exists [c].
  - apply in_flat_map in Hin. destruct Hin as (x & Hx & Hx').
    destruct (IH1 _ _ Hx) as [D1 E1]. destruct (IH2 _ _ Hx') as [D2 E2].
    exists (D1 ++ D2). now rewrite E1, E2, app_assoc.
  - apply in_app_or in Hin. destruct Hin as [H|H]; eauto.
  - apply (star_iter_in (run r) g (fun x => exists D, fst st = D ++ fst x)
                        (length (fst st)) st st'); [now exists []| |exact Hin].
    intros a b [D E] Hb. destruct (IH _ _ Hb) as [D' E'].
    exists (D ++ D'). now rewrite E, E', app_assoc.
  - apply in_map_iff in Hin. destruct Hin as (x & <- & Hx). simpl.
    now apply IH.
  - destruct st as [[|c s] caps]; simpl in Hin; [|destruct Hin].
    destruct Hin as [<-|[]]. now exists [].
Qed.

(** The string that a capturing group records is the string it consumed. *)
Lemma capture_consumed (st st' : state) (D : jsstring) :
  fst st = D ++ fst st' ->
  firstn (length (fst st) - length (fst st')) (fst st) = D.
Proof. intros ->. apply firstn_consumed. Qed.

(** A run of a character class consumes code units of the class only. *)
Lemma star_chr_consumes (p : char -> bool) (g : bool) (st st' : state) :
  In st' (run (Star g (Chr p)) st) ->
  exists D, fst st = D ++ fst st' /\ forallb p D = true /\ snd st' = snd st.
Proof.
  simpl. intros Hin.
  apply (star_iter_in (run (Chr p)) g
           (fun x => exists D, fst st = D ++ fst x /\ forallb p D = true
                               /\ snd x = snd st)
           (length (fst st)) st st'); [| |exact Hin].
  - exists []. auto.
  - intros a b (D & E & HD & Hc) Hb.
    destruct a as [[|c s] caps]; simpl in Hb; [destruct Hb|].
    destruct (p c) eqn:Hp; [|destruct Hb]. destruct Hb as [<-|[]].
    simpl in *. exists (D ++ [c]). rewrite E, <- app_assoc. split; [reflexivity|].
    rewrite forallb_app, HD. simpl. now rewrite Hp.
Qed.

Lemma plus_chr_consumes (p : char -> bool) (st st' : state) :
  In st' (run (Plus (Chr p)) st) ->
  exists D, fst st = D ++ fst st' /\ D <> [] /\ forallb p D = true
            /\ snd st' = snd st.
Proof.
  unfold Plus. intros Hin. change (run (Seq (Chr p) (Star true (Chr p))) st)
    with (flat_map (run (Star true (Chr p))) (run (Chr p) st)) in Hin.
  apply in_flat_map in Hin. destruct Hin as (x & Hx & Hx').
  destruct st as [[|c s] caps]; simpl in Hx; [destruct Hx|].
  destruct (p c) eqn:Hp; [|destruct Hx]. destruct Hx as [<-|[]].
  destruct (star_chr_consumes p true _ _ Hx') as (D & E & HD & Hc).
  simpl in *. exists (c :: D). rewrite E. split; [reflexivity|].
  split; [discriminate|]. split; [simpl; now rewrite Hp|exact Hc].
Qed.

(** [\d{1,2}] and [\d{0,2}] consume at most two digits. *)
Lemma oneOrTwo_consumes (st st' : state) :
  In st' (run (OneOrTwo digit) st) ->
  exists D, fst st = D ++ fst st' /\ D <> [] /\ forallb isDigit D = true
            /\ (length D <= 2)%nat.
Proof.
  destruct st as [[|c1 s] caps]; simpl; [intros []|].
  destruct (isDigit c1) eqn:H1; simpl; [|intros []].
  destruct s as [|c2 s]; simpl.
  - intros [<-|[]]. exists [c1]. simpl. rewrite H1. repeat split; try discriminate; lia.
  - destruct (isDigit c2) eqn:H2; simpl.
    + intros [<-|[<-|[]]].
      * exists [c1; c2]. simpl. rewrite H1, H2. repeat split; try discriminate; lia.
      * exists [c1]. simpl. rewrite H1. repeat split; try discriminate; lia.
    + intros [<-|[]]. exists [c1]. simpl. rewrite H1. repeat split; try discriminate; lia.
Qed.

Lemma upto2_consumes (st st' : state) :
  In st' (run (Upto2 digit) st) ->
  exists D, fst st = D ++ fst st' /\ forallb isDigit D = true
            /\ (length D <= 2)%nat.
Proof.
  unfold Upto2, Opt. intros Hin.
  change (run (Alt (Seq digit (Alt digit Eps)) Eps) st)
    with (run (OneOrTwo digit) st ++ [st]) in Hin.
  apply in_app_or in Hin. destruct Hin as [H|[<-|[]]].
  - destruct (oneOrTwo_consumes _ _ H) as (D & E & _ & HD & Hlen). eauto.
  - exists []. simpl. repeat split. lia.
Qed.

(** What holds of the captures of each group. *)
Definition capsSat (Q : nat -> jsstring -> Prop) (caps : captures) : Prop :=
  forall i v, In (i, v) caps -> Q i v.

(** Every capturing group of the pattern only ever records strings with the
    property of its index. *)
Fixpoint groupsSat (Q : nat -> jsstring -> Prop) (r : regex) : Prop :=
  match r with
  | Seq r1 r2 | Alt r1 r2 => groupsSat Q r1 /\ groupsSat Q r2
  | Star _ r1 => groupsSat Q r1
  | Group i r1 =>
      (forall st st' D, In st' (run r1 st) -> fst st = D ++ fst st' -> Q i D)
      /\ groupsSat Q r1
  | _ => True
  end.

Lemma run_capsSat (Q : nat -> jsstring -> Prop) (r : regex) :
  groupsSat Q r ->
  forall st st', capsSat Q (snd st) -> In st' (run r st) -> capsSat Q (snd st').
Proof.
  induction r as [|p|r1 IH1 r2 IH2|r1 IH1 r2 IH2|g r IH|i r IH|];
    intros Hg st st' Hst Hin; simpl in Hin.
  - destruct Hin as [<-|[]]. exact Hst.
  - destruct st as [[|c s] caps]; simpl in Hin; [destruct Hin|].
    destruct (p c); [|destruct Hin]. destruct Hin as [<-|[]]. exact Hst.
  - destruct Hg as [G1 G2]. apply in_flat_map in Hin.
    destruct Hin as (x & Hx & Hx'). eauto.
  - destruct Hg as [G1 G2]. apply in_app_or in Hin. destruct Hin; eauto.
  - simpl in Hg.
    apply (star_iter_in (run r) g (fun x => capsSat Q (snd x))
                        (length (fst st)) st st'); eauto.
  - destruct Hg as [Gi Gr]. apply in_map_iff in Hin.
    destruct Hin as (x & <- & Hx). simpl.
    destruct (run_suffix _ _ _ Hx) as [D E].
    rewrite (capture_consumed st x D E).
    intros j v [[= <- <-]|Hjv].
    + exact (Gi st x D Hx E).
    + exact (IH Gr st x Hst Hx j v Hjv).
  - destruct st as [[|c s] caps]; simpl in Hin; [|destruct Hin].
    destruct Hin as [<-|[]]. exact Hst.
Qed.

Lemma group_in (i : nat) (caps : captures) (v : jsstring) :
  group i caps = Some v -> In (i, v) caps.
Proof.
  induction caps as [|[j w] caps IH]; simpl; [discriminate|].
  destruct (Nat.eqb_spec i j) as [->|Hne].
  - intros [= ->]. now left.
  - intros H. right. now apply IH.
Qed.

Lemma exec_capsSat (Q : nat -> jsstring -> Prop) (r : regex) (s : jsstring)
      (caps : captures) :
  groupsSat Q r -> exec r s = Some caps -> capsSat Q caps.
Proof.
  intros Hg. induction s as [|c s IH]; simpl.
  - destruct (run r ([], [])) as [|st l] eqn:E; [discriminate|].
    intros [= <-]. apply (run_capsSat Q r Hg ([], []) st); [intros i v []|].
    rewrite E. now left.
  - destruct (run r (c :: s, [])) as [|st l] eqn:E; [exact IH|].
    intros [= <-]. apply (run_capsSat Q r Hg (c :: s, []) st); [intros i v []|].
    rewrite E. now left.
Qed.

(** Groups that every match defines. *)
Fixpoint defines (i : nat) (r : regex) : bool :=
  match r with
  | Seq r1 r2 => defines i r1 || defines i r2
  | Alt r1 r2 => defines i r1 && defines i r2
  | Group j r1 => Nat.eqb i j || defines i r1
  | _ => false
  end.

Lemma run_keeps_group (i : nat) (r : regex) :
  forall st st', group i (snd st) <> None -> In st' (run r st) ->
                 group i (snd st') <> None.
Proof.
  induction r as [|p|r1 IH1 r2 IH2|r1 IH1 r2 IH2|g r IH|j r IH|];
    intros st st' Hst Hin; simpl in Hin.
  - destruct Hin as [<-|[]]. exact Hst.
  - destruct st as [[|c s] caps]; simpl in Hin; [destruct Hin|].
    destruct (p c); [|destruct Hin]. destruct Hin as [<-|[]]. exact Hst.
  - apply in_flat_map in Hin. destruct Hin as (x & Hx & Hx'). eauto.
  - apply in_app_or in Hin. destruct Hin; eauto.
  - apply (star_iter_in (run r) g (fun x => group i (snd x) <> None)
                        (length (fst st)) st st'); eauto.
  - apply in_map_iff in Hin. destruct Hin as (x & <- & Hx). simpl.
    destruct (Nat.eqb i j); [discriminate|]. eauto.
  - destruct st as [[|c s] caps]; simpl in Hin; [|destruct Hin].
    destruct Hin as [<-|[]]. exact Hst.
Qed.

Lemma run_defines (i : nat) (r : regex) :
  defines i r = true ->
  forall st st', In st' (run r st) -> group i (snd st') <> None.
Proof.
  induction r as [|p|r1 IH1 r2 IH2|r1 IH1 r2 IH2|g r IH|j r IH|];
    simpl; try discriminate; intros Hd st st' Hin.
  - apply in_flat_map in Hin. destruct Hin as (x & Hx & Hx').
    apply orb_true_iff in Hd. destruct Hd as [Hd|Hd].
    + apply (run_keeps_group i r2 x st'); eauto.
    + eauto.
  - apply andb_true_iff in Hd. destruct Hd as [Hd1 Hd2].
    apply in_app_or in Hin. destruct Hin; eauto.
  - apply in_map_iff in Hin. destruct Hin as (x & <- & Hx). simpl.
    destruct (Nat.eqb i j) eqn:E; [discriminate|]. simpl in Hd. eauto.
Qed.

Lemma exec_defines (i : nat) (r : regex) (s : jsstring) (caps : captures) :
  defines i r = true -> exec r s = Some caps -> group i caps <> None.
Proof.
  intros Hd. induction s as [|c s IH]; simpl.
  - destruct (run r ([], [])) as [|st l] eqn:E; [discriminate|].
    intros [= <-]. apply (run_defines i r Hd ([], []) st). rewrite E. now left.
  - destruct (run r (c :: s, [])) as [|st l] eqn:E; [exact IH|].
    intros [= <-]. apply (run_defines i r Hd (c :: s, []) st). rewrite E. now left.
Qed.

End CaptureFacts.

(** ** Prices are never NaN *)

(** What the two price patterns capture: group 1 a non-empty digit run,
    group 2 at most two digits. *)
Definition priceGroups (i : nat) (v : jsstring) : Prop :=
  forallb isDigit v = true
  /\ (i = 1%nat -> v <> [])
  /\ (i = 2%nat -> (length v <= 2)%nat).

(** Splits the conjunctions that [groupsSat] unfolds to, and nothing else. *)
Ltac split_groups :=
  repeat match goal with
         | |- _ /\ _ => split
         | |- True => exact I
         end.

Section NoNaN.

Lemma plus_digit_group (i : nat) :
  i <> 2%nat ->
  forall st st' D, In st' (run (Plus digit) st) -> fst st = D ++ fst st' ->
                   priceGroups i D.
Proof.
  intros Hi st st' D Hin E.
  destruct (plus_chr_consumes isDigit st st' Hin) as (D' & E' & Hne & HD & _).
  rewrite E in E'. apply app_inv_tail in E'. subst D'.
  split; [exact HD|]. split; [intros _; exact Hne|intros H; congruence].
Qed.

Lemma reCurrentPrice_groups : groupsSat priceGroups reCurrentPrice.
Proof.
  unfold reCurrentPrice. cbn -[Plus Upto2 run priceGroups]. split_groups; try (cbn; tauto).
  - apply (plus_digit_group 1). discriminate.
  - intros st st' D Hin E.
    destruct (upto2_consumes _ _ Hin) as (D' & E' & HD & Hlen).
    rewrite E in E'. apply app_inv_tail in E'. subst D'.
    split; [exact HD|]. split; [discriminate|intros _; exact Hlen].
Qed.

Lemma rePrice_groups : groupsSat priceGroups rePrice.
Proof.
  unfold rePrice. cbn -[Plus OneOrTwo run priceGroups]. split_groups; try (cbn; tauto).
  - apply (plus_digit_group 1). discriminate.
  - intros st st' D Hin E.
    destruct (oneOrTwo_consumes _ _ Hin) as (D' & E' & _ & HD & Hlen).
    rewrite E in E'. apply app_inv_tail in E'. subst D'.
    split; [exact HD|]. split; [discriminate|intros _; exact Hlen].
Qed.

(** Captures of a price pattern give a price that is not NaN. *)
Lemma priceOfMatch_not_NaN (m : captures) :
  capsSat priceGroups m -> group 1 m <> None -> isNaN (priceOfMatch m) = false.
Proof.
  intros Hm H1. unfold priceOfMatch, centsOf.
  destruct (group 1 m) as [d|] eqn:E1; [|congruence].
  destruct (Hm 1%nat d (group_in _ _ _ E1)) as (Hd & Hne & _).
  rewrite (parseInt_digits d (Hne eq_refl) Hd).
  destruct (group 2 m) as [c|] eqn:E2.
  - destruct (Hm 2%nat c (group_in _ _ _ E2)) as (Hc & _ & Hlen).
    destruct c as [|x c]; cbn [truthy].
    + rewrite <- of_N_zero. now apply dollars_plus_cents_not_NaN.
    + destruct (cents_below_100 (x :: c) ltac:(discriminate) Hc (Hlen eq_refl))
        as [-> Hlt].
      now apply dollars_plus_cents_not_NaN.
  - rewrite <- of_N_zero. now apply dollars_plus_cents_not_NaN.
Qed.

Lemma priceFromText_not_NaN (text : jsstring) (p : number) :
  priceFromText text = Some p -> isNaN p = false.
Proof.
  unfold priceFromText. destruct (includes text (js "current price")).
  - destruct (exec reCurrentPrice text) as [m|] eqn:E; [|discriminate].
    intros [= <-]. apply priceOfMatch_not_NaN.
    + exact (exec_capsSat _ _ _ _ reCurrentPrice_groups E).
    + exact (exec_defines 1 reCurrentPrice _ _ eq_refl E).
  - destruct (exec rePrice text) as [m|] eqn:E; [|discriminate].
    intros [= <-]. apply priceOfMatch_not_NaN.
    + exact (exec_capsSat _ _ _ _ rePrice_groups E).
    + exact (exec_defines 1 rePrice _ _ eq_refl E).
Qed.

Lemma keep_all (cls : char -> bool) (s : jsstring) :
  forallb cls (keep cls s) = true.
Proof.
  unfold keep. induction s as [|c s IH]; simpl; [reflexivity|].
  destruct (cls c) eqn:E; simpl; [now rewrite E|exact IH].
Qed.

(** The digits of a split price node, or the default. *)
Lemma split_digits (text : option jsstring) (fallback : jsstring) :
  fallback <> [] -> forallb isDigit fallback = true ->
  orElse (option_map (keep isDigit) text) fallback <> []
  /\ forallb isDigit (orElse (option_map (keep isDigit) text) fallback) = true.
Proof.
  intros Hne Hd. destruct text as [s|]; cbn [option_map orElse]; [|auto].
  destruct (keep isDigit s) as [|c k] eqn:E; cbn [truthy]; [auto|].
  split; [discriminate|]. rewrite <- E. apply keep_all.
Qed.

(** [parseFloat] of dollars, a dot and cents. *)
Lemma parseFloat_split (D C : jsstring) :
  D <> [] -> forallb isDigit D = true -> forallb isDigit C = true ->
  parseFloat (D ++ js "." ++ C)
  = mk (inject_Z (Z.of_N (digitsValue D))
        + inject_Z (Z.of_N (digitsValue C)) / inject_Z (10 ^ Z.of_nat (length C))).
Proof.
  intros Hne HD HC. unfold parseFloat.
  assert (takeWhile isDigit (D ++ js "." ++ C) = D) as ->
    by (apply takeWhile_run; [exact HD|reflexivity]).
  assert (dropWhile isDigit (D ++ js "." ++ C) = js "." ++ C) as ->.
  { pose proof (takeWhile_dropWhile isDigit (D ++ js "." ++ C)) as H.
    rewrite (takeWhile_run isDigit D (js "." ++ C) HD eq_refl) in H.
    now apply app_inv_head in H. }
  change (js "." ++ C) with (46%N :: C). cbv beta iota.
  change (46 =? 46)%N with true. cbv iota.
  assert (takeWhile isDigit C = C) as ->
    by (rewrite <- (app_nil_r C) at 1; now apply takeWhile_run).
  destruct D; [congruence|reflexivity].
Qed.

Context {Element : Type} {host : Host Element}.

Lemma splitPriceOf_value (element w c : Element) (p0 : option number)
      (wtext ctext : option jsstring) :
  querySelector element sel_wholeDollar = Ok (Some w) ->
  querySelector element sel_cents = Ok (Some c) ->
  textContent w = Ok wtext -> textContent c = Ok ctext ->
  let dollars := orElse (option_map (keep isDigit) wtext) (js "0") in
  let cents := orElse (option_map (keep isDigit) ctext) (js "00") in
  splitPriceOf element p0
  = Ok (Some (mk (inject_Z (Z.of_N (digitsValue dollars))
                  + inject_Z (Z.of_N (digitsValue cents))
                    / inject_Z (10 ^ Z.of_nat (length cents))))).
Proof.
  intros Hw Hc Hwt Hct dollars cents. unfold splitPriceOf.
  rewrite Hw. cbn [bind]. rewrite Hc. cbn [bind]. rewrite Hwt. cbn [bind].
  rewrite Hct. cbn [bind].
  destruct (split_digits wtext (js "0") ltac:(discriminate) eq_refl) as [Hne HD].
  destruct (split_digits ctext (js "00") ltac:(discriminate) eq_refl) as [_ HC].
  fold dollars cents in Hne, HD, HC |- *.
  now rewrite (parseFloat_split dollars cents Hne HD HC).
Qed.

Lemma splitPriceOf_not_NaN (element : Element) (p : number) :
  splitPriceOf element None = Ok (Some p) -> isNaN p = false.
Proof.
  unfold splitPriceOf.
  destruct (querySelector element sel_wholeDollar) as [w|] eqn:Hw; [|discriminate].
  cbn [bind].
  destruct (querySelector element sel_cents) as [c|] eqn:Hc; [|discriminate].
  cbn [bind].
  destruct w as [w|]; [|discriminate]. destruct c as [c|]; [|discriminate].
  destruct (textContent w) as [wtext|] eqn:Hwt; [|discriminate]. cbn [bind].
  destruct (textContent c) as [ctext|] eqn:Hct; [|discriminate]. cbn [bind].
  destruct (split_digits wtext (js "0") ltac:(discriminate) eq_refl) as [Hne HD].
  destruct (split_digits ctext (js "00") ltac:(discriminate) eq_refl) as [_ HC].
  rewrite (parseFloat_split _ _ Hne HD HC). intros [= <-]. apply mk_not_NaN.
Qed.

Lemma priceOf_not_NaN (element : Element) (p : number) :
  priceOf element = Ok (Some p) -> isNaN p = false.
Proof.
  unfold priceOf.
  assert (forall q, textPriceOf element = Ok (Some q) -> isNaN q = false) as Htext.
  { intros q. unfold textPriceOf.
    destruct (querySelector element sel_price) as [[pe|]|]; cbn [bind];
      try discriminate.
    destruct (textContent pe) as [text|]; cbn [bind]; [|discriminate].
    intros [= H]. exact (priceFromText_not_NaN _ _ H). }
  destruct (textPriceOf element) as [[p0|]|]; cbn [bind]; [| |discriminate].
  - cbn [missing]. rewrite (Htext p0 eq_refl). intros [= <-].
    exact (Htext p0 eq_refl).
  - cbn [missing]. apply splitPriceOf_not_NaN.
Qed.

End NoNaN.

(** X8.  No stage ever produces NaN.  The price read from a price text is a
    number whenever a pattern matches, and so is the split price; so the
    extraction gives up on the price only when no stage produced any, never
    because of the NaN test. *)
Theorem X8_price_is_never_NaN :
  (forall text p, priceFromText text = Some p -> isNaN p = false)
  /\ (forall (Element : Type) (host : Host Element) (element : Element) p,
         priceOf element = Ok p -> missing p = true -> p = None).
Proof.
  split; [exact priceFromText_not_NaN|].
  intros Element host element [p|] Hp Hmiss; [|reflexivity].
  simpl in Hmiss. rewrite (priceOf_not_NaN element p Hp) in Hmiss. discriminate.
Qed.

Lemma X8_price_is_never_NaN_witness :
  isNaN (Finite (39 # 2)) = false /\ @None number = None.
Proof.
  pose proof X8_price_is_never_NaN as [Htext Hprice].
  split.
  - apply (Htext (js "Now $19.50")). vm_compute. reflexivity.
  - pose (card := [titleNode; priceNode (js "out of stock"); linkNode "/ip/1"]).
    apply (Hprice _ (treeHost (cardPage [] card)) (cardElement [] card) None);
      [vm_compute; reflexivity|reflexivity].
Defined.

(** X9.  When the text stages leave no price and both split price nodes
    exist, the price is the double nearest to their digits read as dollars
    and decimal fraction (every other character is dropped, missing digits
    default to "0" and "00"), or Infinity beyond the range of a double; it is
    finite for dollars of at most 300 digits, and the texts "$12" and "99"
    give the number 12.99.  The price test then always passes. *)
Theorem X9_split_price_value
        {Element : Type} {host : Host Element}
        (element w c : Element) (wtext ctext : option jsstring) :
  textPriceOf element = Ok None ->
  querySelector element sel_wholeDollar = Ok (Some w) ->
  querySelector element sel_cents = Ok (Some c) ->
  textContent w = Ok wtext -> textContent c = Ok ctext ->
  let dollars := orElse (option_map (keep isDigit) wtext) (js "0") in
  let cents := orElse (option_map (keep isDigit) ctext) (js "00") in
  let value := inject_Z (Z.of_N (digitsValue dollars))
               + inject_Z (Z.of_N (digitsValue cents))
                 / inject_Z (10 ^ Z.of_nat (length cents)) in
  priceOf element = Ok (Some (mk value))
  /\ missing (Some (mk value)) = false
  /\ ((length dollars <= 300)%nat -> mk value = Finite (round64 value)).
Proof.
  intros Htext Hw Hc Hwt Hct dollars cents value. split; [|split].
  - unfold priceOf. rewrite Htext. cbn [bind missing].
    exact (splitPriceOf_value element w c None wtext ctext Hw Hc Hwt Hct).
  - apply mk_not_NaN.
  - intros Hlen.
    destruct (split_digits wtext (js "0") ltac:(discriminate) eq_refl) as [_ HD].
    destruct (split_digits ctext (js "00") ltac:(discriminate) eq_refl) as [_ HC].
    fold dollars in HD. fold cents in HC.
    pose proof (run_length_bound dollars HD Hlen) as Hd.
    pose proof (digitsValue_bound cents HC) as Hf.
    assert (Z.of_N (10 ^ 300) = 10 ^ 300)%Z as Hof by (vm_compute; reflexivity).
    assert (inject_Z (Z.of_N (digitsValue dollars)) <= inject_Z (10 ^ 300)) as Hd1
      by (rewrite <- Zle_Qle; lia).
    assert (inject_Z (Z.of_N (digitsValue cents))
            / inject_Z (10 ^ Z.of_nat (length cents)) <= 1) as Hf1.
    { apply Qle_shift_div_r.
      - change 0 with (inject_Z 0). rewrite <- Zlt_Qlt. apply Z.pow_pos_nonneg; lia.
      - rewrite Qmult_1_l, <- Zle_Qle.
        replace (10 ^ Z.of_nat (length cents))%Z
          with (Z.of_N (10 ^ N.of_nat (length cents))); [lia|].
        rewrite N2Z.inj_pow, nat_N_Z. reflexivity. }
    assert (inject_Z (10 ^ 300) + 1 <= inject_Z (10 ^ 301)) as Hroom
      by (vm_compute; discriminate).
    apply mk_below, small_below. unfold value. lra.
Qed.

Lemma X9_split_price_value_witness :
  let whole := El "span" [attribute "class" "w_C6 w_D w_C7 w_Da"] [text "$12"] in
  let cents := El "span" [attribute "class" "w_C6 w_D w_C7 w_Db"] [text "99"] in
  let card := [titleNode; whole; cents; linkNode "/ip/1"] in
  let host := treeHost (cardPage [] card) in
  priceOf (cardElement [] card) = Ok (Some (Finite (round64 (1299 # 100))))
  /\ parseFloat (js "12.99") = Finite (round64 (1299 # 100)).
Proof.
  intros whole cents card host.
  set (element := cardElement [] card).
  split; [|vm_compute; reflexivity].
  rewrite (proj1 (@X9_split_price_value _ host element
             (childElement element "span" [attribute "class" "w_C6 w_D w_C7 w_Da"] [text "$12"])
             (childElement element "span" [attribute "class" "w_C6 w_D w_C7 w_Db"] [text "99"])
             (Some (js "$12")) (Some (js "99"))
             ltac:(vm_compute; reflexivity) ltac:(vm_compute; reflexivity)
             ltac:(vm_compute; reflexivity) ltac:(vm_compute; reflexivity)
             ltac:(vm_compute; reflexivity))).
  vm_compute. reflexivity.
Defined.

(** ** What every returned record satisfies *)

(** A number that is not negative (NaN and Infinity count as such). *)
Definition nonneg (x : number) : Prop :=
  match x with
  | Finite q => 0 <= q
  | _ => True
  end.

Section RecordFacts.

Lemma dropWhile_app_stop (f : char -> bool) (l m : jsstring) (c : char) :
  f c = false -> dropWhile f (l ++ c :: m) = dropWhile f l ++ c :: m.
Proof.
  intros Hc. induction l as [|x l IH]; simpl; [now rewrite Hc|].
  destruct (f x); [exact IH|reflexivity].
Qed.

(** [trim] leaves no white space at either end. *)
Lemma trim_ends (s : jsstring) :
  startsIn isSpace (trim s) = false /\ startsIn isSpace (rev (trim s)) = false.
Proof.
  unfold trim. split.
  - pose proof (dropWhile_stops isSpace s) as Hstart.
    destruct (dropWhile isSpace s) as [|c t]; [reflexivity|].
    simpl in Hstart. cbn [rev].
    rewrite (dropWhile_app_stop isSpace (rev t) [] c Hstart).
    rewrite rev_app_distr. simpl. exact Hstart.
  - rewrite rev_involutive. apply dropWhile_stops.
Qed.

Lemma mk_nonneg (q : Q) : 0 <= q -> nonneg (mk q).
Proof.
  intros H. unfold mk. destruct (Qle_bool _ _); cbn [nonneg]; [exact I|].
  now apply round64_nonneg.
Qed.

Lemma parseInt_nonneg (s : jsstring) : nonneg (parseInt s).
Proof.
  unfold parseInt. destruct (takeWhile isDigit s); [exact I|].
  apply mk_nonneg, inject_N_nonneg.
Qed.

Lemma priceOfMatch_nonneg (m : captures) : nonneg (priceOfMatch m).
Proof.
  unfold priceOfMatch.
  assert (nonneg (match group 1 m with Some d => parseInt d | None => NaN end))
    as Hd by (destruct (group 1 m); [apply parseInt_nonneg|exact I]).
  assert (nonneg (centsOf m)) as Hc.
  { unfold centsOf. destruct (group 2 m) as [c|]; [|simpl; apply Qle_refl].
    destruct (truthy c); [apply parseInt_nonneg|simpl; apply Qle_refl]. }
  destruct (match group 1 m with Some d => parseInt d | None => NaN end)
    as [| |a]; [exact I| |].
  - destruct (centsOf m) as [| |b]; simpl; try exact I.
    destruct (mk (b / 100)); exact I.
  - destruct (centsOf m) as [| |b]; try exact I.
    simpl in Hd, Hc. unfold JsNumber.div. change (isZero 100) with false. cbv iota.
    assert (0 <= b / 100) as Hb.
    { unfold Qdiv. change (/ 100) with (1 # 100). lra. }
    pose proof (mk_nonneg (b / 100) Hb) as Hmk.
    destruct (mk (b / 100)) as [| |x]; try exact I.
    simpl in Hmk. unfold add. apply mk_nonneg. lra.
Qed.

Context {Element : Type} {host : Host Element}.

Lemma titleOf_trimmed (element : Element) (t : jsstring) :
  titleOf element = Ok t ->
  startsIn isSpace t = false /\ startsIn isSpace (rev t) = false.
Proof.
  unfold titleOf.
  destruct (querySelector element sel_title) as [[te|]|]; cbn [bind];
    try discriminate.
  - destruct (textContent te) as [[s|]|]; cbn [bind]; try discriminate.
    + intros [= <-]. apply trim_ends.
    + intros [= <-]. auto.
  - intros [= <-]. auto.
Qed.

Lemma priceOf_nonneg (element : Element) (p : number) :
  priceOf element = Ok (Some p) -> nonneg p.
Proof.
  unfold priceOf.
  assert (forall q, textPriceOf element = Ok (Some q) -> nonneg q) as Htext.
  { intros q. unfold textPriceOf.
    destruct (querySelector element sel_price) as [[pe|]|]; cbn [bind];
      try discriminate.
    destruct (textContent pe) as [text|]; cbn [bind]; [|discriminate].
    unfold priceFromText.
    destruct (includes _ _); destruct (exec _ _); try discriminate;
      intros [= <-]; apply priceOfMatch_nonneg. }
  assert (forall p0, splitPriceOf element p0 = Ok (Some p) ->
                     p0 = Some p \/ nonneg p) as Hsplit.
  { intros p0. unfold splitPriceOf.
    destruct (querySelector element sel_wholeDollar) as [w|]; [|discriminate].
    cbn [bind].
    destruct (querySelector element sel_cents) as [c|]; [|discriminate].
    cbn [bind].
    destruct w as [w|]; [|intros [= ->]; now left].
    destruct c as [c|]; [|intros [= ->]; now left].
    destruct (textContent w) as [wtext|]; [|discriminate]. cbn [bind].
    destruct (textContent c) as [ctext|]; [|discriminate]. cbn [bind].
    intros [= <-]. right.
    destruct (parseFloat _) as [| |x] eqn:E; try exact I.
    destruct (parseFloat_Finite _ _ E) as (v & Hv & ->).
    now apply round64_nonneg. }
  destruct (textPriceOf element) as [[p0|]|] eqn:Et; cbn [bind]; [| |discriminate].
  - destruct (missing (Some p0)).
    + intros H. destruct (Hsplit _ H) as [[= ->]|Hn]; [|exact Hn].
      now apply Htext.
    + intros [= <-]. now apply Htext.
  - cbn [missing]. intros H. destruct (Hsplit _ H) as [E|Hn]; [discriminate|exact Hn].
Qed.

Lemma firstId_truthy (patterns : list regex) (url id : jsstring) :
  firstId patterns url = Some id -> id <> [].
Proof.
  induction patterns as [|pattern rest IH]; simpl; [discriminate|].
  destruct (exec pattern url) as [m|]; [|exact IH].
  destruct (group 1 m) as [[|c v]|]; try exact IH.
  simpl. intros [= <-]. discriminate.
Qed.

Lemma orUndefined_truthy (x : option jsstring) : orUndefined x <> Some [].
Proof. destruct x as [[|c s]|]; simpl; discriminate. Qed.

Lemma productIdOf_truthy (element : Element) (url : jsstring) (id : option jsstring) :
  productIdOf element url = Ok id -> id <> Some [].
Proof.
  unfold productIdOf. destruct (truthy url); [|intros [= <-]; discriminate].
  destruct (firstId idPatterns url) as [v|] eqn:E.
  - intros [= <-] [= ->]. exact (firstId_truthy _ _ _ E eq_refl).
  - destruct (getAttribute element "data-item-id") as [a|]; cbn [bind];
      [|discriminate].
    destruct (orUndefined a) as [v|] eqn:Ea.
    + intros [= <-]. rewrite <- Ea. apply orUndefined_truthy.
    + destruct (getAttribute element "data-product-id") as [b|]; cbn [bind];
        [|discriminate].
      intros [= <-]. apply orUndefined_truthy.
Qed.

Lemma imageOf_truthy (element : Element) (img : option jsstring) :
  imageOf element = Ok img -> img <> Some [].
Proof.
  unfold imageOf.
  destruct (querySelector element sel_image) as [[i|]|]; cbn [bind];
    try discriminate.
  - destruct (getAttribute i "src") as [src|]; cbn [bind]; [|discriminate].
    intros [= <-]. apply orUndefined_truthy.
  - intros [= <-]. discriminate.
Qed.

End RecordFacts.

(** X10.  Every record that is returned has a non-empty title without white
    space at either end, a non-empty URL, the marketplace walmart, an image
    and an item identifier that are absent rather than empty, and a price
    that is a non-negative number or Infinity. *)
Theorem X10_record_invariants
        {Element : Type} {host : Host Element} (element : Element)
        (r : ProductMatchResult) :
  extractWalmartSearchResult element = Ok (Some r) ->
  title r <> []
  /\ startsIn isSpace (title r) = false
  /\ startsIn isSpace (rev (title r)) = false
  /\ url r <> []
  /\ marketplace r = walmart
  /\ image r <> Some []
  /\ item_id r <> Some []
  /\ (price r = Infinity \/ exists q, price r = Finite q /\ 0 <= q).
Proof.
  intros Hr. apply body_of_extract, extractBody_record in Hr.
  destruct Hr as (Ht & Htt & Hp & Hpn & Hu & Hut & Hid & Himg & _ & _ & Hm).
  destruct (titleOf_trimmed element _ Ht) as [Hs He].
  rewrite truthy_nonempty in Htt, Hut.
  repeat (split; [first [assumption
                        | now apply (imageOf_truthy element)
                        | now apply (productIdOf_truthy element (url r))]|]).
  pose proof (priceOf_nonneg element _ Hp) as Hn.
  destruct (price r) as [| |q]; [discriminate Hpn|now left|right; eauto].
Qed.

Lemma X10_record_invariants_witness :
  startsIn isSpace (js "Some Title") = false
  /\ (Finite 7 = Infinity \/ exists q, Finite 7 = Finite q /\ 0 <= q).
Proof.
  pose (card := [titleNode; priceNode (js "$7"); linkNode "/ip/1"]).
  pose (r := {| title := js "Some Title"; price := Finite 7; image := None;
                url := js "https://www.walmart.com/ip/1"; marketplace := walmart;
                item_id := Some (js "1");
                ratings := {| average := None; count := None |} |}).
  destruct (@X10_record_invariants _ (treeHost (cardPage [] card))
              (cardElement [] card) r ltac:(vm_compute; reflexivity))
    as (_ & Hstart & _ & _ & _ & _ & _ & Hprice).
  split; [exact Hstart|exact Hprice].
Defined.

(** ** Identifiers read from the URL *)

(** What the identifier patterns capture: a non-empty digit run. *)
Definition digitRun (i : nat) (v : jsstring) : Prop :=
  v <> [] /\ forallb isDigit v = true.

Section IdFacts.

Lemma plus_digit_run (i : nat) :
  forall st st' D, In st' (run (Plus digit) st) -> fst st = D ++ fst st' ->
                   digitRun i D.
Proof.
  intros st st' D Hin E.
  destruct (plus_chr_consumes isDigit st st' Hin) as (D' & E' & Hne & HD & _).
  rewrite E in E'. apply app_inv_tail in E'. subst D'. now split.
Qed.

Lemma idPatterns_groups (pattern : regex) :
  In pattern idPatterns -> groupsSat digitRun pattern.
Proof.
  intros [<-|[<-|[<-|[]]]]; cbn -[Plus run digitRun]; split_groups;
    try (cbn; tauto); apply plus_digit_run.
Qed.

Lemma firstId_from_pattern (patterns : list regex) (url id : jsstring) :
  firstId patterns url = Some id ->
  exists pattern m,
    In pattern patterns /\ exec pattern url = Some m /\ group 1 m = Some id.
Proof.
  induction patterns as [|pattern rest IH]; simpl; [discriminate|].
  assert (firstId rest url = Some id ->
          exists p m, (pattern = p \/ In p rest) /\ exec p url = Some m
                      /\ group 1 m = Some id) as Hrest.
  { intros H. destruct (IH H) as (p & m & Hin & He & Hg). exists p, m. auto. }
  destruct (exec pattern url) as [m|] eqn:E; [|exact Hrest].
  destruct (group 1 m) as [[|c v]|] eqn:G; try exact Hrest.
  simpl. intros [= <-]. exists pattern, m. auto.
Qed.

End IdFacts.

(** X11.  An identifier taken from the URL is a non-empty string of decimal
    digits, and it is the identifier of the record whenever a pattern matches
    the resolved URL. *)
Theorem X11_url_identifier_is_digits :
  (forall url id,
      firstId idPatterns url = Some id ->
      id <> [] /\ forallb isDigit id = true)
  /\ (forall (Element : Type) (host : Host Element) (element : Element) r id,
         extractWalmartSearchResult element = Ok (Some r) ->
         firstId idPatterns (url r) = Some id ->
         item_id r = Some id).
Proof.
  split.
  - intros url id H.
    destruct (firstId_from_pattern _ _ _ H) as (pattern & m & Hin & He & Hg).
    exact (exec_capsSat digitRun pattern url m (idPatterns_groups _ Hin) He
                        1%nat id (group_in _ _ _ Hg)).
  - intros Element host element r id Hr Hid.
    apply body_of_extract, extractBody_record in Hr.
    destruct Hr as (_ & _ & _ & _ & _ & Hut & Hpid & _).
    rewrite truthy_nonempty in Hut.
    rewrite (productIdOf_from_url element (url r) id Hut Hid) in Hpid.
    now injection Hpid as <-.
Qed.

Lemma X11_url_identifier_is_digits_witness :
  js "9876" <> [] /\ forallb isDigit (js "9876") = true.
Proof.
  apply (proj1 X11_url_identifier_is_digits
           (js "https://www.walmart.com/ip/Some-Title/9876?athbdg=L1600")).
  vm_compute. reflexivity.
Defined.

(** ** Ratings from the style attribute *)

Section WidthFacts.

Lemma run_seq_in (r1 r2 : regex) (st st' : state) :
  In st' (run (Seq r1 r2) st) ->
  exists x, In x (run r1 st) /\ In st' (run r2 x).
Proof. simpl. intros H. apply in_flat_map in H. exact H. Qed.

Lemma exec_in (r : regex) (s : jsstring) (caps : captures) :
  exec r s = Some caps ->
  exists pre suf st', s = pre ++ suf /\ In st' (run r (suf, [])).
Proof.
  induction s as [|c s IH]; simpl.
  - destruct (run r ([], [])) as [|st l] eqn:E; [discriminate|].
    intros _. exists [], [], st. rewrite E. split; [reflexivity|now left].
  - destruct (run r (c :: s, [])) as [|st l] eqn:E.
    + intros H. destruct (IH H) as (pre & suf & st' & -> & Hin).
      exists (c :: pre), suf, st'. auto.
    + intros _. exists [], (c :: s), st. rewrite E. split; [reflexivity|now left].
Qed.

Lemma chr_consumes (p : char -> bool) (st st' : state) :
  In st' (run (Chr p) st) -> exists c, fst st = c :: fst st' /\ p c = true.
Proof.
  destruct st as [[|c s] caps]; simpl; [intros []|].
  destruct (p c) eqn:Hp; [|intros []]. intros [<-|[]]. now exists c.
Qed.

(** The width pattern only matches a text with a percent sign. *)
Lemma reWidth_needs_percent (style : jsstring) (m : captures) :
  exec reWidth style = Some m -> In (ch "%") style.
Proof.
  intros H. destruct (exec_in _ _ _ H) as (pre & suf & st' & -> & Hin).
  unfold reWidth in Hin. cbn [seq] in Hin.
  apply run_seq_in in Hin. destruct Hin as (x1 & H1 & Hin).
  apply run_seq_in in Hin. destruct Hin as (x2 & H2 & Hin).
  apply run_seq_in in Hin. destruct Hin as (x3 & H3 & Hin).
  apply run_seq_in in Hin. destruct Hin as (x4 & H4 & Hin).
  destruct (run_suffix _ _ _ H1) as [D1 E1]. destruct (run_suffix _ _ _ H2) as [D2 E2].
  destruct (run_suffix _ _ _ H3) as [D3 E3]. destruct (run_suffix _ _ _ H4) as [D4 E4].
  simpl in E1. rewrite E1, E2, E3, E4.
  destruct (chr_consumes _ _ _ Hin) as (c & Ec & Hc).
  apply N.eqb_eq in Hc. subst c. rewrite Ec.
  repeat (apply in_or_app; right). now left.
Qed.

End WidthFacts.

(** X12.  A style attribute that mentions "width" but holds no percent sign
    (a width in pixels, say) gives no rating at all: the rating stays null
    and the text of the rating element is not read. *)
Theorem X12_width_without_percent_gives_no_rating
        {Element : Type} {host : Host Element}
        (element ratingElement : Element) (style : jsstring) :
  querySelector element sel_rating = Ok (Some ratingElement) ->
  getAttribute ratingElement "style" = Ok (Some style) ->
  includes style (js "width") = true ->
  existsb (N.eqb (ch "%")) style = false ->
  ratingOf element = Ok None.
Proof.
  intros Hq Hs Hinc Hpct. unfold ratingOf. rewrite Hq. cbn [bind]. rewrite Hs.
  cbn [bind]. unfold hasWidth. rewrite Hinc.
  destruct style as [|c style]; [discriminate Hinc|].
  cbn [truthy andb orElse]. unfold ratingOfWidth.
  destruct (exec reWidth (c :: style)) as [m|] eqn:E; [|reflexivity].
  exfalso. apply reWidth_needs_percent in E.
  assert (existsb (N.eqb (ch "%")) (c :: style) = true) as Hex
    by (apply existsb_exists; exists (ch "%"); split; [exact E|apply N.eqb_refl]).
  congruence.
Qed.

Lemma X12_width_without_percent_gives_no_rating_witness :
  let stars := El "span" [attribute "class" "stars-container";
                          attribute "style" "max-width: 70px"] [text "4.5"] in
  let card := [titleNode; priceNode (js "$7"); linkNode "/ip/1"; stars] in
  let host := treeHost (cardPage [] card) in
  ratingOf (cardElement [] card) = Ok None.
Proof.
  intros stars card host.
  apply (@X12_width_without_percent_gives_no_rating _ host (cardElement [] card)
           (childElement (cardElement [] card) "span"
              [attribute "class" "stars-container";
               attribute "style" "max-width: 70px"] [text "4.5"])
           (js "max-width: 70px")); vm_compute; reflexivity.
Defined.

(** ** Review counts with thousands separators *)

(** Digit groups behind their commas: ",234,567". *)
Definition grouped (groups : list jsstring) : jsstring :=
  flat_map (fun g => ch "," :: g) groups.

(** Whether a text goes on with a comma and a digit. *)
Definition commaDigit (s : jsstring) : bool :=
  match s with
  | c :: d :: _ => (ch "," =? c)%N && isDigit d
  | _ => false
  end.

Section CountFacts.

Lemma digit_not_comma (c : char) : isDigit c = true -> (ch "," =? c)%N = false.
Proof.
  unfold isDigit, between. intros H. apply andb_true_iff in H.
  destruct H as [Hlo _]. apply N.leb_le in Hlo. apply N.eqb_neq.
  change (ch ",") with 44%N. lia.
Qed.

Lemma grouped_stops (groups : list jsstring) (rest : jsstring) :
  startsIn isDigit rest = false ->
  startsIn isDigit (grouped groups ++ rest) = false.
Proof. intros H. destruct groups; [exact H|reflexivity]. Qed.

(** One more group: [,\d+]. *)
Lemma run_comma_group (g more : jsstring) (caps : captures) :
  g <> [] -> forallb isDigit g = true -> startsIn isDigit more = false ->
  hd_error (run (Seq (the ",") (Plus digit)) (ch "," :: g ++ more, caps))
  = Some (more, caps).
Proof.
  intros Hne Hg Hmore. unfold the. rewrite run_seq_chr, N.eqb_refl.
  now apply run_plus_chr_hd.
Qed.

Lemma run_comma_group_fail (rest : jsstring) (caps : captures) :
  commaDigit rest = false ->
  run (Seq (the ",") (Plus digit)) (rest, caps) = [].
Proof.
  intros H. destruct rest as [|c rest]; [reflexivity|].
  unfold the. rewrite run_seq_chr. destruct (ch "," =? c)%N eqn:Ec; [|reflexivity].
  apply run_plus_chr_fail. destruct rest as [|d rest]; [reflexivity|].
  cbn [commaDigit] in H. rewrite Ec in H. exact H.
Qed.

Lemma star_groups_hd (groups : list jsstring) (rest : jsstring) (caps : captures)
      (n : nat) :
  Forall (fun g => g <> [] /\ forallb isDigit g = true) groups ->
  startsIn isDigit rest = false -> commaDigit rest = false ->
  (length (grouped groups) <= n)%nat ->
  hd_error (star_iter (run (Seq (the ",") (Plus digit))) true n
                      (grouped groups ++ rest, caps))
  = Some (rest, caps).
Proof.
  intros Hgroups Hrest Hstop. revert n.
  induction Hgroups as [|g groups [Hne Hg] _ IH]; intros n Hn.
  - destruct n; [reflexivity|]. rewrite star_iter_S. cbn [grouped flat_map app].
    now rewrite (run_comma_group_fail rest caps Hstop).
  - destruct n; [simpl in Hn; lia|]. rewrite star_iter_S.
    cbn [grouped flat_map]. fold (grouped groups).
    change ((ch "," :: g) ++ grouped groups) with (ch "," :: g ++ grouped groups).
    rewrite <- !app_comm_cons, <- app_assoc.
    pose proof (run_comma_group g (grouped groups ++ rest) caps Hne Hg
                  (grouped_stops groups rest Hrest)) as Hhd.
    destruct (run _ (ch "," :: g ++ grouped groups ++ rest, caps)) as [|x l];
      [discriminate Hhd|].
    simpl in Hhd. injection Hhd as ->.
    assert (progress (ch "," :: g ++ grouped groups ++ rest, caps)
                     (grouped groups ++ rest, caps) = true) as Hprog.
    { apply Nat.ltb_lt. cbn [fst length]. rewrite !length_app. lia. }
    cbn [filter]. rewrite Hprog. cbn [flat_map].
    assert (length (grouped groups) <= n)%nat as Hn'.
    { cbn [grouped flat_map] in Hn. fold (grouped groups) in Hn.
      rewrite length_app in Hn. simpl in Hn. lia. }
    specialize (IH n Hn').
    destruct (star_iter _ _ _ (grouped groups ++ rest, caps)); [discriminate IH|].
    exact IH.
Qed.

Lemma keep_digits_of_groups (D : jsstring) (groups : list jsstring) :
  forallb isDigit D = true ->
  Forall (fun g => g <> [] /\ forallb isDigit g = true) groups ->
  keep (fun x => negb (x =? ch ",")%N) (D ++ grouped groups) = D ++ concat groups.
Proof.
  intros HD Hgroups.
  assert (forall s, forallb isDigit s = true ->
                    keep (fun x => negb (x =? ch ",")%N) s = s) as Hkeep.
  { intros s. unfold keep. induction s as [|c s IH]; simpl; [reflexivity|].
    intros H. apply andb_true_iff in H. destruct H as [Hc Hs].
    rewrite N.eqb_sym, (digit_not_comma c Hc). simpl. now rewrite IH. }
  unfold keep in *. rewrite filter_app, (Hkeep D HD). f_equal.
  induction Hgroups as [|g groups [_ Hg] _ IH]; [reflexivity|].
  cbn [grouped flat_map concat]. fold (grouped groups).
  change ((ch "," :: g) ++ grouped groups) with (ch "," :: g ++ grouped groups).
  cbn [filter]. rewrite N.eqb_refl. cbn [negb].
  now rewrite filter_app, (Hkeep g Hg), IH.
Qed.

Lemma concat_digits (D : jsstring) (groups : list jsstring) :
  forallb isDigit D = true ->
  Forall (fun g => g <> [] /\ forallb isDigit g = true) groups ->
  forallb isDigit (D ++ concat groups) = true.
Proof.
  intros HD Hgroups. rewrite forallb_app, HD. simpl.
  induction Hgroups as [|g groups [_ Hg] _ IH]; [reflexivity|].
  simpl. now rewrite forallb_app, Hg, IH.
Qed.

(** The count pattern takes the first digit run and every comma group that
    directly follows it. *)
Lemma exec_count (pre D rest : jsstring) (groups : list jsstring) :
  forallb notDigit pre = true ->
  D <> [] -> forallb isDigit D = true ->
  Forall (fun g => g <> [] /\ forallb isDigit g = true) groups ->
  startsIn isDigit rest = false -> commaDigit rest = false ->
  exec reCount (pre ++ D ++ grouped groups ++ rest)
  = Some [(1%nat, D ++ grouped groups)].
Proof.
  intros Hpre Hne HD Hgroups Hrest Hstop. induction pre as [|c pre IH].
  - cbn [app]. apply (exec_here _ _ (rest, [(1%nat, D ++ grouped groups)])).
    unfold reCount. rewrite app_assoc.
    apply (run_group_consumed 1 _ (D ++ grouped groups) rest).
    rewrite <- app_assoc. eapply run_seq_hd.
    + apply run_plus_chr_hd; [exact Hne|exact HD|].
      now apply grouped_stops.
    + cbn [run fst]. apply star_groups_hd; try assumption.
      rewrite length_app. lia.
  - simpl in Hpre. apply andb_true_iff in Hpre. destruct Hpre as [Hc Hpre].
    cbn [app]. rewrite exec_next; [now apply IH|].
    unfold reCount. apply run_group_fail, run_seq_fail, run_plus_chr_fail.
    unfold notDigit in Hc. now apply negb_true_iff in Hc.
Qed.

End CountFacts.

(** X13.  The review count is the first digit run of the text together with
    every comma-separated digit group that directly follows it, read as one
    integer with the commas removed: "(1,234 reviews)" counts 1234.  The
    count is that integer when a double holds it, as every integer up to 2^53,
    and the double nearest to it (or Infinity) otherwise. *)
Theorem X13_review_count_drops_separators
        (pre D rest : jsstring) (groups : list jsstring) :
  forallb notDigit pre = true ->
  D <> [] -> forallb isDigit D = true ->
  Forall (fun g => g <> [] /\ forallb isDigit g = true) groups ->
  startsIn isDigit rest = false -> commaDigit rest = false ->
  countOfText (pre ++ D ++ grouped groups ++ rest)
  = Some (of_N (digitsValue (D ++ concat groups)))
  /\ ((digitsValue (D ++ concat groups) <= 2 ^ 53)%N ->
      countOfText (pre ++ D ++ grouped groups ++ rest)
      = Some (Finite (inject_Z (Z.of_N (digitsValue (D ++ concat groups)))))).
Proof.
  intros Hpre Hne HD Hgroups Hrest Hstop.
  assert (countOfText (pre ++ D ++ grouped groups ++ rest)
          = Some (of_N (digitsValue (D ++ concat groups)))) as Hcount.
  { unfold countOfText.
    rewrite (exec_count pre D rest groups Hpre Hne HD Hgroups Hrest Hstop).
    cbn [group Nat.eqb]. rewrite orUndefined_nonempty.
    2:{ destruct D; [congruence|discriminate]. }
    rewrite (keep_digits_of_groups D groups HD Hgroups).
    rewrite parseInt_digits; [reflexivity| |now apply concat_digits].
    destruct D; [congruence|discriminate]. }
  split; [exact Hcount|].
  intros Hval. now rewrite Hcount, of_N_exact.
Qed.

Lemma X13_review_count_drops_separators_witness :
  countOfText (js "(1,234,567 reviews)") = Some (Finite 1234567).
Proof.
  change (js "(1,234,567 reviews)")
    with (js "(" ++ js "1" ++ grouped [js "234"; js "567"] ++ js " reviews)").
  rewrite (proj2 (X13_review_count_drops_separators
                    (js "(") (js "1") (js " reviews)") [js "234"; js "567"]
                    eq_refl ltac:(discriminate) eq_refl
                    ltac:(repeat constructor; discriminate) eq_refl eq_refl));
    [reflexivity|vm_compute; discriminate].
Defined.

(** ** Ratings and review counts are numbers *)

(** What the rating and count patterns capture: a string that starts with a
    digit. *)
Definition digitFirst (i : nat) (v : jsstring) : Prop :=
  startsIn isDigit v = true.

Section RatingFacts.

Lemma seq_plus_starts (p : char -> bool) (r : regex) (st st' : state)
      (D : jsstring) :
  In st' (run (Seq (Plus (Chr p)) r) st) -> fst st = D ++ fst st' ->
  startsIn p D = true.
Proof.
  intros Hin E.
  change (run (Seq (Plus (Chr p)) r) st)
    with (flat_map (run r) (run (Plus (Chr p)) st)) in Hin.
  apply in_flat_map in Hin. destruct Hin as (x & Hx & Hx').
  destruct (plus_chr_consumes p st x Hx) as (D1 & E1 & Hne & HD & _).
  destruct (run_suffix r x st' Hx') as [D2 E2].
  rewrite E1, E2, app_assoc in E. apply app_inv_tail in E. subst D.
  destruct D1 as [|c D1]; [congruence|]. simpl in HD.
  apply andb_true_iff in HD. exact (proj1 HD).
Qed.

Lemma reDecimal_groups : groupsSat digitFirst reDecimal.
Proof.
  unfold reDecimal. cbn -[Plus run digitFirst]. split_groups; try (cbn; tauto).
  intros st st' D. apply seq_plus_starts.
Qed.

Lemma reWidth_groups : groupsSat digitFirst reWidth.
Proof.
  unfold reWidth. cbn -[Plus run digitFirst]. split_groups; try (cbn; tauto).
  intros st st' D. apply seq_plus_starts.
Qed.

Lemma reCount_groups : groupsSat digitFirst reCount.
Proof.
  unfold reCount. cbn -[Plus run digitFirst]. split_groups; try (cbn; tauto).
  intros st st' D. apply seq_plus_starts.
Qed.

Lemma parseFloat_digitFirst (w : jsstring) :
  startsIn isDigit w = true ->
  isNaN (parseFloat w) = false /\ nonneg (parseFloat w).
Proof.
  intros Hw. destruct w as [|c w]; [discriminate|]. simpl in Hw.
  unfold parseFloat. cbn [takeWhile]. rewrite Hw.
  set (ds := c :: takeWhile isDigit w). set (fs := match _ with [] => [] | _ :: _ => _ end).
  assert (0 <= inject_Z (Z.of_N (digitsValue ds))
               + inject_Z (Z.of_N (digitsValue fs))
                 / inject_Z (10 ^ Z.of_nat (length fs))) as Hv.
  { pose proof (inject_N_nonneg (digitsValue ds)).
    pose proof (inject_N_nonneg (digitsValue fs)).
    assert (0 < inject_Z (10 ^ Z.of_nat (length fs))) as Hpos.
    { change 0 with (inject_Z 0). rewrite <- Zlt_Qlt. apply Z.pow_pos_nonneg; lia. }
    assert (0 <= inject_Z (Z.of_N (digitsValue fs))
                 / inject_Z (10 ^ Z.of_nat (length fs))).
    { apply Qle_shift_div_l; [exact Hpos|]. now rewrite Qmult_0_l. }
    lra. }
  subst ds. cbv iota. split; [apply mk_not_NaN|now apply mk_nonneg].
Qed.

(** Scaling a percentage to stars keeps a number a number. *)
Lemma stars_number (x : number) :
  isNaN x = false -> nonneg x ->
  isNaN (mul (JsNumber.div x (Finite 100)) (Finite 5)) = false
  /\ nonneg (mul (JsNumber.div x (Finite 100)) (Finite 5)).
Proof.
  intros Hx Hn. destruct x as [| |a]; [discriminate| |].
  - split; [reflexivity|exact I].
  - simpl in Hn. unfold JsNumber.div. change (isZero 100) with false. cbv iota.
    assert (0 <= a / 100) as Ha.
    { unfold Qdiv. change (/ 100) with (1 # 100). lra. }
    pose proof (mk_nonneg (a / 100) Ha) as Hmk.
    pose proof (mk_not_NaN (a / 100)) as Hnn.
    destruct (mk (a / 100)) as [| |b]; [discriminate| |].
    + split; [reflexivity|exact I].
    + simpl in Hmk. unfold mul. split; [apply mk_not_NaN|].
      apply mk_nonneg. lra.
Qed.

Lemma captured_digitFirst (r : regex) (s : jsstring) (m : captures)
      (v : jsstring) :
  groupsSat digitFirst r -> exec r s = Some m ->
  orUndefined (group 1 m) = Some v -> startsIn isDigit v = true.
Proof.
  intros Hg Hm Hv. destruct (group 1 m) as [w|] eqn:G; [|discriminate].
  simpl in Hv. destruct (truthy w); [|discriminate]. injection Hv as <-.
  exact (exec_capsSat digitFirst r s m Hg Hm 1%nat w (group_in _ _ _ G)).
Qed.

Lemma ratingOfWidth_number (style : jsstring) (x : number) :
  ratingOfWidth style = Some x -> isNaN x = false /\ nonneg x.
Proof.
  unfold ratingOfWidth. destruct (exec reWidth style) as [m|] eqn:E; [|discriminate].
  destruct (orUndefined (group 1 m)) as [w|] eqn:G; [|discriminate].
  intros [= <-].
  destruct (parseFloat_digitFirst w
              (captured_digitFirst reWidth style m w reWidth_groups E G)).
  now apply stars_number.
Qed.

Lemma ratingOfText_number (text : jsstring) (x : number) :
  ratingOfText text = Some x -> isNaN x = false /\ nonneg x.
Proof.
  unfold ratingOfText. destruct (exec reDecimal text) as [m|] eqn:E; [|discriminate].
  destruct (orUndefined (group 1 m)) as [w|] eqn:G; [|discriminate].
  intros [= <-].
  exact (parseFloat_digitFirst w
           (captured_digitFirst reDecimal text m w reDecimal_groups E G)).
Qed.

(** [parseInt] gives NaN, Infinity or a natural number. *)
Lemma parseInt_integer (s : jsstring) (q : Q) :
  parseInt s = Finite q -> exists k : N, q = inject_Z (Z.of_N k).
Proof.
  unfold parseInt. destruct (takeWhile isDigit s) as [|c ds]; [discriminate|].
  unfold of_N. intros H. apply mk_Finite_inv in H. destruct H as [-> _].
  destruct (round64_integral (Z.of_N (digitsValue (c :: ds))) ltac:(lia))
    as (z & Hz & ->).
  exists (Z.to_N z). now rewrite Z2N.id.
Qed.

Lemma countOfText_number (text : jsstring) (n : number) :
  countOfText text = Some n ->
  n = Infinity \/ exists k : N, n = Finite (inject_Z (Z.of_N k)).
Proof.
  unfold countOfText. destruct (exec reCount text) as [m|] eqn:E; [|discriminate].
  destruct (orUndefined (group 1 m)) as [w|] eqn:G; [|discriminate].
  intros [= <-].
  pose proof (captured_digitFirst reCount text m w reCount_groups E G) as Hw.
  destruct w as [|c w]; [discriminate|]. simpl in Hw.
  destruct (parseInt _) as [| |q] eqn:P.
  - exfalso. unfold parseInt, keep in P. cbn [filter] in P.
    rewrite N.eqb_sym, (digit_not_comma c Hw) in P. cbn [negb takeWhile] in P.
    rewrite Hw in P. unfold of_N in P. pose proof (mk_not_NaN (inject_Z
      (Z.of_N (digitsValue (c :: takeWhile isDigit
         (filter (fun x => negb (x =? ch ",")%N) w)))))) as H.
    rewrite P in H. discriminate.
  - now left.
  - right. destruct (parseInt_integer _ _ P) as [k ->]. now exists k.
Qed.

Context {Element : Type} {host : Host Element}.

Lemma ratingOf_number (element : Element) (x : number) :
  ratingOf element = Ok (Some x) -> isNaN x = false /\ nonneg x.
Proof.
  unfold ratingOf.
  destruct (querySelector element sel_rating) as [[r|]|]; cbn [bind];
    try discriminate.
  destruct (getAttribute r "style") as [style|]; cbn [bind]; [|discriminate].
  destruct (hasWidth style).
  - intros [= H]. exact (ratingOfWidth_number _ _ H).
  - destruct (textContent r) as [text|]; cbn [bind]; [|discriminate].
    intros [= H]. exact (ratingOfText_number _ _ H).
Qed.

Lemma reviewCountOf_number (element : Element) (n : number) :
  reviewCountOf element = Ok (Some n) ->
  n = Infinity \/ exists k : N, n = Finite (inject_Z (Z.of_N k)).
Proof.
  unfold reviewCountOf.
  destruct (querySelector element sel_reviewCount) as [[r|]|]; cbn [bind];
    try discriminate.
  destruct (textContent r) as [text|]; cbn [bind]; [|discriminate].
  intros [= H]. exact (countOfText_number _ _ H).
Qed.

End RatingFacts.

(** X14.  The ratings of a record are numbers whenever they are present: the
    average is never NaN and never negative, and the review count is a
    natural number; either can be Infinity, when the digit run is too long
    for a double. *)
Theorem X14_ratings_are_numbers
        {Element : Type} {host : Host Element} (element : Element)
        (r : ProductMatchResult) :
  extractWalmartSearchResult element = Ok (Some r) ->
  (forall x, average (ratings r) = Some x ->
             x = Infinity \/ exists q, x = Finite q /\ 0 <= q)
  /\ (forall n, count (ratings r) = Some n ->
                n = Infinity \/ exists k : N, n = Finite (inject_Z (Z.of_N k))).
Proof.
  intros Hr. apply body_of_extract, extractBody_record in Hr.
  destruct Hr as (_ & _ & _ & _ & _ & _ & _ & _ & Hrating & Hcount & _).
  split.
  - intros x Hx. rewrite Hx in Hrating.
    destruct (ratingOf_number element x Hrating) as [Hnan Hn].
    destruct x as [| |q]; [discriminate|now left|right; eauto].
  - intros n Hn. rewrite Hn in Hcount.
    exact (reviewCountOf_number element n Hcount).
Qed.

Lemma X14_ratings_are_numbers_witness :
  (Finite (9 # 2) = Infinity \/ exists q, Finite (9 # 2) = Finite q /\ 0 <= q)
  /\ (Finite 1234 = Infinity
      \/ exists k : N, Finite 1234 = Finite (inject_Z (Z.of_N k))).
Proof.
  pose (card := [titleNode; priceNode (js "$7"); linkNode "/ip/1";
                 El "span" [attribute "class" "stars-container";
                            attribute "style" "width: 90%"] [];
                 El "span" [attribute "class" "stars-reviews-count"]
                    [text "(1,234 reviews)"]]).
  pose (r := {| title := js "Some Title";
                price := Finite 7;
                image := None;
                url := js "https://www.walmart.com/ip/1";
                marketplace := walmart;
                item_id := Some (js "1");
                ratings := {| average := Some (Finite (9 # 2));
                              count := Some (Finite 1234) |} |}).
  destruct (@X14_ratings_are_numbers _ (treeHost (cardPage [] card))
              (cardElement [] card) r ltac:(vm_compute; reflexivity))
    as [Haverage Hcount].
  split; [apply Haverage|apply Hcount]; reflexivity.
Defined.
